(** * UnBind backend: chunking engine and analysis pipeline

    A shallow embedding of [app/services/pdf_processing.py] and
    [app/services/analysis_service.py], followed by the properties of the
    chunker, the retrieval ranking and the pipeline's error paths.

    Conventions of the embedding.
    - A Python [int] is a [Z]; a Python [str] is a list of characters.  A
      character is an [ascii], read as the code point of the same number, so
      the text modelled is the text whose code points are below 256.
    - Slices follow Python: a negative bound counts from the end, and every
      bound is clamped to the string.
    - A [while] loop takes a fuel argument; running out of fuel is the
      outcome [Timeout], kept apart from a returned value and from a raised
      exception. *)

From Stdlib Require Import Ascii String.
From Stdlib Require Import List ZArith Lia Bool Arith Permutation Sorted.
From Stdlib Require Import DecimalString.
Import ListNotations.
Local Open Scope Z_scope.

(* ================================================================== *)
(** * Python strings *)
(* ================================================================== *)

Definition str := list ascii.

Definition lit (s : string) : str := list_ascii_of_string s.

Definition len {A : Type} (s : list A) : Z := Z.of_nat (length s).

Definition LF : ascii := "010"%char.
Definition CR : ascii := "013"%char.
Definition TAB : ascii := "009"%char.
Definition SP : ascii := " "%char.

Definition in_range (lo hi : N) (c : ascii) : bool :=
  ((lo <=? N_of_ascii c) && (N_of_ascii c <=? hi))%N.

(** [str.isspace] on one character, which is also what [\s] matches in a
    [str] pattern: TAB..CR, FS..US, space, NEL and NBSP. *)
Definition is_space (c : ascii) : bool :=
  in_range 9 13 c || in_range 28 32 c
  || (N_of_ascii c =? 133)%N || (N_of_ascii c =? 160)%N.

Definition is_digit (c : ascii) : bool := in_range 48 57 c.
Definition is_AZ (c : ascii) : bool := in_range 65 90 c.
Definition is_az (c : ascii) : bool := in_range 97 122 c.

(** The characters that [str.upper] changes: a-z, the micro sign, sharp s
    and the accented lower-case letters of Latin-1. *)
Definition upper_changes (c : ascii) : bool :=
  is_az c || (N_of_ascii c =? 181)%N
  || in_range 223 246 c || in_range 248 255 c.

(** ASCII lower-casing, the folding [re.I] applies to the letters used in the
    patterns below. *)
Definition lower (c : ascii) : ascii :=
  if is_AZ c then ascii_of_N (N_of_ascii c + 32) else c.

Fixpoint take_while {A : Type} (p : A -> bool) (s : list A) : list A :=
  match s with
  | c :: s' => if p c then c :: take_while p s' else []
  | [] => []
  end.

Fixpoint drop_while {A : Type} (p : A -> bool) (s : list A) : list A :=
  match s with
  | c :: s' => if p c then drop_while p s' else s
  | [] => []
  end.

Definition lstrip (s : str) : str := drop_while is_space s.
Definition rstrip (s : str) : str := rev (drop_while is_space (rev s)).
Definition strip (s : str) : str := rstrip (lstrip s).

Fixpoint str_eqb (a b : str) : bool :=
  match a, b with
  | [], [] => true
  | x :: a', y :: b' => Ascii.eqb x y && str_eqb a' b'
  | _, _ => false
  end.

Fixpoint starts_with (sub s : str) : bool :=
  match sub, s with
  | [], _ => true
  | x :: sub', y :: s' => Ascii.eqb x y && starts_with sub' s'
  | _ :: _, [] => false
  end.

Definition ends_with (sub s : str) : bool := starts_with (rev sub) (rev s).

(** Python's clamping of a slice bound against a length. *)
Definition clamp (n i : Z) : Z :=
  if i <? 0 then Z.max 0 (n + i) else Z.min i n.

(** [s[a:b]] *)
Definition slice {A : Type} (s : list A) (a b : Z) : list A :=
  let a' := clamp (len s) a in
  let b' := clamp (len s) b in
  firstn (Z.to_nat (b' - a')) (skipn (Z.to_nat a') s).

(** [s[a:]] *)
Definition slice_from {A : Type} (s : list A) (a : Z) : list A :=
  skipn (Z.to_nat (clamp (len s) a)) s.

(** [s[:b]] *)
Definition slice_to {A : Type} (s : list A) (b : Z) : list A :=
  firstn (Z.to_nat (clamp (len s) b)) s.

(** [s.rfind(sub)], with [i] the index of the head of [s]: the highest index
    at which [sub] starts, or -1. *)
Fixpoint rfind_from (sub s : str) (i : Z) : Z :=
  match s with
  | [] => if starts_with sub [] then i else -1
  | _ :: s' =>
      let r := rfind_from sub s' (i + 1) in
      if r =? -1 then (if starts_with sub s then i else -1) else r
  end.

Definition rfind (sub s : str) : Z := rfind_from sub s 0.

(** [s.split(sep)] for a one-character separator. *)
Fixpoint split_char (sep : ascii) (s : str) : list str :=
  match s with
  | [] => [[]]
  | c :: s' =>
      if Ascii.eqb c sep then [] :: split_char sep s'
      else match split_char sep s' with
           | l :: ls => (c :: l) :: ls
           | [] => [[c]]
           end
  end.

(** [sep.join(parts)] *)
Fixpoint join (sep : str) (parts : list str) : str :=
  match parts with
  | [] => []
  | [p] => p
  | p :: ps => p ++ sep ++ join sep ps
  end.

(** [c * n] for a one-character string. *)
Definition repeat_char (c : ascii) (n : Z) : str := repeat c (Z.to_nat n).

(** Truthiness of a string or list. *)
Definition truthy {A : Type} (s : list A) : bool :=
  match s with [] => false | _ :: _ => true end.

(* ================================================================== *)
(** * pdf_processing.py: semantic sections *)
(* ================================================================== *)

Inductive section_type : Type := heading | paragraph | list_item | table.

(** [class SemanticSection] *)
Record SemanticSection : Type := mkSection {
  type_ : section_type;
  content : str;
  level : Z
}.

(** ** The patterns of the heading test, each as the matcher of its regular
    expression anchored at the start of the line. *)

(** After the first digits of the numbered-outline pattern: the rest of the
    pattern, counting the dot-separated groups of the numeric prefix. *)
Fixpoint numbered_tail (s : str) (groups : Z) : option Z :=
  match s with
  | c :: s' =>
      if is_digit c then numbered_tail s' groups
      else if Ascii.eqb c "." then
        match s' with
        | d :: s'' =>
            if is_digit d then numbered_tail s'' (groups + 1)
            else if is_space d then Some groups else None
        | [] => None
        end
      else if is_space c then Some groups else None
  | [] => None
  end.

(** The numbered-outline pattern (digits, then groups of a dot and digits,
    an optional dot, one white-space character), anchored at the start; on a
    match, the number of dot-separated groups of the numeric prefix, which is
    what [_get_heading_level] computes from group 1. *)
Definition match_numbered (s : str) : option Z :=
  match s with
  | c :: s' => if is_digit c then numbered_tail s' 1 else None
  | [] => None
  end.

Definition is_IVX (c : ascii) : bool :=
  Ascii.eqb c "I" || Ascii.eqb c "V" || Ascii.eqb c "X".

(** [\.?\s] *)
Definition opt_dot_space (s : str) : bool :=
  match s with
  | c :: s' =>
      if is_space c then true
      else if Ascii.eqb c "." then
        match s' with d :: _ => is_space d | [] => false end
      else false
  | [] => false
  end.

(** [re.match(r"^[IVX]+\.?\s", s)] *)
Definition match_roman (s : str) : bool :=
  match s with
  | c :: s' => is_IVX c && opt_dot_space (drop_while is_IVX s')
  | [] => false
  end.

(** [re.match(r"^[A-Z]\.?\s", s)] *)
Definition match_letter (s : str) : bool :=
  match s with
  | c :: s' => is_AZ c && opt_dot_space s'
  | [] => false
  end.

Definition heading_words : list str :=
  map lit ["section"; "chapter"; "part"; "article"; "clause"; "schedule";
           "appendix"; "exhibit"]%string.

(** [\s+\d+] *)
Definition spaces_then_digit (s : str) : bool :=
  match s with
  | c :: s' =>
      is_space c &&
      match drop_while is_space s' with d :: _ => is_digit d | [] => false end
  | [] => false
  end.

(** [re.match(r"^(section|...|exhibit)\s+\d+", s, re.I)] *)
Definition match_keyword (s : str) : bool :=
  existsb
    (fun w =>
       str_eqb w (map lower (firstn (length w) s))
       && spaces_then_digit (skipn (length w) s))
    heading_words.

(** [s == s.upper()] *)
Definition is_own_upper (s : str) : bool :=
  forallb (fun c => negb (upper_changes c)) s.

Definition is_some {A : Type} (o : option A) : bool :=
  match o with Some _ => true | None => false end.

Definition _is_likely_heading (text : str) : bool :=
  let lines := split_char LF text in
  if 3 <? len lines then false
  else
    let first_line := strip (hd [] lines) in
    if negb (truthy first_line) then false
    else
      is_some (match_numbered first_line)
      || match_roman first_line
      || match_letter first_line
      || (is_own_upper first_line
          && (3 <? len first_line) && (len first_line <? 100))
      || match_keyword first_line
      || ((len first_line <? 80) && ends_with (lit ":") first_line)
      || ((len first_line <? 60) && (len lines =? 1)).

Definition _get_heading_level (heading_text : str) : Z :=
  let first_line := strip (hd [] (split_char LF heading_text)) in
  match match_numbered first_line with
  | Some groups => groups
  | None =>
      if match_roman first_line then 1
      else if match_letter first_line then 2
      else 1
  end.

(** ** List and table detection.  [_LIST_PATTERNS], each pattern anchored at
    the start of a line; the bullet U+2022 of the first pattern lies outside
    the alphabet modelled. *)

Definition list_item_bullet (l : str) : bool :=
  match drop_while is_space l with
  | c :: d :: _ => (Ascii.eqb c "-" || Ascii.eqb c "*") && is_space d
  | _ => false
  end.

Definition list_item_numbered (l : str) : bool :=
  match drop_while is_space l with
  | c :: r =>
      is_digit c &&
      match drop_while is_digit r with
      | dot :: sp :: _ => Ascii.eqb dot "." && is_space sp
      | _ => false
      end
  | [] => false
  end.

Definition list_item_letter (l : str) : bool :=
  match drop_while is_space l with
  | c :: p :: sp :: _ => is_az c && Ascii.eqb p ")" && is_space sp
  | _ => false
  end.

Definition list_item_paren (l : str) : bool :=
  match drop_while is_space l with
  | o :: c :: p :: sp :: _ =>
      Ascii.eqb o "(" && is_az c && Ascii.eqb p ")" && is_space sp
  | _ => false
  end.

Definition _LIST_PATTERNS : list (str -> bool) :=
  [list_item_bullet; list_item_numbered; list_item_letter; list_item_paren].

Definition _is_likely_list (text : str) : bool :=
  let lines := split_char LF text in
  let matches :=
    len (filter (fun l => existsb (fun p => p l) _LIST_PATTERNS) lines) in
  len lines <? 2 * matches.

(** The number of separators [re.split(r"\s{2,}|\t", l)] finds: scanning from
    the left, a run of two or more white-space characters is one separator,
    and so is a tab standing alone.  [skip] counts the characters of a
    separator still to pass. *)
Fixpoint count_separators (s : str) (skip : nat) : Z :=
  match s with
  | [] => 0
  | c :: s' =>
      match skip with
      | S k => count_separators s' k
      | O =>
          let run := take_while is_space s in
          if 2 <=? len run then 1 + count_separators s' (length run - 1)
          else if Ascii.eqb c TAB then 1 + count_separators s' 0
          else count_separators s' 0
      end
  end.

Definition _is_likely_table (text : str) : bool :=
  let lines := split_char LF text in
  let has_multi_cols :=
    existsb (fun l => 3 <=? count_separators l 0 + 1) lines in
  let enough_lines := 2 <? len (filter (fun l => truthy (strip l)) lines) in
  has_multi_cols && enough_lines.

(** ** The parser's normalisation, one function per [re.sub]. *)

(** [re.sub(r"\r\n", "\n", s)] *)
Fixpoint sub_crlf (s : str) : str :=
  match s with
  | c :: s' =>
      match s' with
      | d :: s'' =>
          if Ascii.eqb c CR && Ascii.eqb d LF then LF :: sub_crlf s''
          else c :: sub_crlf s'
      | [] => [c]
      end
  | [] => []
  end.

(** [re.sub(r"\r", "\n", s)] *)
Definition sub_cr (s : str) : str :=
  map (fun c => if Ascii.eqb c CR then LF else c) s.

(** What a maximal run of [k] line feeds becomes under
    [re.sub(r"\n{3,}", "\n\n", s)]. *)
Definition flush_newlines (k : nat) : str :=
  repeat LF (if (3 <=? k)%nat then 2 else k).

(** [re.sub(r"\n{3,}", "\n\n", s)]; [pending] counts the line feeds of the
    run being read. *)
Fixpoint collapse_newlines (s : str) (pending : nat) : str :=
  match s with
  | c :: s' =>
      if Ascii.eqb c LF then collapse_newlines s' (S pending)
      else flush_newlines pending ++ c :: collapse_newlines s' 0
  | [] => flush_newlines pending
  end.

(** [re.sub(r"[ \t]+", " ", s)] *)
Fixpoint collapse_blanks (s : str) (in_run : bool) : str :=
  match s with
  | c :: s' =>
      if Ascii.eqb c SP || Ascii.eqb c TAB then
        if in_run then collapse_blanks s' true
        else SP :: collapse_blanks s' true
      else c :: collapse_blanks s' false
  | [] => []
  end.

(** The length of the prefix of [run] that ends at its last line feed. *)
Fixpoint upto_last_LF (run : str) : option nat :=
  match run with
  | [] => None
  | c :: r =>
      match upto_last_LF r with
      | Some k => Some (S k)
      | None => if Ascii.eqb c LF then Some 1%nat else None
      end
  end.

(** [re.split(r"\n\s*\n", s)]: a separator starts at a line feed and runs to
    the last line feed of the white space that follows it.  [skip] counts the
    characters of a separator still to pass, [cur] is the piece being read,
    reversed. *)
Fixpoint split_paragraphs (s : str) (skip : nat) (cur : str) : list str :=
  match s with
  | [] => [rev cur]
  | c :: s' =>
      match skip with
      | S k => split_paragraphs s' k cur
      | O =>
          if Ascii.eqb c LF then
            match upto_last_LF (take_while is_space s') with
            | Some k => rev cur :: split_paragraphs s' k []
            | None => split_paragraphs s' 0 (c :: cur)
            end
          else split_paragraphs s' 0 (c :: cur)
      end
  end.

Definition normalise (text : str) : str :=
  let normalised := sub_crlf text in
  let normalised := sub_cr normalised in
  let normalised := collapse_newlines normalised 0 in
  strip (collapse_blanks normalised false).

(** The body of the parser's loop for one paragraph candidate. *)
Definition classify (trimmed : str) : SemanticSection :=
  if _is_likely_heading trimmed then
    mkSection heading trimmed (_get_heading_level trimmed)
  else if _is_likely_list trimmed then mkSection list_item trimmed 1
  else if _is_likely_table trimmed then mkSection table trimmed 1
  else mkSection paragraph trimmed 1.

Definition _parse_with_regex (text : str) : list SemanticSection :=
  let paragraphs := split_paragraphs (normalise text) 0 [] in
  flat_map
    (fun para =>
       let trimmed := strip para in
       if truthy trimmed then [classify trimmed] else [])
    paragraphs.

(* ================================================================== *)
(** * Outcomes of a call *)
(* ================================================================== *)

(** The exceptions the code can meet.  All but the last are subclasses of
    [Exception]; [CancelledError] derives from [BaseException] only, so an
    [except Exception] clause lets it through. *)
Inductive exn : Type :=
  | RuntimeError (msg : str)
  | IndexError
  | TypeError
  | AttributeError
  | KeyError
  | OtherException (name : str)
  | CancelledError.

Definition is_Exception (e : exn) : bool :=
  match e with CancelledError => false | _ => true end.

Inductive result (A : Type) : Type :=
  | Ok (a : A)
  | Raise (e : exn)
  | Timeout.

Arguments Ok {A} a.
Arguments Raise {A} e.
Arguments Timeout {A}.

(* ================================================================== *)
(** * pdf_processing.py: overlap and splitting *)
(* ================================================================== *)

Definition is_sentence_end (c : ascii) : bool :=
  Ascii.eqb c "." || Ascii.eqb c "!" || Ascii.eqb c "?".

(** The sentence-boundary pattern of [_get_overlap_text] (one of [.!?], one
    or more white-space characters, one of A-Z) anchored at the head of [s]:
    the text matched. *)
Definition match_boundary (s : str) : option str :=
  match s with
  | p :: rest =>
      if is_sentence_end p then
        match take_while is_space rest, drop_while is_space rest with
        | (_ :: _) as ws, c :: _ =>
            if is_AZ c then Some (p :: ws ++ [c]) else None
        | _, _ => None
        end
      else None
  | [] => None
  end.

(** [re.search] of that pattern: the text of the leftmost match. *)
Fixpoint search_boundary (s : str) : option str :=
  match match_boundary s with
  | Some g => Some g
  | None =>
      match s with
      | _ :: s' => search_boundary s'
      | [] => None
      end
  end.

(** [int(overlap_size * 1.5)]: the product is a float and [int] truncates
    towards zero. *)
Definition one_and_a_half (overlap_size : Z) : Z := Z.quot (3 * overlap_size) 2.

Definition _get_overlap_text (text : str) (overlap_size : Z) : str :=
  if len text <=? overlap_size then text
  else
    let area := slice_from text (- one_and_a_half overlap_size) in
    match search_boundary area with
    | Some g =>
        let idx := rfind g text + 1 in
        strip (slice_from text idx)
    | None => slice_from text (- overlap_size)
    end.

Definition PARA : str := [LF; LF].

(** The list [candidates] of [_split_large_section] after its filter. *)
Definition break_candidates (search_area : str) : list Z :=
  filter (fun c => negb (c =? -1))
    [ rfind PARA search_area;
      rfind [LF] search_area;
      rfind (lit ". ") search_area;
      rfind (lit ", ") search_area ].

(** The value of [end] when the chunk of one iteration is cut, [start] being
    the value at the top of the loop. *)
Definition split_end (section : str) (chunk_size overlap start : Z) : Z :=
  let end_ := start + chunk_size in
  if end_ <? len section then
    let search_area :=
      slice section (start + chunk_size - overlap) (end_ + overlap) in
    match break_candidates search_area with
    | c :: cs =>
        let best := fold_left Z.max cs c in
        start + chunk_size - overlap + best
    | [] => end_
    end
  else end_.

(** The [while] loop of [_split_large_section]. *)
Fixpoint split_loop (fuel : nat) (section : str) (chunk_size overlap : Z)
    (start : Z) (chunks : list str) : result (list str) :=
  if start <? len section then
    match fuel with
    | O => Timeout
    | S fuel' =>
        let end_ := split_end section chunk_size overlap start in
        let chunk := strip (slice section start end_) in
        let chunks := if truthy chunk then chunks ++ [chunk] else chunks in
        split_loop fuel' section chunk_size overlap (end_ - overlap) chunks
    end
  else Ok chunks.

Definition _split_large_section (fuel : nat) (section : str)
    (chunk_size overlap : Z) : result (list str) :=
  split_loop fuel section chunk_size overlap 0 [].

(** One iteration of the [for] loop of [_sections_to_chunks], on the pair of
    [chunks] and [current]. *)
Definition section_step (fuel : nat) (chunk_size overlap : Z)
    (st : list str * str) (section : SemanticSection)
  : result (list str * str) :=
  let '(chunks, current) := st in
  let s_len := len (content section) in
  let '(chunks, current) :=
    if (chunk_size <? len current + s_len) && truthy current then
      let over := _get_overlap_text current overlap in
      (chunks ++ [strip current],
       over ++ (if truthy over then PARA else []) ++ content section)
    else
      (chunks,
       if truthy current then current ++ PARA ++ content section
       else content section) in
  if chunk_size <? s_len then
    match _split_large_section fuel (content section) chunk_size overlap with
    | Ok [] => Raise IndexError
    | Ok (sub0 :: subs) => Ok (chunks ++ subs, sub0)
    | Raise e => Raise e
    | Timeout => Timeout
    end
  else Ok (chunks, current).

Fixpoint sections_loop (fuel : nat) (chunk_size overlap : Z)
    (sections : list SemanticSection) (st : list str * str)
  : result (list str * str) :=
  match sections with
  | [] => Ok st
  | section :: rest =>
      match section_step fuel chunk_size overlap st section with
      | Ok st' => sections_loop fuel chunk_size overlap rest st'
      | Raise e => Raise e
      | Timeout => Timeout
      end
  end.

Definition _sections_to_chunks (fuel : nat) (sections : list SemanticSection)
    (chunk_size overlap : Z) : result (list str) :=
  match sections_loop fuel chunk_size overlap sections ([], []) with
  | Ok (chunks, current) =>
      Ok (if truthy (strip current) then chunks ++ [strip current]
          else chunks)
  | Raise e => Raise e
  | Timeout => Timeout
  end.

(** [chunk_text] over any parser and assembler: the short-circuit comes
    before either is called. *)
Definition chunk_text_with
    (parse : str -> list SemanticSection)
    (assemble : list SemanticSection -> Z -> Z -> result (list str))
    (text : str) (chunk_size overlap : Z) : result (list str) :=
  if len text <=? chunk_size then Ok [text]
  else
    let sections := parse text in
    assemble sections chunk_size overlap.

Definition chunk_text (fuel : nat) (text : str) (chunk_size overlap : Z)
  : result (list str) :=
  chunk_text_with _parse_with_regex (_sections_to_chunks fuel)
    text chunk_size overlap.

Definition default_chunk_size : Z := 4000.
Definition default_overlap : Z := 300.

Definition convert_pdf_to_markdown (pdf_text : str) : str :=
  let md := sub_crlf pdf_text in
  let md := sub_cr md in
  let md := collapse_newlines md 0 in
  let lines := split_char LF md in
  let result :=
    map (fun line =>
           let stripped := strip line in
           if negb (truthy stripped) then []
           else if _is_likely_heading stripped then
             repeat_char "#" (_get_heading_level stripped) ++ [SP] ++ stripped
           else stripped)
        lines in
  strip (join [LF] result).

(* ================================================================== *)
(** * Python values used by the pipeline *)
(* ================================================================== *)

(** The float operations [_cosine_similarity] uses.  [fsum] is the built-in
    [sum] over floats, [f_is_zero] the falsiness of a float, [fltb] its [<]. *)
Class FloatOps (F : Type) : Type := {
  fone : F;
  fmul : F -> F -> F;
  fdiv : F -> F -> F;
  fsqrt : F -> F;
  fsum : list F -> F;
  f_is_zero : F -> bool;
  fltb : F -> F -> bool
}.

(** [l[i]] *)
Definition index {A : Type} (l : list A) (i : Z) : result A :=
  let j := if i <? 0 then len l + i else i in
  if j <? 0 then Raise IndexError
  else match nth_error l (Z.to_nat j) with
       | Some a => Ok a
       | None => Raise IndexError
       end.

(** [enumerate(l)], counting from [i]. *)
Fixpoint enumerate_from {A : Type} (i : Z) (l : list A) : list (Z * A) :=
  match l with
  | [] => []
  | a :: l' => (i, a) :: enumerate_from (i + 1) l'
  end.

Definition enumerate {A : Type} (l : list A) : list (Z * A) :=
  enumerate_from 0 l.

(** [math.ceil(n / m)] for a positive [m]. *)
Definition ceil_div (n m : Z) : Z := (n + m - 1) / m.

(** [sub in s] on strings. *)
Fixpoint contains (sub s : str) : bool :=
  starts_with sub s ||
  match s with
  | _ :: s' => contains sub s'
  | [] => false
  end.

(** [s.lstrip(chars)] and [s.rstrip(chars)] *)
Definition lstrip_chars (chars s : str) : str :=
  drop_while (fun c => existsb (Ascii.eqb c) chars) s.

Definition rstrip_chars (chars s : str) : str :=
  rev (lstrip_chars chars (rev s)).

Definition DQ : ascii := "034"%char.

Set Warnings "-register-all".

Section Json.

Context {F : Type}.

(** A value decoded by [json.loads]. *)
Inductive json : Type :=
  | JNull
  | JBool (b : bool)
  | JInt (z : Z)
  | JFloat (f : F)
  | JStr (s : str)
  | JList (l : list json)
  | JDict (d : list (str * json)).

Fixpoint dict_get (d : list (str * json)) (key : str) : option json :=
  match d with
  | [] => None
  | (k, v) :: d' => if str_eqb k key then Some v else dict_get d' key
  end.

(** [d[key] = v] *)
Fixpoint dict_set (d : list (str * json)) (key : str) (v : json)
  : list (str * json) :=
  match d with
  | [] => [(key, v)]
  | (k, w) :: d' =>
      if str_eqb k key then (k, v) :: d' else (k, w) :: dict_set d' key v
  end.

(** [c.get(key, default)]; only a dict has the method. *)
Definition json_get (c : json) (key : str) (default : json) : result json :=
  match c with
  | JDict d =>
      Ok (match dict_get d key with Some v => v | None => default end)
  | _ => Raise AttributeError
  end.

(** [v[:n]] *)
Definition json_prefix (v : json) (n : Z) : result json :=
  match v with
  | JStr s => Ok (JStr (slice_to s n))
  | JList l => Ok (JList (slice_to l n))
  | _ => Raise TypeError
  end.

(** The elements [list.extend(v)] appends. *)
Definition json_iter (v : json) : result (list json) :=
  match v with
  | JList l => Ok l
  | JStr s => Ok (map (fun c => JStr [c]) s)
  | JDict d => Ok (map (fun kv => JStr (fst kv)) d)
  | _ => Raise TypeError
  end.

End Json.

Arguments json F : clear implicits.

(* ================================================================== *)
(** * The external capabilities and programs that call them *)
(* ================================================================== *)

(** One entry of the [messages] list of a chat request. *)
Record message : Type := mkMessage {
  msg_role : str;
  msg_content : str
}.

(** The arguments of one [chat_complete] call; the temperature is kept as
    its literal. *)
Record chat_request : Type := mkChat {
  chat_messages : list message;
  chat_model : str;
  chat_temperature : str
}.

(** groq_service.py: the messages of the [RuntimeError]s of the two
    capability functions. *)
Definition API_KEY_MESSAGE : str := lit "GROQ_API_KEY is not set".

Definition chat_failed_message (status_code text : str) : str :=
  lit "Groq chat failed: " ++ status_code ++ [SP] ++ text.

Definition embeddings_failed_message (status_code text : str) : str :=
  lit "Groq embeddings failed: " ++ status_code ++ [SP] ++ text.

Definition DEFAULT_MODEL : str := lit "llama-3.3-70b-versatile".
Definition DEFAULT_TEMPERATURE : str := lit "0.2".

Section Programs.

Context {F : Type}.

(** An [async] function of the service: it returns, raises or diverges, or
    awaits one call of a capability and goes on with the call's outcome. *)
Inductive prog (A : Type) : Type :=
  | Done (r : result A)
  | Chat (req : chat_request) (k : result str -> prog A)
  | Embed (texts : list str) (k : result (list (list F)) -> prog A).

Arguments Done {A} r.
Arguments Chat {A} req k.
Arguments Embed {A} texts k.

Definition ret {A : Type} (a : A) : prog A := Done (Ok a).
Definition raise {A : Type} (e : exn) : prog A := Done (Raise e).

Fixpoint bind {A B : Type} (p : prog A) (f : A -> prog B) : prog B :=
  match p with
  | Done (Ok a) => f a
  | Done (Raise e) => Done (Raise e)
  | Done Timeout => Done Timeout
  | Chat req k => Chat req (fun r => bind (k r) f)
  | Embed texts k => Embed texts (fun r => bind (k r) f)
  end.

(** [try: p / except Exception: handler] *)
Fixpoint try_except {A : Type} (p : prog A) (handler : prog A) : prog A :=
  match p with
  | Done (Raise e) => if is_Exception e then handler else Done (Raise e)
  | Done r => Done r
  | Chat req k => Chat req (fun r => try_except (k r) handler)
  | Embed texts k => Embed texts (fun r => try_except (k r) handler)
  end.

(** A pure computation that may raise, inside a program. *)
Definition lift {A : Type} (r : result A) : prog A := Done r.

(** groq_service.py: [chat_complete] and [embed_texts], each one awaited
    call whose outcome is the capability's: the text or the vectors, or one
    of the errors the two functions raise, or an error of the transport.
    The answer of [chat_complete] is the string under [content]; a response
    whose [content] is null or not a string lies outside this model. *)
Definition chat_complete (messages : list message) (model temperature : str)
  : prog str :=
  Chat (mkChat messages model temperature) (fun r => Done r).

Definition embed_texts (texts : list str) : prog (list (list F)) :=
  if negb (truthy texts) then ret []
  else Embed texts (fun r => Done r).

(** [asyncio.gather] of a list of tasks, the results in the order of the
    tasks.  The tasks are run one after the other in that order, and the run
    stops at the first that fails; [asyncio.gather] has started every task
    by then, so the model and the code agree on the runs in which every
    task returns, and on a failing run the model's log is a prefix of the
    calls made. *)
Fixpoint gather {A : Type} (tasks : list (prog A)) : prog (list A) :=
  match tasks with
  | [] => ret []
  | t :: ts => bind t (fun a => bind (gather ts) (fun l => ret (a :: l)))
  end.

(** ** Running a program against a capability *)

Inductive event : Type :=
  | ChatCall (req : chat_request)
  | EmbedCall (texts : list str).

(** What the two services answer, given the calls made so far. *)
Record capability : Type := mkCapability {
  chat_response : list event -> chat_request -> result str;
  embed_response : list event -> list str -> result (list (list F))
}.

(** The outcome of [p] and the log of calls, [log] being the calls made
    before [p] starts. *)
Fixpoint run {A : Type} (cap : capability) (p : prog A) (log : list event)
  : result A * list event :=
  match p with
  | Done r => (r, log)
  | Chat req k =>
      run cap (k (chat_response cap log req)) (log ++ [ChatCall req])
  | Embed texts k =>
      run cap (k (embed_response cap log texts)) (log ++ [EmbedCall texts])
  end.

End Programs.

Arguments prog F A : clear implicits.
Arguments capability F : clear implicits.
Arguments Done {F A} r.
Arguments Chat {F A} req k.
Arguments Embed {F A} texts k.

Declare Scope prog_scope.
Delimit Scope prog_scope with prog.
Notation "x <- p ;; q" := (bind p (fun x => q))
  (at level 61, p at next level, right associativity) : prog_scope.

(* ================================================================== *)
(** * analysis_service.py *)
(* ================================================================== *)

(** [str(n)] for an int. *)
Definition decimal (n : Z) : str := lit (NilEmpty.string_of_int (Z.to_int n)).

Fixpoint map_result {A B : Type} (f : A -> result B) (l : list A)
  : result (list B) :=
  match l with
  | [] => Ok []
  | a :: l' =>
      match f a with
      | Ok b =>
          match map_result f l' with
          | Ok bs => Ok (b :: bs)
          | Raise e => Raise e
          | Timeout => Timeout
          end
      | Raise e => Raise e
      | Timeout => Timeout
      end
  end.

Definition bind_result {A B : Type} (r : result A) (f : A -> result B)
  : result B :=
  match r with
  | Ok a => f a
  | Raise e => Raise e
  | Timeout => Timeout
  end.

Definition NL : str := [LF].
Definition FENCE : str := lit "```".
Definition SYSTEM : str := lit "system".
Definition USER : str := lit "user".

Section AnalysisService.

Context {F : Type} {float_ops : FloatOps F}.

(** [json.loads] on the texts on which it returns a value or raises
    [JSONDecodeError], for which [None] stands.  The other errors it can
    raise ([RecursionError] on deep nesting, [ValueError] on an integer
    beyond the digit limit), which [except json.JSONDecodeError] lets
    through, lie outside this model. *)
Variable json_loads : str -> option (json F).

(** [str(v)] of a decoded value that is not a string. *)
Variable py_repr : json F -> str.

(** The fixed system prompts of the four kinds of chat request. *)
Variable ANALYZE_SYSTEM_PROMPT : str.
Variable SYNTHESIS_SYSTEM_PROMPT : str.
Variable SUMMARY_SYSTEM_PROMPT : str.
Variable SIMULATE_SYSTEM_PROMPT : str.

Local Open Scope prog_scope.

(** A value interpolated in an f-string. *)
Definition fmt (v : json F) : str :=
  match v with
  | JStr s => s
  | _ => py_repr v
  end.

Definition json_truthy (v : json F) : bool :=
  match v with
  | JNull => false
  | JBool b => b
  | JInt z => negb (z =? 0)
  | JFloat f => negb (f_is_zero f)
  | JStr s => truthy s
  | JList l => truthy l
  | JDict d => truthy d
  end.

Definition is_dict (v : json F) : bool :=
  match v with JDict _ => true | _ => false end.

(** [key in v] *)
Definition json_in (key : str) (v : json F) : result bool :=
  match v with
  | JDict d => Ok (is_some (dict_get d key))
  | JList l =>
      Ok (existsb
            (fun x => match x with JStr s => str_eqb s key | _ => false end) l)
  | JStr s => Ok (contains key s)
  | _ => Raise TypeError
  end.

(** [v[key] = x] for a string key. *)
Definition json_setitem (v : json F) (key : str) (x : json F)
  : result (json F) :=
  match v with
  | JDict d => Ok (JDict (dict_set d key x))
  | _ => Raise TypeError
  end.

Definition _try_parse_json (text : str) : json F :=
  let cleaned := strip text in
  let cleaned :=
    if starts_with FENCE cleaned then
      lstrip_chars (lit "`")
        (lstrip_chars (lit "json") (lstrip_chars (lit "`") cleaned))
    else cleaned in
  let cleaned :=
    if ends_with FENCE cleaned then rstrip_chars (lit "`") cleaned
    else cleaned in
  let cleaned := strip cleaned in
  match json_loads cleaned with
  | Some v => v
  | None => JNull
  end.

(** ** Chunk analysis *)

Definition analyze_messages (chunk role : str) : list message :=
  let role_instruction :=
    lit "The user's role is: " ++ role
    ++ lit ". Analyze ALL content in this chunk from their perspective." in
  [ mkMessage SYSTEM ANALYZE_SYSTEM_PROMPT;
    mkMessage USER
      (role_instruction ++ NL ++ NL ++ lit "TEXT CHUNK TO ANALYZE:" ++ NL
       ++ chunk ++ NL ++ NL
       ++ lit "Analyze EVERY part of this text and return JSON with all clauses found.") ].

Definition _analyze_chunk (chunk role : str) : prog F (json F) :=
  output <- chat_complete (analyze_messages chunk role)
              DEFAULT_MODEL DEFAULT_TEMPERATURE ;;
  let parsed := _try_parse_json output in
  if json_truthy parsed && is_dict parsed then
    lift (json_get parsed (lit "clauses") (JList []))
  else ret (JList []).

(** ** Report synthesis *)

Definition clause_block (ic : Z * json F) : result str :=
  let '(i, c) := ic in
  bind_result (json_get c (lit "clauseText") (JStr [])) (fun text =>
  bind_result (json_get c (lit "simplifiedExplanation") (JStr [])) (fun expl =>
  bind_result (json_get c (lit "riskLevel") (JStr [])) (fun risk =>
  bind_result (json_get c (lit "riskReason") (JStr [])) (fun reason =>
  Ok (lit "Clause " ++ decimal (i + 1) ++ lit ":" ++ NL
      ++ lit "- Text: " ++ [DQ] ++ fmt text ++ [DQ] ++ NL
      ++ lit "- Explanation: " ++ [DQ] ++ fmt expl ++ [DQ] ++ NL
      ++ lit "- Risk: " ++ fmt risk ++ NL
      ++ lit "- Risk Reason: " ++ [DQ] ++ fmt reason ++ [DQ] ++ NL))))).

Definition synthesis_messages (clauses : list (json F)) (role clause_context : str)
  : list message :=
  let role_instruction :=
    lit "The user's role is: " ++ role
    ++ lit ". Generate a comprehensive summary and extract all relevant information from their perspective." in
  [ mkMessage SYSTEM SYNTHESIS_SYSTEM_PROMPT;
    mkMessage USER
      (role_instruction ++ NL ++ NL
       ++ lit "COMPLETE ANALYSIS (" ++ decimal (len clauses)
       ++ lit " clauses analyzed):" ++ NL ++ clause_context ++ NL ++ NL
       ++ lit "Generate comprehensive summary covering ALL analyzed content.") ].

Definition _synthesize_report (clauses : list (json F)) (role : str)
  : prog F (json F) :=
  blocks <- lift (map_result clause_block (enumerate clauses)) ;;
  let clause_context := join NL blocks in
  output <- chat_complete (synthesis_messages clauses role clause_context)
              DEFAULT_MODEL DEFAULT_TEMPERATURE ;;
  let parsed := _try_parse_json output in
  if negb (json_truthy parsed) then
    raise (RuntimeError (lit "Failed to parse synthesis JSON"))
  else
    present <- lift (json_in (lit "chunkSummaries") parsed) ;;
    if negb present then
      lift (json_setitem parsed (lit "chunkSummaries") (JList []))
    else ret parsed.

(** ** Chunk summaries *)

Definition clause_line (c : json F) : result str :=
  bind_result (json_get c (lit "clauseText") (JStr [])) (fun text =>
  bind_result (json_prefix text 100) (fun head =>
  bind_result (json_get c (lit "riskLevel") (JStr [])) (fun risk =>
  Ok (lit "- " ++ fmt head ++ lit "... (Risk: " ++ fmt risk ++ lit ")")))).

Definition summary_messages (role : str) (i : Z) (chunk clause_ctx : str)
  : list message :=
  [ mkMessage SYSTEM SUMMARY_SYSTEM_PROMPT;
    mkMessage USER
      (lit "The user's role is: " ++ role
       ++ lit ". Summarize what this chunk covers." ++ NL ++ NL
       ++ lit "CHUNK " ++ decimal (i + 1) ++ lit " CONTENT:" ++ NL
       ++ slice_to chunk 500 ++ lit "..." ++ NL ++ NL
       ++ lit "CLAUSES IN THIS CHUNK:" ++ NL ++ clause_ctx ++ NL ++ NL
       ++ lit "Provide a simple summary of what this chunk covers.") ].

(** The slice of the findings that chunk [i] is summarised against. *)
Definition chunk_clauses (clauses : list (json F)) (per_chunk i : Z)
  : list (json F) :=
  let start := i * per_chunk in
  let end_ := Z.min (start + per_chunk) (len clauses) in
  slice clauses start end_.

Definition chunk_summary (i : Z) (output : str) : json F :=
  JDict [ (lit "chunkIndex", JInt (i + 1)); (lit "summary", JStr (strip output)) ].

(** The [for] loop of [_create_chunk_summaries] from index [i] on. *)
Fixpoint summaries_loop (clauses : list (json F)) (role : str) (per_chunk : Z)
    (i : Z) (chunks : list str) (summaries : list (json F))
  : prog F (list (json F)) :=
  match chunks with
  | [] => ret summaries
  | chunk :: rest =>
      lines <- lift (map_result clause_line (chunk_clauses clauses per_chunk i)) ;;
      let clause_ctx := join NL lines in
      output <- chat_complete (summary_messages role i chunk clause_ctx)
                  DEFAULT_MODEL DEFAULT_TEMPERATURE ;;
      summaries_loop clauses role per_chunk (i + 1) rest
        (summaries ++ [chunk_summary i output])
  end.

Definition per_chunk_of (chunks : list str) (clauses : list (json F)) : Z :=
  if truthy chunks then ceil_div (len clauses) (len chunks) else len clauses.

Definition _create_chunk_summaries (chunks : list str)
    (clauses : list (json F)) (role : str) : prog F (list (json F)) :=
  let per_chunk := per_chunk_of chunks clauses in
  summaries_loop clauses role per_chunk 0 chunks [].

(** The request [_create_chunk_summaries] sends for chunk [i]: the chunk is
    summarised against the slice [chunk_clauses clauses per_chunk i]. *)
Definition summary_request (role : str) (clauses : list (json F))
    (per_chunk i : Z) (chunk : str) : result chat_request :=
  bind_result (map_result clause_line (chunk_clauses clauses per_chunk i))
    (fun lines =>
       Ok (mkChat (summary_messages role i chunk
                     (join NL lines))
             DEFAULT_MODEL DEFAULT_TEMPERATURE)).

(** ** analyze_contract *)

Definition EMPTY_RESULT_MESSAGE : str :=
  lit "No legal clauses were identified in the document. It might be too short or in an unsupported format.".

(** The loop [for result in chunk_results: all_clauses.extend(result)]. *)
Fixpoint extend_all (all_clauses : list (json F)) (chunk_results : list (json F))
  : result (list (json F)) :=
  match chunk_results with
  | [] => Ok all_clauses
  | r :: rest =>
      bind_result (json_iter r) (fun items =>
        extend_all (all_clauses ++ items) rest)
  end.

(** The dict display that ends [analyze_contract]. *)
Definition merge_report (final_report : json F)
    (all_clauses chunk_summaries : list (json F)) : result (json F) :=
  match final_report with
  | JDict d =>
      Ok (JDict (dict_set (dict_set d (lit "clauses") (JList all_clauses))
                   (lit "chunkSummaries") (JList chunk_summaries)))
  | _ => Raise TypeError
  end.

(** The pipeline after chunking. *)
Definition analyze_chunks (chunks : list str) (role : str) : prog F (json F) :=
  chunk_results <- gather (map (fun chunk => _analyze_chunk chunk role) chunks) ;;
  all_clauses <- lift (extend_all [] chunk_results) ;;
  if negb (truthy all_clauses) then raise (RuntimeError EMPTY_RESULT_MESSAGE)
  else
    chunk_summaries <- _create_chunk_summaries chunks all_clauses role ;;
    final_report <- _synthesize_report all_clauses role ;;
    lift (merge_report final_report all_clauses chunk_summaries).

(** [analyze_contract] called without a progress callback. *)
Definition analyze_contract (fuel : nat) (document_text role : str)
  : prog F (json F) :=
  let markdown_text := convert_pdf_to_markdown document_text in
  chunks <- lift (chunk_text fuel markdown_text default_chunk_size default_overlap) ;;
  analyze_chunks chunks role.

(** ** Impact simulator *)

Definition _cosine_similarity (a b : list F) : F :=
  let dot := fsum (map (fun xy => fmul (fst xy) (snd xy)) (combine a b)) in
  let na := fsqrt (fsum (map (fun x => fmul x x) a)) in
  let nb := fsqrt (fsum (map (fun y => fmul y y) b)) in
  let denom := if f_is_zero (fmul na nb) then fone else fmul na nb in
  fdiv dot denom.

(** [sorted(l, key=lambda x: x[1], reverse=True)]: the stable arrangement in
    descending order of the keys, built by insertion from the right, each
    element placed before the first one whose key is not above its own. *)
Fixpoint insert_desc (x : Z * F) (l : list (Z * F)) : list (Z * F) :=
  match l with
  | [] => [x]
  | y :: l' => if fltb (snd x) (snd y) then y :: insert_desc x l' else x :: l
  end.

Definition sorted_desc (l : list (Z * F)) : list (Z * F) :=
  fold_right insert_desc [] l.

(** The body of the [try] of [_vector_retrieve_relevant_chunks] once the
    vectors are there. *)
Definition rank_chunks (chunks : list str) (vectors : list (list F)) (top_k : Z)
  : result (list str) :=
  bind_result (index vectors (-1)) (fun query_vec =>
  let chunk_vecs := slice_to vectors (-1) in
  let scored :=
    sorted_desc
      (map (fun iv => (fst iv, _cosine_similarity (snd iv) query_vec))
           (enumerate chunk_vecs)) in
  bind_result
    (map_result (fun s => index chunks (fst s))
       (slice_to scored (Z.min top_k (len scored))))
    (fun selected => Ok (if truthy selected then selected else chunks))).

Definition _vector_retrieve_relevant_chunks (chunks : list str) (query : str)
    (top_k : Z) : prog F (list str) :=
  try_except
    (let inputs := chunks ++ [query] in
     vectors <- embed_texts inputs ;;
     if negb (len vectors =? len inputs) then ret chunks
     else lift (rank_chunks chunks vectors top_k))
    (ret chunks).

Definition SCENARIO_GUIDANCE : str := lit "Please enter a scenario to simulate.".

Definition NOT_FOUND_MESSAGE : str :=
  lit "Could not find any information in the document relevant to your scenario. Please try rephrasing your question or check if the topic is covered in the contract.".

Definition simulate_messages (scenario context : str) : list message :=
  [ mkMessage SYSTEM SIMULATE_SYSTEM_PROMPT;
    mkMessage USER
      (lit "Scenario: " ++ scenario ++ NL ++ NL ++ lit "Contract Excerpts:"
       ++ NL ++ context ++ NL ++ NL
       ++ lit "Write the answer in very simple words. Keep it under 300 words.") ].

Definition simulate_impact (fuel : nat) (document_text scenario : str)
  : prog F str :=
  if negb (truthy (strip scenario)) then ret SCENARIO_GUIDANCE
  else
    chunks <- lift (chunk_text fuel document_text 1500 200) ;;
    relevant <- _vector_retrieve_relevant_chunks chunks scenario 6 ;;
    if negb (truthy relevant) then ret NOT_FOUND_MESSAGE
    else
      let context := join (NL ++ NL ++ lit "---" ++ NL ++ NL) relevant in
      chat_complete (simulate_messages scenario context)
        (lit "llama-3.3-70b-versatile") (lit "0.2").

End AnalysisService.

(* ================================================================== *)
(** * Vocabulary of the properties *)
(* ================================================================== *)

(** The last positions of the four kinds of break in a window, in the order
    of the source: paragraph break, line break, sentence end, comma. *)
Definition break_positions (search_area : str) : list Z :=
  [ rfind PARA search_area;
    rfind [LF] search_area;
    rfind (lit ". ") search_area;
    rfind (lit ", ") search_area ].

(** The break the specification's wording selects: the first kind present in
    that order. *)
Definition preferred_break (search_area : str) : option Z :=
  find (fun c => negb (c =? -1)) (break_positions search_area).

(** The cut of one stride under the specification's wording. *)
Definition split_end_preferring (section : str) (chunk_size overlap start : Z)
  : Z :=
  let end_ := start + chunk_size in
  if end_ <? len section then
    let search_area :=
      slice section (start + chunk_size - overlap) (end_ + overlap) in
    match preferred_break search_area with
    | Some b => start + chunk_size - overlap + b
    | None => end_
    end
  else end_.

(** A section whose first window holds a paragraph break and, after it, a
    comma. *)
Definition section_with_two_breaks : str :=
  lit "aaaa" ++ PARA ++ lit "b, cccccccccccc".

(** A chunk with two sentence boundaries in its last nine characters. *)
Definition chunk_ending_in_sentences : str := lit "One. Two. Three".

(** Its window for an overlap size of 6: the last nine characters. *)
Definition sentence_window : str :=
  skipn (length chunk_ending_in_sentences - Z.to_nat (one_and_a_half 6))
    chunk_ending_in_sentences.

(** The boundary of the specification's wording at the head of [s]: a full
    stop, one space, a capital letter. *)
Definition dot_space_capital (s : str) : bool :=
  match s with
  | p :: sp :: c :: _ => Ascii.eqb p "." && Ascii.eqb sp " " && is_AZ c
  | _ => false
  end.

(** The tail that starts just after the first such boundary. *)
Fixpoint after_first_dot_space_capital (s : str) : option str :=
  match s with
  | [] => None
  | _ :: s' =>
      if dot_space_capital s then Some (skipn 2 s)
      else after_first_dot_space_capital s'
  end.

(** The overlap tail under the specification's wording. *)
Definition overlap_text_as_worded (text : str) (overlap_size : Z) : str :=
  if len text <=? overlap_size then text
  else
    match after_first_dot_space_capital
            (slice_from text (- one_and_a_half overlap_size)) with
    | Some tail => tail
    | None => slice_from text (- overlap_size)
    end.

(** A string whose first character, if any, is not white space. *)
Definition trimmed (s : str) : Prop :=
  match s with
  | c :: _ => is_space c = false
  | [] => True
  end.



(** Two paragraphs, the first ending in a sentence boundary. *)
Definition two_paragraphs : str :=
  lit "aaaaa. Bbb" ++ PARA ++ lit "cccccccccc".

(** Three short paragraphs without a sentence boundary. *)
Definition three_paragraphs : str :=
  lit "aaaa" ++ PARA ++ lit "bbbb" ++ PARA ++ lit "cccc".

(** The fuel that is enough for a list of sections: the length of the
    longest. *)
Definition fuel_for (sections : list SemanticSection) : nat :=
  list_max (map (fun section => length (content section)) sections).

(** A text longer than a chunk of 20 characters. *)
Definition long_clause : str :=
  lit "The tenant pays rent monthly, in advance. Late rent bears interest.".

(** A capability failure as it reaches the pipeline: one of the two
    [RuntimeError]s of [chat_complete], or an exception of the HTTP client. *)
Definition transport_failure (e : exn) : Prop :=
  (exists status_code text, e = RuntimeError (chat_failed_message status_code text))
  \/ e = RuntimeError API_KEY_MESSAGE
  \/ (exists name, e = OtherException name).

(** Whole numbers standing in for floats, to run the pipeline on examples. *)
Definition Z_ops : FloatOps Z := {|
  fone := 1;
  fmul := Z.mul;
  fdiv := Z.div;
  fsqrt := Z.sqrt;
  fsum := fun l => fold_left Z.add l 0;
  f_is_zero := fun x => x =? 0;
  fltb := Z.ltb
|}.

(** A capability whose embedding service answers with fixed vectors and
    whose chat service answers with a fixed text. *)
Definition fixed_capability (vectors : list (list Z)) (answer : str)
  : capability Z :=
  {| chat_response := fun _ _ => Ok answer;
     embed_response := fun _ _ => Ok vectors |}.

(** A capability whose embedding service fails with the error of a
    non-200 response. *)
Definition failing_capability : capability Z :=
  {| chat_response := fun _ _ => Ok [];
     embed_response := fun _ _ =>
       Raise (RuntimeError (embeddings_failed_message (lit "500") (lit "down"))) |}.

(** The chunks of the specification's example of retrieval. *)
Definition three_chunks : list str := [lit "a"; lit "b"; lit "c"].

(** Vectors for the three chunks and, last, the query: the first chunk is
    orthogonal to the query, the other two are parallel to it. *)
Definition three_chunk_vectors : list (list Z) :=
  [[2; 0]; [0; 2]; [0; 2]; [0; 2]].

(** The ranked selection under the specification's wording: the top
    [min(top_k, number of chunks)] of the chunks in descending order of
    score. *)
Definition top_ranked (chunks : list str) (scores : list Z) (top_k : Z)
  : list str :=
  map (fun s => nth (Z.to_nat (fst s)) chunks [])
    (firstn (Z.to_nat (Z.min top_k (len chunks)))
       (sorted_desc (float_ops := Z_ops) (enumerate scores))).

(** A document of one chunk. *)
Definition short_lease : str := lit "The tenant pays rent monthly.".

(** A single short line passes the heading test, so the Markdown form gets
    a heading mark. *)
Definition short_lease_markdown : str := lit "# The tenant pays rent monthly.".

(** A decoder that rejects every text. *)
Definition no_json (text : str) : option (json Z) := None.

(** A finding with the two fields the chunk summaries read. *)
Definition finding (text risk : string) : json Z :=
  JDict [ (lit "clauseText", JStr (lit text)); (lit "riskLevel", JStr (lit risk)) ].

Definition three_findings : list (json Z) :=
  [ finding "Rent is due monthly." "Low";
    finding "The deposit is not refundable." "High";
    finding "Either party may terminate." "Medium" ].

Definition two_chunks : list str := [lit "First part."; lit "Second part."].

(** The summaries of the two chunks when every chat call answers
    [" About rent. "]. *)
Definition two_summaries : list (json Z) :=
  [ chunk_summary 0 (lit "About rent."); chunk_summary 1 (lit "About rent.") ].

(** The two chat calls of that run. *)
Definition two_summary_calls : list event :=
  Eval vm_compute in
    snd (run (fixed_capability [] (lit " About rent. "))
           (_create_chunk_summaries (fun _ => []) (lit "summarize")
              two_chunks three_findings (lit "tenant")) []).

(** A string that neither starts nor ends with white space. *)
Definition no_outer_space (s : str) : Prop := trimmed s /\ trimmed (rev s).

(** What the parser's normalisation removes from every section. *)
Definition plain_char (c : ascii) : Prop := c <> CR /\ c <> TAB.

(** The strides of [_split_large_section]: the pairs of [start] and [end] of
    the iterations of its loop, in order.  The loop is that of [split_loop],
    recording the bounds of each slice in place of the slice. *)
Fixpoint split_strides (fuel : nat) (section : str) (chunk_size overlap : Z)
    (start : Z) : result (list (Z * Z)) :=
  if start <? len section then
    match fuel with
    | O => Timeout
    | S fuel' =>
        let end_ := split_end section chunk_size overlap start in
        match split_strides fuel' section chunk_size overlap (end_ - overlap) with
        | Ok strides => Ok ((start, end_) :: strides)
        | Raise e => Raise e
        | Timeout => Timeout
        end
    end
  else Ok [].

(** The fragment cut from one stride. *)
Definition stride_fragment (section : str) (stride : Z * Z) : str :=
  strip (slice section (fst stride) (snd stride)).

(** The head of [s], if there is one, fails [p]. *)
Definition head_fails {A : Type} (p : A -> bool) (s : list A) : Prop :=
  match s with
  | c :: _ => p c = false
  | [] => True
  end.

(** Membership in the character set of [lstrip] and [rstrip]. *)
Definition in_chars (chars : str) (c : ascii) : bool :=
  existsb (Ascii.eqb c) chars.

(** A decoder that shows what it was given. *)
Definition echo_json (text : str) : option (json Z) := Some (JStr text).

Definition is_chat_call (e : event) : bool :=
  match e with
  | ChatCall _ => true
  | EmbedCall _ => false
  end.

(** The chat request [_analyze_chunk] sends for a chunk. *)
Definition analyze_request (prompt chunk role : str) : chat_request :=
  mkChat (analyze_messages prompt chunk role) DEFAULT_MODEL DEFAULT_TEMPERATURE.

(** The chat request [_synthesize_report] sends. *)
Definition synthesis_request {F : Type} (prompt : str)
    (clauses : list (json F)) (role clause_context : str) : chat_request :=
  mkChat (synthesis_messages prompt clauses role clause_context)
    DEFAULT_MODEL DEFAULT_TEMPERATURE.

Definition SYNTHESIS_FAILED_MESSAGE : str := lit "Failed to parse synthesis JSON".

(** The characters of a string that are not white space, in order. *)
Definition visible (s : str) : str := filter (fun c => negb (is_space c)) s.

(** The chat request [simulate_impact] sends for the excerpts [relevant]. *)
Definition simulate_request (prompt scenario : str) (relevant : list str)
  : chat_request :=
  mkChat
    (simulate_messages prompt scenario
       (join (NL ++ NL ++ lit "---" ++ NL ++ NL) relevant))
    (lit "llama-3.3-70b-versatile") (lit "0.2").

(** The first section of [two_paragraphs]: one short line, hence a
    heading. *)
Definition first_section : SemanticSection :=
  mkSection heading (lit "aaaaa. Bbb") 1.

(** The fragments of [section_with_two_breaks] for chunks of 10 characters
    with an overlap of 4. *)
Definition two_break_fragments : list str :=
  Eval vm_compute in
    match _split_large_section 30 section_with_two_breaks 10 4 with
    | Ok fragments => fragments
    | _ => []
    end.

(** A decoder that reads one finding out of every text. *)
Definition one_clause_json (text : str) : option (json Z) :=
  Some (JDict [ (lit "clauses", JList [finding "Rent is due monthly." "Low"]) ]).

(** The report and the calls of the pipeline on [short_lease] with that
    decoder. *)
Definition lease_report : json Z :=
  Eval vm_compute in
    match fst (run (fixed_capability [] (lit "{}"))
                 (analyze_contract (float_ops := Z_ops) one_clause_json
                    (fun _ => []) (lit "analyze") (lit "synthesize")
                    (lit "summarize") 0 short_lease (lit "tenant")) []) with
    | Ok report => report
    | _ => JNull
    end.

Definition lease_calls : list event :=
  Eval vm_compute in
    snd (run (fixed_capability [] (lit "{}"))
           (analyze_contract (float_ops := Z_ops) one_clause_json
              (fun _ => []) (lit "analyze") (lit "synthesize")
              (lit "summarize") 0 short_lease (lit "tenant")) []).

Definition late_payment : str := lit "What if I pay late?".

(** The text [_try_parse_json] hands to the decoder: what it makes of the
    model's output before [json.loads], read off a decoder that shows what
    it was given. *)
Definition decoder_input (text : str) : str :=
  match _try_parse_json echo_json text with
  | JStr cleaned => cleaned
  | _ => []
  end.

Section Ranking.

Context {F : Type} {float_ops : FloatOps F}.

(** The scores compare like numbers: [<] is asymmetric, and being not below
    is transitive.  Of floats this holds as long as none is a NaN. *)
Definition comparable (scores : list F) : Prop :=
  (forall x y, In x scores -> In y scores ->
               fltb x y = true -> fltb y x = false)
  /\
  (forall x y z, In x scores -> In y scores -> In z scores ->
                 fltb x y = false -> fltb y z = false -> fltb x z = false).

(** No element is below a later one. *)
Definition descending (scored : list (Z * F)) : Prop :=
  StronglySorted (fun a b => fltb (snd a) (snd b) = false) scored.

(** Of two elements neither of which is below the other, the one with the
    smaller index comes first. *)
Definition ties_by_index (scored : list (Z * F)) : Prop :=
  StronglySorted
    (fun a b => fltb (snd b) (snd a) = false -> fst a < fst b) scored.

End Ranking.

(* ================================================================== *)
(** * Properties: strings and slices *)
(* ================================================================== *)

Lemma len_nonneg {A : Type} (s : list A) : 0 <= len s.
Proof. unfold len. lia. Qed.

Lemma len_app {A : Type} (s t : list A) : len (s ++ t) = len s + len t.
Proof. unfold len. rewrite length_app. lia. Qed.

Lemma len_cons {A : Type} (a : A) (s : list A) : len (a :: s) = 1 + len s.
Proof. unfold len. simpl length. lia. Qed.

Lemma len_nil {A : Type} : len (@nil A) = 0.
Proof. reflexivity. Qed.

Lemma truthy_false {A : Type} (s : list A) : truthy s = false <-> s = [].
Proof. destruct s; simpl; split; congruence. Qed.

Lemma truthy_true {A : Type} (s : list A) : truthy s = true <-> s <> [].
Proof. destruct s; simpl; split; congruence. Qed.

Lemma take_drop_while {A : Type} (p : A -> bool) (s : list A) :
  take_while p s ++ drop_while p s = s.
Proof.
  induction s as [|c s IH]; simpl; [reflexivity|].
  destruct (p c); simpl; [now rewrite IH | reflexivity].
Qed.

Lemma drop_while_length {A : Type} (p : A -> bool) (s : list A) :
  (length (drop_while p s) <= length s)%nat.
Proof.
  induction s as [|c s IH]; simpl; [lia|].
  destruct (p c); simpl; lia.
Qed.

Lemma drop_while_head {A : Type} (p : A -> bool) (s : list A) c r :
  drop_while p s = c :: r -> p c = false.
Proof.
  induction s as [|d s IH]; simpl; [discriminate|].
  destruct (p d) eqn:E; [exact IH|].
  intros H; injection H as -> _; exact E.
Qed.

Lemma drop_while_all {A : Type} (p : A -> bool) (s : list A) :
  forallb p s = true -> drop_while p s = [].
Proof.
  induction s as [|c s IH]; simpl; [reflexivity|].
  destruct (p c); simpl; [exact IH | discriminate].
Qed.

Lemma drop_while_stop {A : Type} (p : A -> bool) (c : A) (s : list A) :
  p c = false -> drop_while p (c :: s) = c :: s.
Proof. intros H; simpl; now rewrite H. Qed.

Lemma lstrip_length (s : str) : len (lstrip s) <= len s.
Proof. unfold lstrip, len. pose proof (drop_while_length is_space s). lia. Qed.

Lemma rstrip_length (s : str) : len (rstrip s) <= len s.
Proof.
  unfold rstrip, len. rewrite length_rev.
  pose proof (drop_while_length is_space (rev s)) as H.
  rewrite length_rev in H. lia.
Qed.

Lemma strip_length (s : str) : len (strip s) <= len s.
Proof.
  unfold strip. pose proof (rstrip_length (lstrip s)).
  pose proof (lstrip_length s). lia.
Qed.

Lemma strip_whitespace (s : str) : forallb is_space s = true -> strip s = [].
Proof.
  intros H. unfold strip, lstrip. now rewrite (drop_while_all _ _ H).
Qed.

(** Stripping white space on the right keeps a head that is not white
    space. *)
Lemma rstrip_keeps_head (c : ascii) (s : str) :
  is_space c = false -> exists r, rstrip (c :: s) = c :: r.
Proof.
  intros Hc. unfold rstrip. simpl rev.
  assert (G : forall t, exists r, rev (drop_while is_space (t ++ [c])) = c :: r).
  { induction t as [|d t IH]; simpl.
    - rewrite Hc. now exists [].
    - destruct (is_space d).
      + exact IH.
      + exists (rev t ++ [d]). simpl. rewrite rev_app_distr. reflexivity. }
  apply G.
Qed.

Lemma strip_head_not_space (s : str) c r :
  strip s = c :: r -> is_space c = false.
Proof.
  unfold strip, lstrip. intros H.
  destruct (drop_while is_space s) as [|d t] eqn:E.
  - discriminate.
  - pose proof (drop_while_head _ _ _ _ E) as Hd.
    destruct (rstrip_keeps_head d t Hd) as [r' Hr].
    rewrite Hr in H. injection H as <- _. exact Hd.
Qed.

Lemma strip_keeps_head (c : ascii) (s : str) :
  is_space c = false -> exists r, strip (c :: s) = c :: r.
Proof.
  intros Hc. unfold strip, lstrip. rewrite (drop_while_stop _ _ _ Hc).
  now apply rstrip_keeps_head.
Qed.

Lemma clamp_range (n i : Z) : 0 <= n -> 0 <= clamp n i <= n.
Proof. unfold clamp. destruct (i <? 0) eqn:E; lia. Qed.

Lemma clamp_nonneg (n i : Z) : 0 <= i -> 0 <= n -> clamp n i = Z.min i n.
Proof. unfold clamp. intros. destruct (i <? 0) eqn:E; lia. Qed.

Lemma slice_length {A : Type} (s : list A) (a b : Z) :
  len (slice s a b) = Z.max 0 (clamp (len s) b - clamp (len s) a).
Proof.
  unfold slice. pose proof (len_nonneg s) as Hn.
  pose proof (clamp_range (len s) a Hn). pose proof (clamp_range (len s) b Hn).
  unfold len at 1. rewrite length_firstn, length_skipn.
  generalize dependent (clamp (len s) a). generalize dependent (clamp (len s) b).
  unfold len in *. intros. lia.
Qed.

Lemma slice_length_le {A : Type} (s : list A) (a b : Z) :
  0 <= a -> 0 <= b -> len (slice s a b) <= Z.max 0 (b - a).
Proof.
  intros Ha Hb. rewrite slice_length. pose proof (len_nonneg s) as Hn.
  rewrite (clamp_nonneg _ a Ha Hn), (clamp_nonneg _ b Hb Hn). lia.
Qed.

Lemma slice_from_length {A : Type} (s : list A) (a : Z) :
  len (slice_from s a) = len s - clamp (len s) a.
Proof.
  unfold slice_from. pose proof (len_nonneg s) as Hn.
  pose proof (clamp_range (len s) a Hn).
  unfold len at 1. rewrite length_skipn.
  generalize dependent (clamp (len s) a). unfold len in *. intros. lia.
Qed.

(** The last [k] characters of a string of at least [k], for a positive [k]. *)
Lemma slice_from_last {A : Type} (s : list A) (k : Z) :
  0 < k -> slice_from s (- k) = skipn (length s - Z.to_nat k) s.
Proof.
  intros Hk. unfold slice_from, clamp.
  destruct (- k <? 0) eqn:E; [|lia].
  f_equal. unfold len. lia.
Qed.

(** ** [rfind] *)

Lemma starts_with_length (sub s : str) :
  starts_with sub s = true -> len sub <= len s.
Proof.
  revert s. induction sub as [|x sub IH]; intros s H.
  - rewrite len_nil. apply len_nonneg.
  - destruct s as [|y s]; simpl in H; [discriminate|].
    apply andb_prop in H as [_ H]. apply IH in H. rewrite !len_cons. lia.
Qed.

Lemma rfind_from_range (sub s : str) (i : Z) :
  0 <= i ->
  rfind_from sub s i = -1 \/
  (i <= rfind_from sub s i /\ rfind_from sub s i + len sub <= i + len s).
Proof.
  revert i. induction s as [|c s IH]; intros i Hi; simpl.
  - destruct sub; simpl; [right; rewrite !len_nil; lia | now left].
  - destruct (IH (i + 1) ltac:(lia)) as [E | [E1 E2]].
    + rewrite E. simpl.
      destruct (starts_with sub (c :: s)) eqn:S; [right | now left].
      apply starts_with_length in S. lia.
    + destruct (rfind_from sub s (i + 1) =? -1) eqn:Q; [lia|].
      right. rewrite len_cons. lia.
Qed.

Lemma rfind_lower (sub s : str) : -1 <= rfind sub s.
Proof.
  unfold rfind. destruct (rfind_from_range sub s 0 ltac:(lia)) as [E | [E _]]; lia.
Qed.

Lemma rfind_upper (sub s : str) :
  rfind sub s <> -1 -> rfind sub s + len sub <= len s.
Proof.
  unfold rfind. destruct (rfind_from_range sub s 0 ltac:(lia)) as [E | [_ E]]; lia.
Qed.

(** Where [rfind] points, [sub] starts. *)
Lemma rfind_from_sound (sub s : str) (i : Z) :
  0 <= i -> rfind_from sub s i <> -1 ->
  starts_with sub (skipn (Z.to_nat (rfind_from sub s i - i)) s) = true.
Proof.
  revert i. induction s as [|c s IH]; intros i Hi; simpl rfind_from.
  - destruct (starts_with sub []) eqn:S; [|congruence].
    intros _. rewrite skipn_nil. exact S.
  - destruct (rfind_from sub s (i + 1) =? -1) eqn:Q.
    + destruct (starts_with sub (c :: s)) eqn:S; [|congruence].
      intros _. replace (i - i) with 0 by lia. exact S.
    + intros _. apply Z.eqb_neq in Q.
      destruct (rfind_from_range sub s (i + 1) ltac:(lia)) as [E | [E _]]; [lia|].
      specialize (IH (i + 1) ltac:(lia) Q).
      replace (Z.to_nat (rfind_from sub s (i + 1) - i))
        with (S (Z.to_nat (rfind_from sub s (i + 1) - (i + 1)))) by lia.
      exact IH.
Qed.

(** No occurrence of [sub] starts after the point [rfind] gives. *)
Lemma rfind_from_last (sub s : str) (i : Z) (k : nat) :
  0 <= i -> (k <= length s)%nat -> starts_with sub (skipn k s) = true ->
  i + Z.of_nat k <= rfind_from sub s i.
Proof.
  revert i k. induction s as [|c s IH]; intros i k Hi Hk S.
  - simpl in Hk. assert (k = 0%nat) by lia. subst k. simpl in *.
    rewrite S. lia.
  - simpl rfind_from. destruct k as [|k].
    + simpl in S.
      destruct (rfind_from_range sub s (i + 1) ltac:(lia)) as [E | [E _]].
      * rewrite E. simpl. rewrite S. lia.
      * destruct (rfind_from sub s (i + 1) =? -1) eqn:Q; lia.
    + simpl in S, Hk.
      specialize (IH (i + 1) k ltac:(lia) ltac:(lia) S).
      destruct (rfind_from sub s (i + 1) =? -1) eqn:Q; lia.
Qed.

Lemma rfind_sound (sub s : str) :
  rfind sub s <> -1 ->
  starts_with sub (skipn (Z.to_nat (rfind sub s)) s) = true.
Proof.
  intros H. pose proof (rfind_from_sound sub s 0 ltac:(lia) H) as G.
  unfold rfind. now rewrite Z.sub_0_r in G.
Qed.

Lemma rfind_last (sub s : str) (k : nat) :
  (k <= length s)%nat -> starts_with sub (skipn k s) = true ->
  Z.of_nat k <= rfind sub s.
Proof.
  intros Hk S. pose proof (rfind_from_last sub s 0 k ltac:(lia) Hk S). 
  unfold rfind. lia.
Qed.

(* ================================================================== *)
(** * Properties: oversize-section splitting *)
(* ================================================================== *)

Lemma fold_max_spec (cs : list Z) (c : Z) :
  In (fold_left Z.max cs c) (c :: cs) /\
  Forall (fun b => b <= fold_left Z.max cs c) (c :: cs).
Proof.
  revert c. induction cs as [|d cs IH]; intros c; simpl.
  - split; [now left | constructor; [lia | constructor]].
  - destruct (IH (Z.max c d)) as [I Fa]. split.
    + destruct I as [I | I].
      * destruct (Z.max_spec c d) as [[_ E] | [_ E]];
          [right; left | left]; congruence.
      * right; right; exact I.
    + inversion Fa as [|? ? H1 H2]; subst.
      constructor; [lia | constructor; [lia | exact H2]].
Qed.

Lemma break_positions_lower (w : str) : Forall (fun b => -1 <= b) (break_positions w).
Proof. unfold break_positions. repeat constructor; apply rfind_lower. Qed.

Lemma break_candidates_filter (w : str) :
  break_candidates w = filter (fun c => negb (c =? -1)) (break_positions w).
Proof. reflexivity. Qed.

(** When the window holds a break, the cut is made at the right-most of the
    four last positions. *)
Lemma best_break (w : str) (c : Z) (cs : list Z) :
  break_candidates w = c :: cs ->
  let best := fold_left Z.max cs c in
  In best (break_positions w) /\ 0 <= best /\
  Forall (fun b => b <= best) (break_positions w).
Proof.
  intros E best. destruct (fold_max_spec cs c) as [I Fa]. fold best in I, Fa.
  rewrite <- E, break_candidates_filter in I, Fa.
  apply filter_In in I as [I N].
  assert (Hb : 0 <= best).
  { pose proof (break_positions_lower w) as L. rewrite Forall_forall in L.
    specialize (L _ I). apply negb_true_iff, Z.eqb_neq in N. lia. }
  repeat split; [exact I | exact Hb |].
  rewrite Forall_forall in *. intros b Ib.
  destruct (b =? -1) eqn:Q.
  - apply Z.eqb_eq in Q. lia.
  - apply Fa, filter_In. now rewrite Q.
Qed.

Lemma no_break (w : str) :
  break_candidates w = [] <-> Forall (fun b => b = -1) (break_positions w).
Proof.
  rewrite break_candidates_filter, Forall_forall. split.
  - intros E b Ib. destruct (b =? -1) eqn:Q; [now apply Z.eqb_eq|].
    assert (I : In b (filter (fun c => negb (c =? -1)) (break_positions w))).
    { apply filter_In. now rewrite Q. }
    rewrite E in I. destruct I.
  - intros H. destruct (filter _ _) as [|c cs] eqn:E; [reflexivity|].
    assert (I : In c (filter (fun c => negb (c =? -1)) (break_positions w))).
    { rewrite E. now left. }
    apply filter_In in I as [I N]. apply H in I. subst c. discriminate.
Qed.

(** The two shapes of a cut: the hard cut at the stride, or the stride's
    window start plus a position inside the window. *)
Lemma split_end_cases (section : str) (chunk_size overlap start : Z) :
  split_end section chunk_size overlap start = start + chunk_size \/
  exists best,
    0 <= best /\
    best < len (slice section (start + chunk_size - overlap)
                  (start + chunk_size + overlap)) /\
    split_end section chunk_size overlap start
    = start + chunk_size - overlap + best.
Proof.
  unfold split_end. destruct (start + chunk_size <? len section); [|now left].
  set (w := slice section _ _).
  destruct (break_candidates w) as [|c cs] eqn:E; [now left|].
  right. destruct (best_break w c cs E) as (I & Hb & _).
  exists (fold_left Z.max cs c). split; [exact Hb | split; [| reflexivity]].
  unfold break_positions in I. simpl in I.
  assert (G : forall sub, sub <> [] -> rfind sub w = fold_left Z.max cs c ->
                          fold_left Z.max cs c < len w).
  { intros sub Hs Er. pose proof (rfind_upper sub w) as U.
    rewrite Er in U. specialize (U ltac:(lia)).
    destruct sub; [congruence|]. rewrite len_cons in U.
    pose proof (len_nonneg sub). lia. }
  destruct I as [I | [I | [I | [I | []]]]]; eapply G; try exact I; discriminate.
Qed.

(* ------------------------------------------------------------------ *)
(** ** C2 *)

(** C2, as the code has it.  At a stride boundary that lies inside the
    section, the window runs from [overlap] characters before the boundary to
    [overlap] characters after it.  If none of the four kinds of break occurs
    in the window the cut is made at exactly [start + chunk_size]; otherwise
    it is made at the right-most of the last positions of a paragraph break,
    a line break, a sentence end and a comma, whatever its kind. *)
Theorem split_end_rightmost_break (section : str) (chunk_size overlap start : Z) :
  start + chunk_size < len section ->
  let window :=
    slice section (start + chunk_size - overlap) (start + chunk_size + overlap) in
  (Forall (fun b => b = -1) (break_positions window) ->
   split_end section chunk_size overlap start = start + chunk_size)
  /\
  (Exists (fun b => b <> -1) (break_positions window) ->
   exists best,
     In best (break_positions window) /\ best <> -1 /\
     Forall (fun b => b <= best) (break_positions window) /\
     split_end section chunk_size overlap start
     = start + chunk_size - overlap + best).
Proof.
  intros Hlt window. unfold split_end.
  apply Z.ltb_lt in Hlt. rewrite Hlt. fold window.
  destruct (break_candidates window) as [|c cs] eqn:E.
  - split; [reflexivity|].
    intros Ex. apply no_break in E. apply Exists_exists in Ex as (b & Ib & Nb).
    rewrite Forall_forall in E. now apply E in Ib.
  - split.
    + intros Fa. apply no_break in Fa. congruence.
    + intros _. destruct (best_break window c cs E) as (I & Hb & Fa).
      exists (fold_left Z.max cs c).
      split; [exact I | split; [lia | split; [exact Fa | reflexivity]]].
Qed.

Lemma split_end_rightmost_break_witness :
  0 + 8 < len section_with_two_breaks /\
  exists best,
    In best (break_positions (slice section_with_two_breaks (0 + 8 - 4) (0 + 8 + 4)))
    /\ best <> -1
    /\ Forall (fun b => b <= best)
         (break_positions (slice section_with_two_breaks (0 + 8 - 4) (0 + 8 + 4)))
    /\ split_end section_with_two_breaks 8 4 0 = 0 + 8 - 4 + best.
Proof.
  split; [reflexivity|].
  apply (split_end_rightmost_break section_with_two_breaks 8 4 0); [reflexivity|].
  apply Exists_cons_hd. vm_compute. discriminate.
Defined.

(** C2 as stated fails: the window of the first stride holds a paragraph
    break at its position 0 and a comma at its position 3; the wording
    prefers the paragraph break and cuts at 4, the code cuts at the comma,
    at 7. *)
Lemma split_end_order_counterexample :
  let window := slice section_with_two_breaks (0 + 8 - 4) (0 + 8 + 4) in
  rfind PARA window = 0 /\
  rfind (lit ", ") window = 3 /\
  split_end_preferring section_with_two_breaks 8 4 0 = 4 /\
  split_end section_with_two_breaks 8 4 0 = 7.
Proof. vm_compute. repeat split. Qed.

(* ------------------------------------------------------------------ *)
(** ** C5 *)

(** C5.  A text no longer than [chunk_size] comes back as the only chunk,
    whatever the parser and the assembler are and whatever fuel the splitter
    is given: neither is consulted. *)
Theorem chunk_text_short_circuit
    (parse : str -> list SemanticSection)
    (assemble : list SemanticSection -> Z -> Z -> result (list str))
    (fuel : nat) (text : str) (chunk_size overlap : Z) :
  len text <= chunk_size ->
  chunk_text_with parse assemble text chunk_size overlap = Ok [text] /\
  chunk_text fuel text chunk_size overlap = Ok [text].
Proof.
  intros H. apply Z.leb_le in H. unfold chunk_text, chunk_text_with.
  now rewrite H.
Qed.

Lemma chunk_text_short_circuit_witness :
  len (lit "Short contract.") <= 4000 /\
  chunk_text_with (fun _ => []) (fun _ _ _ => Raise IndexError)
    (lit "Short contract.") 4000 300 = Ok [lit "Short contract."] /\
  chunk_text 0 (lit "Short contract.") 4000 300 = Ok [lit "Short contract."].
Proof.
  split; [vm_compute; discriminate|].
  apply (chunk_text_short_circuit (fun _ => []) (fun _ _ _ => Raise IndexError)
           0 (lit "Short contract.") 4000 300).
  vm_compute; discriminate.
Defined.

(* ================================================================== *)
(** * Properties: overlap-tail extraction *)
(* ================================================================== *)

Lemma take_while_all {A : Type} (p : A -> bool) (s : list A) :
  forallb p (take_while p s) = true.
Proof.
  induction s as [|c s IH]; simpl; [reflexivity|].
  destruct (p c) eqn:E; simpl; [now rewrite E | reflexivity].
Qed.

Lemma ascii_eqb_refl (c : ascii) : Ascii.eqb c c = true.
Proof. now apply Ascii.eqb_eq. Qed.

Lemma starts_with_app (g t : str) : starts_with g (g ++ t) = true.
Proof.
  induction g as [|x g IH]; simpl; [reflexivity|].
  now rewrite ascii_eqb_refl, IH.
Qed.

(** A match of the sentence-boundary pattern: a sentence end, a non-empty
    run of white space, a capital letter. *)
Lemma match_boundary_shape (s g : str) :
  match_boundary s = Some g ->
  exists p ws c tl,
    s = p :: ws ++ c :: tl /\ g = p :: ws ++ [c] /\
    is_sentence_end p = true /\ ws <> [] /\
    forallb is_space ws = true /\ is_AZ c = true.
Proof.
  destruct s as [|p rest]; simpl; [discriminate|].
  destruct (is_sentence_end p) eqn:Hp; [|discriminate].
  pose proof (take_drop_while is_space rest) as TD.
  pose proof (take_while_all is_space rest) as TA.
  destruct (take_while is_space rest) as [|w ws] eqn:Tw; [discriminate|].
  destruct (drop_while is_space rest) as [|c tl] eqn:Dw; [discriminate|].
  destruct (is_AZ c) eqn:Hc; [|discriminate].
  intros H; injection H as <-.
  exists p, (w :: ws), c, tl. rewrite <- TD.
  repeat split; try assumption; discriminate.
Qed.

Lemma match_boundary_starts (s g : str) :
  match_boundary s = Some g -> starts_with g s = true /\ 3 <= len g.
Proof.
  intros H. apply match_boundary_shape in H
    as (p & ws & c & tl & -> & -> & _ & Hws & _ & _).
  split.
  - change (p :: ws ++ c :: tl) with ((p :: ws) ++ [c] ++ tl).
    rewrite app_assoc. apply starts_with_app.
  - destruct ws; [congruence|]. unfold len. simpl. rewrite length_app. simpl. lia.
Qed.

(** [re.search] returns the leftmost match. *)
Lemma search_boundary_first (s g : str) :
  search_boundary s = Some g ->
  exists first : nat,
    (first <= length s)%nat /\
    match_boundary (skipn first s) = Some g /\
    forall j, (j < first)%nat -> match_boundary (skipn j s) = None.
Proof.
  induction s as [|c s IH].
  - simpl. discriminate.
  - change (search_boundary (c :: s))
      with (match match_boundary (c :: s) with
            | Some g0 => Some g0
            | None => search_boundary s
            end).
    destruct (match_boundary (c :: s)) as [g0|] eqn:M.
    + intros H; injection H as <-. exists 0%nat.
      repeat split; [simpl; lia | exact M | intros j Hj; lia].
    + intros H. destruct (IH H) as (k & Hk & Mk & Before).
      exists (S k). repeat split; [simpl; lia | exact Mk |].
      intros [|j] Hj; [exact M | apply Before; lia].
Qed.

Lemma search_boundary_none (s : str) :
  search_boundary s = None -> forall k, match_boundary (skipn k s) = None.
Proof.
  induction s as [|c s IH].
  - intros _ k. now rewrite skipn_nil.
  - change (search_boundary (c :: s))
      with (match match_boundary (c :: s) with
            | Some g0 => Some g0
            | None => search_boundary s
            end).
    destruct (match_boundary (c :: s)) eqn:M; [discriminate|].
    intros H [|k]; [exact M | now apply IH].
Qed.

(** An occurrence found in a suffix is the last occurrence in the whole. *)
Lemma rfind_from_app (sub pre w : str) (i : Z) :
  rfind_from sub w (i + len pre) <> -1 ->
  rfind_from sub (pre ++ w) i = rfind_from sub w (i + len pre).
Proof.
  revert i. induction pre as [|c pre IH]; intros i H.
  - rewrite len_nil, Z.add_0_r in *. reflexivity.
  - rewrite len_cons in H. simpl app. simpl rfind_from.
    replace (i + (1 + len pre)) with (i + 1 + len pre) in * by lia.
    rewrite (IH (i + 1) H). rewrite len_cons.
    replace (i + (1 + len pre)) with (i + 1 + len pre) by lia.
    apply Z.eqb_neq in H. now rewrite H.
Qed.

Lemma rfind_from_shift (sub w : str) (i j : Z) :
  rfind_from sub w i <> -1 -> 0 <= i -> 0 <= j ->
  rfind_from sub w j = rfind_from sub w i - i + j.
Proof.
  revert i j. induction w as [|c w IH]; intros i j H Hi Hj; simpl in *.
  - destruct (starts_with sub []); [lia | congruence].
  - destruct (rfind_from_range sub w (i + 1) ltac:(lia)) as [E | [E _]].
    + rewrite E in *. simpl in H.
      destruct (rfind_from_range sub w (j + 1) ltac:(lia)) as [E' | [E' _]].
      * rewrite E'. simpl. destruct (starts_with sub (c :: w)); [lia | congruence].
      * assert (N : rfind_from sub w (j + 1) <> -1) by lia.
        pose proof (IH (j + 1) (i + 1) N ltac:(lia) ltac:(lia)). lia.
    + assert (N : rfind_from sub w (i + 1) <> -1) by lia.
      pose proof (IH (i + 1) (j + 1) N ltac:(lia) ltac:(lia)) as R.
      destruct (rfind_from sub w (i + 1) =? -1) eqn:Q1; [lia|].
      destruct (rfind_from sub w (j + 1) =? -1) eqn:Q2; lia.
Qed.

Lemma rfind_app (sub pre w : str) :
  rfind sub w <> -1 -> rfind sub (pre ++ w) = len pre + rfind sub w.
Proof.
  intros H. unfold rfind in *.
  pose proof (len_nonneg pre) as Hp.
  pose proof (rfind_from_shift sub w 0 (0 + len pre) H ltac:(lia) ltac:(lia)) as S.
  pose proof (rfind_from_range sub w 0 ltac:(lia)) as R.
  rewrite rfind_from_app; lia.
Qed.

Lemma slice_from_nonneg {A : Type} (s : list A) (a : Z) :
  0 <= a -> slice_from s a = skipn (Z.to_nat a) s.
Proof.
  intros Ha. unfold slice_from. rewrite (clamp_nonneg _ _ Ha (len_nonneg s)).
  destruct (Z.le_gt_cases a (len s)).
  - now rewrite Z.min_l.
  - rewrite Z.min_r by lia. unfold len in *. rewrite Nat2Z.id.
    rewrite (skipn_all2 (n := length s)) by lia.
    rewrite (skipn_all2 (n := Z.to_nat a)) by lia. reflexivity.
Qed.

Lemma one_and_a_half_bounds (o : Z) :
  1 <= o -> o <= one_and_a_half o /\ 2 * one_and_a_half o <= 3 * o.
Proof.
  intros H. unfold one_and_a_half.
  rewrite Z.quot_div_nonneg by lia.
  pose proof (Z.div_mod (3 * o) 2 ltac:(lia)).
  pose proof (Z.mod_pos_bound (3 * o) 2 ltac:(lia)). lia.
Qed.

(** The overlap tail in terms of the window alone. *)
Lemma overlap_text_by_window (text : str) (overlap_size : Z) :
  1 <= overlap_size -> overlap_size < len text ->
  let window :=
    skipn (length text - Z.to_nat (one_and_a_half overlap_size)) text in
  _get_overlap_text text overlap_size =
  match search_boundary window with
  | Some g => strip (skipn (S (Z.to_nat (rfind g window))) window)
  | None => skipn (length text - Z.to_nat overlap_size) text
  end.
Proof.
  intros Ho Hlen window. unfold _get_overlap_text.
  destruct (len text <=? overlap_size) eqn:Q; [apply Z.leb_le in Q; lia|].
  pose proof (one_and_a_half_bounds overlap_size Ho) as [Hw _].
  rewrite (slice_from_last text (one_and_a_half overlap_size)) by lia.
  fold window.
  destruct (search_boundary window) as [g|] eqn:Sb.
  - apply search_boundary_first in Sb as (k & Hk & Mk & _).
    apply match_boundary_starts in Mk as [St Lg].
    pose proof (rfind_last g window k Hk St) as Rl.
    assert (N : rfind g window <> -1) by lia.
    set (pre := firstn (length text - Z.to_nat (one_and_a_half overlap_size)) text).
    assert (Et : text = pre ++ window) by (symmetry; apply firstn_skipn).
    assert (Lp : length pre = (length text - Z.to_nat (one_and_a_half overlap_size))%nat).
    { unfold pre. rewrite length_firstn. lia. }
    rewrite Et at 1 2. rewrite (rfind_app g pre window N).
    rewrite slice_from_nonneg by (pose proof (len_nonneg pre); lia).
    f_equal.
    replace (Z.to_nat (len pre + rfind g window + 1))
      with (length pre + S (Z.to_nat (rfind g window)))%nat
      by (unfold len; lia).
    rewrite skipn_app, skipn_all2 by lia. rewrite app_nil_l.
    f_equal. lia.
  - apply slice_from_last. lia.
Qed.

(* ------------------------------------------------------------------ *)
(** ** C3 *)

(** The last [overlap_size] characters of a text longer than that lie in
    its window. *)
Lemma tail_of_window (text : str) (overlap_size : Z) :
  1 <= overlap_size -> overlap_size < len text ->
  let window :=
    skipn (length text - Z.to_nat (one_and_a_half overlap_size)) text in
  skipn (length text - Z.to_nat overlap_size) text
  = skipn (length window - Z.to_nat overlap_size) window.
Proof.
  intros Ho Hlen window. unfold window.
  pose proof (one_and_a_half_bounds overlap_size Ho) as [Hw _].
  rewrite skipn_skipn, length_skipn. f_equal. unfold len in Hlen. lia.
Qed.

(** [rfind] returns the last occurrence. *)
Lemma rfind_none_after (sub s : str) (j : nat) :
  1 <= len sub -> rfind sub s < Z.of_nat j ->
  starts_with sub (skipn j s) = false.
Proof.
  intros Hs Hj. destruct (starts_with sub (skipn j s)) eqn:S; [|reflexivity].
  exfalso. destruct (Nat.le_gt_cases j (length s)) as [Hle | Hgt].
  - pose proof (rfind_last sub s j Hle S). lia.
  - apply starts_with_length in S. rewrite skipn_all2 in S by lia.
    rewrite len_nil in S. lia.
Qed.

(** C3, as the code has it.  For a chunk longer than a positive overlap size
    the result is determined by the window, the last [int(1.5 * overlap)]
    characters: two such chunks with the same window have the same result.
    If no sentence boundary (one of [.], [!], [?], then white space, then a
    capital A-Z) occurs in the window, the result is the last [overlap_size]
    characters of the chunk, which are the last [overlap_size] characters of
    the window, verbatim.  If one occurs, [g] being the text of the first,
    the result is the tail of the window that starts just after the
    sentence-end mark of the last occurrence of [g] in the window, stripped
    of surrounding white space; that occurrence is at or after the first
    boundary. *)
Theorem overlap_text_of_long_chunk (text : str) (overlap_size : Z) :
  1 <= overlap_size -> overlap_size < len text ->
  let window :=
    skipn (length text - Z.to_nat (one_and_a_half overlap_size)) text in
  (forall other : str,
     overlap_size < len other ->
     skipn (length other - Z.to_nat (one_and_a_half overlap_size)) other
     = window ->
     _get_overlap_text other overlap_size = _get_overlap_text text overlap_size)
  /\
  match search_boundary window with
  | None =>
      _get_overlap_text text overlap_size
      = skipn (length text - Z.to_nat overlap_size) text
      /\ _get_overlap_text text overlap_size
         = skipn (length window - Z.to_nat overlap_size) window
  | Some g =>
      exists first idx : nat,
        match_boundary (skipn first window) = Some g /\
        (forall j, (j < first)%nat -> match_boundary (skipn j window) = None) /\
        (first <= idx < length window)%nat /\
        starts_with g (skipn idx window) = true /\
        (forall j, (idx < j)%nat -> starts_with g (skipn j window) = false) /\
        _get_overlap_text text overlap_size = strip (skipn (S idx) window)
  end.
Proof.
  intros Ho Hlen window.
  pose proof (overlap_text_by_window text overlap_size Ho Hlen) as E.
  cbv zeta in E. fold window in E.
  pose proof (tail_of_window text overlap_size Ho Hlen) as Tw.
  cbv zeta in Tw. fold window in Tw.
  split.
  - intros other Hother Hw.
    pose proof (overlap_text_by_window other overlap_size Ho Hother) as E'.
    pose proof (tail_of_window other overlap_size Ho Hother) as Tw'.
    cbv zeta in E', Tw'. rewrite Hw in E', Tw'.
    rewrite E, E'. destruct (search_boundary window); [reflexivity|].
    now rewrite Tw, Tw'.
  - destruct (search_boundary window) as [g|] eqn:Sb;
      [|split; [exact E | now rewrite E]].
    apply search_boundary_first in Sb as (k & Hk & Mk & Before).
    destruct (match_boundary_starts _ _ Mk) as [St Lg].
    pose proof (rfind_last g window k Hk St) as Rl.
    assert (N : rfind g window <> -1) by lia.
    pose proof (rfind_upper g window N) as Ru.
    exists k, (Z.to_nat (rfind g window)).
    split; [exact Mk | split; [exact Before | split; [| split; [| split]]]].
    + unfold len in *. lia.
    + now apply rfind_sound.
    + intros j Hj. apply rfind_none_after; lia.
    + exact E.
Qed.

Lemma overlap_text_of_long_chunk_witness :
  1 <= 6 /\ 6 < len chunk_ending_in_sentences /\
  (forall other : str,
     6 < len other ->
     skipn (length other - Z.to_nat (one_and_a_half 6)) other
     = sentence_window ->
     _get_overlap_text other 6 = _get_overlap_text chunk_ending_in_sentences 6)
  /\
  exists first idx : nat,
    match_boundary (skipn first sentence_window) = Some (lit ". T") /\
    (forall j, (j < first)%nat -> match_boundary (skipn j sentence_window) = None) /\
    (first <= idx < length sentence_window)%nat /\
    starts_with (lit ". T") (skipn idx sentence_window) = true /\
    (forall j, (idx < j)%nat ->
       starts_with (lit ". T") (skipn j sentence_window) = false) /\
    _get_overlap_text chunk_ending_in_sentences 6
    = strip (skipn (S idx) sentence_window).
Proof.
  split; [lia | split; [reflexivity|]].
  exact (overlap_text_of_long_chunk chunk_ending_in_sentences 6
           ltac:(lia) ltac:(reflexivity)).
Defined.

(** C3 as stated fails: the window of this chunk holds no full stop, so the
    wording gives the last six characters verbatim; the code takes the
    exclamation mark for a sentence end and returns the four characters
    after it. *)
Lemma overlap_text_counterexample :
  let text := lit "aaaaa! Bbbb" in
  6 < len text /\
  after_first_dot_space_capital (slice_from text (- one_and_a_half 6)) = None /\
  overlap_text_as_worded text 6 = lit "! Bbbb" /\
  _get_overlap_text text 6 = lit "Bbbb".
Proof. vm_compute. repeat split. Qed.

(** When the text of the first boundary occurs again later in the window,
    [rfind] lands on the later occurrence: here the first boundary is at the
    first full stop, and the tail returned starts after the second. *)
Example overlap_text_uses_last_occurrence :
  search_boundary (lit "x. Ab. Ab") = Some (lit ". A") /\
  _get_overlap_text (lit "x. Ab. Ab") 6 = lit "Ab".
Proof. split; reflexivity. Qed.

(** ** The length of an overlap tail *)

Lemma starts_with_two (x y : ascii) (g s : str) :
  starts_with (x :: y :: g) s = true -> exists t, s = x :: y :: t.
Proof.
  destruct s as [|a [|b t]]; simpl; try discriminate.
  - rewrite andb_false_r. discriminate.
  - intros H. apply andb_prop in H as [H1 H]. apply andb_prop in H as [H2 _].
    apply Ascii.eqb_eq in H1, H2. subst. now exists t.
Qed.

Lemma skipn_S_tail {A : Type} (n : nat) (s : list A) (x : A) (t : list A) :
  skipn n s = x :: t -> skipn (S n) s = t.
Proof.
  revert s. induction n as [|n IH]; intros s H.
  - simpl in H. subst s. reflexivity.
  - destruct s as [|a s]; [discriminate|]. simpl in H. now apply IH.
Qed.

Lemma strip_drops_space (c : ascii) (s : str) :
  is_space c = true -> strip (c :: s) = strip s.
Proof. intros H. unfold strip, lstrip. simpl. now rewrite H. Qed.

Lemma overlap_text_length (text : str) (overlap_size : Z) :
  1 <= overlap_size ->
  len (_get_overlap_text text overlap_size)
  <= Z.max overlap_size (one_and_a_half overlap_size - 2).
Proof.
  intros Ho. destruct (Z.le_gt_cases (len text) overlap_size) as [Hs | Hl].
  - unfold _get_overlap_text. apply Z.leb_le in Hs. rewrite Hs.
    apply Z.leb_le in Hs. lia.
  - rewrite overlap_text_by_window by lia. cbv zeta.
    set (window := skipn _ text).
    assert (Lw : len window <= one_and_a_half overlap_size).
    { unfold window, len. rewrite length_skipn.
      pose proof (one_and_a_half_bounds overlap_size Ho). lia. }
    destruct (search_boundary window) as [g|] eqn:Sb.
    + apply search_boundary_first in Sb as (k & Hk & Mk & _).
      destruct (match_boundary_starts _ _ Mk) as [St _].
      apply match_boundary_shape in Mk
        as (p & ws & c & tl & _ & Eg & _ & Hws & Aws & _).
      pose proof (rfind_last g window k Hk St) as Rl.
      assert (N : rfind g window <> -1) by lia.
      pose proof (rfind_sound g window N) as So.
      destruct ws as [|w ws]; [congruence|]. subst g.
      simpl in Aws. apply andb_prop in Aws as [Hw _].
      apply starts_with_two in So as [t Et].
      pose proof (f_equal (@length ascii) Et) as Ll.
      rewrite length_skipn in Ll. simpl in Ll.
      rewrite (skipn_S_tail _ _ _ _ Et), (strip_drops_space _ _ Hw).
      pose proof (strip_length t). unfold len in *. lia.
    + unfold len. rewrite length_skipn. lia.
Qed.

(* ================================================================== *)
(** * Properties: the splitting loop *)
(* ================================================================== *)

(** The start of the next stride is at least [chunk_size - 2 * overlap]
    beyond the start of this one. *)
Lemma split_end_advance (section : str) (chunk_size overlap start : Z) :
  0 <= overlap ->
  start + (chunk_size - 2 * overlap)
  <= split_end section chunk_size overlap start - overlap.
Proof.
  intros Ho.
  destruct (split_end_cases section chunk_size overlap start)
    as [E | (best & Hb & _ & E)]; rewrite E; lia.
Qed.

Lemma split_end_upper (section : str) (chunk_size overlap start : Z) :
  0 <= overlap -> 0 <= start + chunk_size - overlap ->
  split_end section chunk_size overlap start
  <= start + chunk_size + Z.max 0 (overlap - 1).
Proof.
  intros Ho Hs.
  destruct (split_end_cases section chunk_size overlap start)
    as [E | (best & Hb & Hw & E)]; rewrite E; [lia|].
  pose proof (slice_length_le section (start + chunk_size - overlap)
                (start + chunk_size + overlap) Hs ltac:(lia)).
  lia.
Qed.


(** More fuel does not change a result. *)
Lemma split_loop_fuel_mono (section : str) (chunk_size overlap : Z)
    (fuel fuel' : nat) :
  (fuel <= fuel')%nat ->
  forall (start : Z) (acc out : list str),
    split_loop fuel section chunk_size overlap start acc = Ok out ->
    split_loop fuel' section chunk_size overlap start acc = Ok out.
Proof.
  revert fuel'. induction fuel as [|fuel IH]; intros fuel' Hf start acc out; simpl.
  - destruct (start <? len section) eqn:Q; [discriminate|].
    intros H. destruct fuel'; simpl; now rewrite Q.
  - destruct (start <? len section) eqn:Q.
    + destruct fuel' as [|fuel']; [lia|]. simpl. rewrite Q.
      apply IH. lia.
    + intros H. destruct fuel'; simpl; now rewrite Q.
Qed.

(** With [chunk_size > 2 * overlap >= 0] the loop ends within as many
    iterations as there are characters left. *)
Lemma split_loop_terminates (section : str) (chunk_size overlap : Z) :
  0 <= overlap -> 2 * overlap < chunk_size ->
  forall (fuel : nat) (start : Z) (acc : list str),
    len section - start <= Z.of_nat fuel ->
    exists out, split_loop fuel section chunk_size overlap start acc
                = Ok (acc ++ out).
Proof.
  intros Ho Hc. induction fuel as [|fuel IH]; intros start acc Hf; simpl.
  - destruct (start <? len section) eqn:Q; [apply Z.ltb_lt in Q; lia|].
    exists []. now rewrite app_nil_r.
  - destruct (start <? len section) eqn:Q.
    + pose proof (split_end_advance section chunk_size overlap start Ho) as Adv.
      set (end_ := split_end section chunk_size overlap start) in *.
      set (chunk := strip (slice section start end_)).
      destruct (IH (end_ - overlap)
                  (if truthy chunk then acc ++ [chunk] else acc) ltac:(lia))
        as [out E].
      rewrite E. destruct (truthy chunk).
      * exists (chunk :: out). now rewrite <- app_assoc.
      * now exists out.
    + exists []. now rewrite app_nil_r.
Qed.

Lemma strip_trimmed (s : str) : trimmed (strip s).
Proof.
  unfold trimmed. destruct (strip s) as [|c r] eqn:E; [exact I|].
  eapply strip_head_not_space. exact E.
Qed.

(** An oversize trimmed section yields at least one fragment. *)
Lemma split_large_section_nonempty (section : str) (chunk_size overlap : Z)
    (fuel : nat) :
  0 <= overlap -> 2 * overlap < chunk_size ->
  trimmed section -> chunk_size < len section ->
  len section <= Z.of_nat fuel ->
  exists sub0 subs,
    _split_large_section fuel section chunk_size overlap = Ok (sub0 :: subs).
Proof.
  intros Ho Hc Ht Hl Hf. unfold _split_large_section.
  destruct fuel as [|fuel]; [pose proof (len_nonneg section); lia|].
  simpl. assert (Q : (0 <? len section) = true) by (apply Z.ltb_lt; lia).
  rewrite Q.
  pose proof (split_end_advance section chunk_size overlap 0 Ho) as Adv.
  set (end_ := split_end section chunk_size overlap 0) in *.
  destruct section as [|c r]; [rewrite len_nil in Hl; lia|].
  simpl in Ht.
  assert (Sl : slice (c :: r) 0 end_ = c :: firstn (Z.to_nat (Z.min end_ (len (c :: r))) - 1) r).
  { assert (C0 : clamp (len (c :: r)) 0 = 0).
    { unfold clamp. simpl. pose proof (len_nonneg (c :: r)). lia. }
    assert (C1 : clamp (len (c :: r)) end_ = Z.min end_ (len (c :: r))).
    { apply clamp_nonneg; [lia | apply len_nonneg]. }
    unfold slice. rewrite C0, C1. simpl skipn. rewrite Z.sub_0_r.
    rewrite len_cons in *. pose proof (len_nonneg r).
    destruct (Z.to_nat (Z.min end_ (1 + len r))) as [|n] eqn:En; [lia|].
    simpl. now rewrite Nat.sub_0_r. }
  rewrite Sl. destruct (strip_keeps_head c (firstn (Z.to_nat (Z.min end_ (len (c :: r))) - 1) r) Ht)
    as [t Et].
  rewrite Et.
  change (exists sub0 subs,
            split_loop fuel (c :: r) chunk_size overlap (end_ - overlap) [c :: t]
            = Ok (sub0 :: subs)).
  destruct (split_loop_terminates (c :: r) chunk_size overlap Ho Hc fuel
              (end_ - overlap) [c :: t]) as [out E].
  { rewrite len_cons in *. lia. }
  rewrite E. now exists (c :: t), out.
Qed.

(* ================================================================== *)
(** * Properties: chunk assembly *)
(* ================================================================== *)





(* ------------------------------------------------------------------ *)
(** ** C1 *)




(** Why the bound asks for a positive overlap: with [overlap = 0] the slice
    [text[-0:]] is the whole text, so the overlap tail of a chunk without a
    sentence boundary is the chunk itself and the accumulator never
    shrinks. *)
Example chunk_text_zero_overlap_accumulates :
  chunk_text 0 three_paragraphs 5 0
  = Ok [ lit "aaaa";
         lit "aaaa" ++ PARA ++ lit "bbbb";
         lit "aaaa" ++ PARA ++ lit "bbbb" ++ PARA ++ lit "cccc" ].
Proof. reflexivity. Qed.

(* ================================================================== *)
(** * Properties: termination of the chunker *)
(* ================================================================== *)

Lemma content_classify (trimmed_text : str) :
  content (classify trimmed_text) = trimmed_text.
Proof.
  unfold classify.
  destruct (_is_likely_heading trimmed_text); [reflexivity|].
  destruct (_is_likely_list trimmed_text); [reflexivity|].
  destruct (_is_likely_table trimmed_text); reflexivity.
Qed.

(** Every section the parser returns holds stripped, non-empty text. *)
Lemma parse_sections_trimmed (text : str) :
  Forall (fun section => trimmed (content section)) (_parse_with_regex text).
Proof.
  unfold _parse_with_regex. apply Forall_forall. intros section Hin.
  apply in_flat_map in Hin as (para & _ & Hin).
  destruct (truthy (strip para)); [|destruct Hin].
  destruct Hin as [<- | []]. rewrite content_classify. apply strip_trimmed.
Qed.

Lemma split_large_section_fuel (section : str) (chunk_size overlap : Z)
    (fuel : nat) :
  0 <= overlap -> 2 * overlap < chunk_size ->
  (length section <= fuel)%nat ->
  _split_large_section fuel section chunk_size overlap
  = _split_large_section (length section) section chunk_size overlap.
Proof.
  intros Ho Hc Hf. unfold _split_large_section.
  destruct (split_loop_terminates section chunk_size overlap Ho Hc
              (length section) 0 []) as [out E].
  { unfold len. lia. }
  rewrite E. now apply (split_loop_fuel_mono _ _ _ (length section)).
Qed.

(** With fuel for its section, one step of the assembler returns, and its
    result is that of the step run with the section's length as fuel. *)
Lemma section_step_total (fuel : nat) (chunk_size overlap : Z)
    (st : list str * str) (section : SemanticSection) :
  0 <= overlap -> 2 * overlap < chunk_size ->
  trimmed (content section) ->
  (length (content section) <= fuel)%nat ->
  exists st',
    section_step fuel chunk_size overlap st section = Ok st' /\
    section_step (length (content section)) chunk_size overlap st section
    = Ok st'.
Proof.
  intros Ho Hc Ht Hf. destruct st as [chunks current]. unfold section_step.
  rewrite (split_large_section_fuel _ _ _ fuel Ho Hc Hf).
  destruct (if (chunk_size <? len current + len (content section))
               && truthy current
            then _ else _) as [chunks1 current1].
  destruct (chunk_size <? len (content section)) eqn:Big.
  - apply Z.ltb_lt in Big.
    destruct (split_large_section_nonempty (content section) chunk_size overlap
                (length (content section)) Ho Hc Ht Big ltac:(unfold len; lia))
      as (sub0 & subs & E).
    rewrite E. eexists. split; reflexivity.
  - eexists. split; reflexivity.
Qed.

Lemma sections_loop_total (fuel : nat) (chunk_size overlap : Z)
    (sections : list SemanticSection) :
  0 <= overlap -> 2 * overlap < chunk_size ->
  Forall (fun section => trimmed (content section)) sections ->
  Forall (fun section => (length (content section) <= fuel)%nat) sections ->
  forall st,
  exists st',
    sections_loop fuel chunk_size overlap sections st = Ok st' /\
    forall fuel',
      Forall (fun section => (length (content section) <= fuel')%nat) sections ->
      sections_loop fuel' chunk_size overlap sections st = Ok st'.
Proof.
  intros Ho Hc. induction sections as [|sec rest IH]; intros Ht Hf st.
  - exists st. split; [reflexivity | intros; reflexivity].
  - inversion Ht as [|? ? Ht1 Ht2]; inversion Hf as [|? ? Hf1 Hf2]; subst.
    destruct (section_step_total fuel chunk_size overlap st sec Ho Hc Ht1 Hf1)
      as (st1 & E1 & E0).
    destruct (IH Ht2 Hf2 st1) as (st' & E' & Any).
    exists st'. simpl. rewrite E1. split; [exact E'|].
    intros fuel' Hf'. inversion Hf' as [|? ? Hg1 Hg2]; subst.
    destruct (section_step_total fuel' chunk_size overlap st sec Ho Hc Ht1 Hg1)
      as (st2 & E2 & E3).
    rewrite E2. assert (st2 = st1) by congruence. subst st2.
    now apply Any.
Qed.

Lemma fuel_for_enough (sections : list SemanticSection) (fuel : nat) :
  (fuel_for sections <= fuel)%nat ->
  Forall (fun section => (length (content section) <= fuel)%nat) sections.
Proof.
  unfold fuel_for. intros H. apply list_max_le in H.
  rewrite Forall_map in H. exact H.
Qed.

(* ------------------------------------------------------------------ *)
(** ** C10 *)

(** C10, as the code has it.  For a non-negative overlap and a chunk size
    above twice the overlap, [chunk_text] returns on every text: there is an
    amount of fuel from which on it gives one same list of chunks.  In the
    splitting loop the start of the next stride is at least
    [chunk_size - 2 * overlap] beyond the start of the current one. *)
Theorem chunk_text_terminates (text : str) (chunk_size overlap : Z) :
  0 <= overlap -> 2 * overlap < chunk_size ->
  (exists (fuel0 : nat) (chunks : list str),
     forall fuel, (fuel0 <= fuel)%nat ->
       chunk_text fuel text chunk_size overlap = Ok chunks)
  /\
  (forall (section : str) (start : Z),
     start + (chunk_size - 2 * overlap)
     <= split_end section chunk_size overlap start - overlap).
Proof.
  intros Ho Hc. split; [| intros; now apply split_end_advance].
  unfold chunk_text, chunk_text_with.
  destruct (len text <=? chunk_size).
  - exists 0%nat, [text]. reflexivity.
  - set (sections := _parse_with_regex text).
    destruct (sections_loop_total (fuel_for sections) chunk_size overlap sections
                Ho Hc (parse_sections_trimmed text)
                (fuel_for_enough _ _ (le_n _)) ([], []))
      as ([chunks current] & _ & Any).
    exists (fuel_for sections),
      (if truthy (strip current) then chunks ++ [strip current] else chunks).
    intros fuel Hf. unfold _sections_to_chunks.
    now rewrite (Any fuel (fuel_for_enough _ _ Hf)).
Qed.

Lemma chunk_text_terminates_witness :
  0 <= 4 /\ 2 * 4 < 20 /\
  (exists (fuel0 : nat) (chunks : list str),
     forall fuel, (fuel0 <= fuel)%nat ->
       chunk_text fuel long_clause 20 4 = Ok chunks) /\
  (forall (section : str) (start : Z),
     start + (20 - 2 * 4) <= split_end section 20 4 start - 4).
Proof.
  split; [lia | split; [lia|]].
  apply (chunk_text_terminates long_clause 20 4); lia.
Defined.

Lemma slice_empty {A : Type} (s : list A) (a b : Z) :
  clamp (len s) b <= clamp (len s) a -> slice s a b = [].
Proof.
  intros H. unfold slice.
  replace (Z.to_nat (clamp (len s) b - clamp (len s) a)) with 0%nat by lia.
  reflexivity.
Qed.

(** With both parameters negative the start of the stride moves backwards
    and the loop never leaves. *)
Lemma split_loop_backwards (fuel : nat) :
  forall (start : Z) (acc : list str),
    start <= 0 -> split_loop fuel (lit "a") (-5) (-3) start acc = Timeout.
Proof.
  assert (L : len (lit "a") = 1) by reflexivity.
  induction fuel as [|fuel IH]; intros start acc Hs;
    assert (Q : (start <? len (lit "a")) = true) by (apply Z.ltb_lt; lia);
    cbn [split_loop]; rewrite Q; [reflexivity|].
  assert (E : split_end (lit "a") (-5) (-3) start = start - 5).
  { unfold split_end.
    assert (Q2 : (start + -5 <? len (lit "a")) = true) by (apply Z.ltb_lt; lia).
    rewrite Q2. rewrite slice_empty; [reflexivity|].
    rewrite L. unfold clamp.
    destruct (start + -5 + -3 <? 0) eqn:Q3;
      destruct (start + -5 - -3 <? 0) eqn:Q4; lia. }
  rewrite E. rewrite slice_empty.
  - change (strip []) with (@nil ascii). cbn [truthy]. apply IH. lia.
  - rewrite L. unfold clamp.
    destruct (start - 5 <? 0) eqn:Q3; destruct (start <? 0) eqn:Q4; lia.
Qed.

(** C10 as stated fails: [chunk_size = -5] is above twice [overlap = -3],
    and [chunk_text] does not return on the one-character text, whatever
    the fuel. *)
Lemma chunk_text_terminates_counterexample :
  2 * (-3) < -5 /\
  forall fuel, chunk_text fuel (lit "a") (-5) (-3) = Timeout.
Proof.
  split; [lia|]. intros fuel.
  unfold chunk_text, chunk_text_with.
  change (len (lit "a") <=? -5) with false. cbv iota.
  change (_parse_with_regex (lit "a")) with [mkSection heading (lit "a") 1].
  unfold _sections_to_chunks, sections_loop, section_step.
  cbn [content]. change (len (lit "a")) with 1.
  change (len (@nil ascii)) with 0. cbv iota beta.
  change ((-5 <? 0 + 1) && truthy (@nil ascii)) with false. cbv iota beta.
  change (-5 <? 1) with true. cbv iota.
  unfold _split_large_section. now rewrite split_loop_backwards.
Qed.

(* ================================================================== *)
(** * Properties: programs and their runs *)
(* ================================================================== *)

Section ProgramProperties.

Context {F : Type}.

Lemma run_bind {A B : Type} (cap : capability F) (p : prog F A)
    (f : A -> prog F B) :
  forall log,
    run cap (bind p f) log =
    match run cap p log with
    | (Ok a, log') => run cap (f a) log'
    | (Raise e, log') => (Raise e, log')
    | (Timeout, log') => (Timeout, log')
    end.
Proof.
  induction p as [r | req k IH | texts k IH]; intros log.
  - destruct r; reflexivity.
  - simpl. apply IH.
  - simpl. apply IH.
Qed.

Lemma run_try_except {A : Type} (cap : capability F) (p handler : prog F A) :
  forall log,
    run cap (try_except p handler) log =
    match run cap p log with
    | (Raise e, log') =>
        if is_Exception e then run cap handler log' else (Raise e, log')
    | other => other
    end.
Proof.
  induction p as [r | req k IH | texts k IH]; intros log.
  - destruct r as [a | e |]; simpl; [reflexivity | | reflexivity].
    destruct (is_Exception e); reflexivity.
  - simpl. apply IH.
  - simpl. apply IH.
Qed.

Lemma run_chat_complete (cap : capability F) (messages : list message)
    (model temperature : str) (log : list event) :
  run cap (chat_complete messages model temperature) log
  = (chat_response cap log (mkChat messages model temperature),
     log ++ [ChatCall (mkChat messages model temperature)]).
Proof. reflexivity. Qed.

(** A run only adds calls to the log. *)
Lemma run_log_extends {A : Type} (cap : capability F) (p : prog F A) :
  forall log, exists calls, snd (run cap p log) = log ++ calls.
Proof.
  induction p as [r | req k IH | texts k IH]; intros log; simpl.
  - exists []. now rewrite app_nil_r.
  - destruct (IH (chat_response cap log req) (log ++ [ChatCall req])) as [c E].
    exists (ChatCall req :: c). rewrite E. now rewrite <- app_assoc.
  - destruct (IH (embed_response cap log texts) (log ++ [EmbedCall texts]))
      as [c E].
    exists (EmbedCall texts :: c). rewrite E. now rewrite <- app_assoc.
Qed.

End ProgramProperties.

(* ================================================================== *)
(** * Properties: retrieval and simulation *)
(* ================================================================== *)

Lemma index_raises {A : Type} (l : list A) (i : Z) (e : exn) :
  index l i = Raise e -> e = IndexError.
Proof.
  unfold index. destruct (_ <? 0); [congruence|].
  destruct (nth_error l _); congruence.
Qed.

Lemma index_no_timeout {A : Type} (l : list A) (i : Z) : index l i <> Timeout.
Proof.
  unfold index. destruct (_ <? 0); [congruence|].
  destruct (nth_error l _); congruence.
Qed.

Lemma map_result_index_raises {A B : Type} (l : list A) (sel : list B)
    (key : B -> Z) :
  (forall e, map_result (fun s => index l (key s)) sel = Raise e ->
             e = IndexError)
  /\ map_result (fun s => index l (key s)) sel <> Timeout.
Proof.
  induction sel as [|s sel [IH1 IH2]]; simpl.
  - split; [discriminate | discriminate].
  - destruct (index l (key s)) as [a | e0 |] eqn:E.
    + destruct (map_result _ sel) as [bs | e1 |].
      * split; [discriminate | discriminate].
      * split; [|discriminate]. intros e H. injection H as <-. now apply IH1.
      * now contradiction IH2.
    + split; [|discriminate]. intros e H. injection H as <-.
      now apply index_raises in E.
    + now apply index_no_timeout in E.
Qed.

Section RetrievalProperties.

Context {F : Type} {float_ops : FloatOps F}.
Variable SIMULATE_SYSTEM_PROMPT : str.

(** Ranking raises nothing but [IndexError] and always returns. *)
Lemma rank_chunks_outcome (chunks : list str) (vectors : list (list F))
    (top_k : Z) :
  (forall e, rank_chunks chunks vectors top_k = Raise e -> e = IndexError)
  /\ rank_chunks chunks vectors top_k <> Timeout.
Proof.
  unfold rank_chunks.
  destruct (index vectors (-1)) as [q | e0 |] eqn:E; simpl.
  - match goal with
    | |- context [map_result ?f ?sel] =>
        destruct (map_result_index_raises chunks sel (fun s : Z * F => fst s))
          as [R T];
        destruct (map_result f sel) as [selected | e1 |] eqn:M
    end; simpl.
    + split; discriminate.
    + split; [|discriminate]. intros e H. injection H as <-. now apply R.
    + now contradiction T.
  - split; [|discriminate]. intros e H. injection H as <-.
    now apply index_raises in E.
  - now apply index_no_timeout in E.
Qed.

Lemma truthy_app_cons {A : Type} (l : list A) (a : A) : truthy (l ++ [a]) = true.
Proof. destruct l; reflexivity. Qed.

(** The run of the retrieval, by the outcome of the embedding call. *)
Lemma run_retrieve (cap : capability F) (log : list event)
    (chunks : list str) (query : str) (top_k : Z) :
  run cap (_vector_retrieve_relevant_chunks chunks query top_k) log =
  (match embed_response cap log (chunks ++ [query]) with
   | Ok vectors =>
       if negb (len vectors =? len (chunks ++ [query])) then Ok chunks
       else match rank_chunks chunks vectors top_k with
            | Ok selected => Ok selected
            | _ => Ok chunks
            end
   | Raise e => if is_Exception e then Ok chunks else Raise e
   | Timeout => Timeout
   end,
   log ++ [EmbedCall (chunks ++ [query])]).
Proof.
  unfold _vector_retrieve_relevant_chunks. rewrite run_try_except.
  rewrite run_bind. unfold embed_texts. rewrite truthy_app_cons.
  cbn [negb run].
  destruct (embed_response cap log (chunks ++ [query])) as [vectors | e |].
  - destruct (negb (len vectors =? len (chunks ++ [query]))); [reflexivity|].
    unfold lift. cbn [run].
    destruct (rank_chunks_outcome chunks vectors top_k) as [R T].
    destruct (rank_chunks chunks vectors top_k) as [sel | e |];
      [reflexivity | | now contradiction T].
    rewrite (R e eq_refl). reflexivity.
  - destruct (is_Exception e); reflexivity.
  - reflexivity.
Qed.

(* ------------------------------------------------------------------ *)
(** ** C6 *)

(** C6.  If the embedding call returns a number of vectors other than the
    number of inputs, or raises an exception of class [Exception], the
    retrieval returns the chunk list as it was given; and no run of the
    retrieval ends in an exception of class [Exception]. *)
Theorem retrieval_degrades_to_all_chunks (cap : capability F)
    (log : list event) (chunks : list str) (query : str) (top_k : Z) :
  let inputs := chunks ++ [query] in
  let outcome :=
    run cap (_vector_retrieve_relevant_chunks chunks query top_k) log in
  (forall vectors,
     embed_response cap log inputs = Ok vectors ->
     len vectors <> len inputs ->
     outcome = (Ok chunks, log ++ [EmbedCall inputs]))
  /\
  (forall e,
     embed_response cap log inputs = Raise e -> is_Exception e = true ->
     outcome = (Ok chunks, log ++ [EmbedCall inputs]))
  /\
  (forall e, fst outcome = Raise e -> is_Exception e = false).
Proof.
  intros inputs outcome. unfold outcome, inputs. rewrite run_retrieve.
  split; [|split].
  - intros vectors E N. rewrite E.
    apply Z.eqb_neq in N. now rewrite N.
  - intros e E X. now rewrite E, X.
  - intros e. cbn [fst].
    destruct (embed_response cap log (chunks ++ [query])) as [vectors | e0 |].
    + destruct (negb _); [discriminate|].
      destruct (rank_chunks chunks vectors top_k); discriminate.
    + destruct (is_Exception e0) eqn:X; [discriminate|].
      intros H; injection H as <-. exact X.
    + discriminate.
Qed.

(* ------------------------------------------------------------------ *)
(** ** C9 *)

(** C9.  On a scenario that is empty or all white space, [simulate_impact]
    is the bare return of the guidance string: for every document and every
    fuel no chunking is needed, and a run against any capability leaves the
    log of calls as it was. *)
Theorem simulate_impact_blank_scenario (fuel : nat)
    (document_text scenario : str) :
  forallb is_space scenario = true ->
  simulate_impact SIMULATE_SYSTEM_PROMPT fuel document_text scenario
  = Done (Ok SCENARIO_GUIDANCE)
  /\
  forall (cap : capability F) (log : list event),
    run cap (simulate_impact SIMULATE_SYSTEM_PROMPT fuel document_text scenario)
      log
    = (Ok SCENARIO_GUIDANCE, log).
Proof.
  intros H. unfold simulate_impact. rewrite (strip_whitespace _ H).
  split; [reflexivity | intros; reflexivity].
Qed.

End RetrievalProperties.

(* ================================================================== *)
(** * Properties: ranking *)
(* ================================================================== *)

Lemma enumerate_from_fst {A : Type} (l : list A) (i : Z) :
  Forall (fun p => i <= fst p < i + len l) (enumerate_from i l)
  /\ StronglySorted (fun a b => fst a < fst b) (enumerate_from i l).
Proof.
  revert i. induction l as [|a l IH]; intros i; cbn [enumerate_from].
  - split; constructor.
  - destruct (IH (i + 1)) as [Fa So]. rewrite len_cons.
    pose proof (len_nonneg l). split.
    + constructor; [cbn [fst]; lia|].
      eapply Forall_impl; [|exact Fa]. cbn beta. intros p Hp. lia.
    + constructor; [exact So|].
      eapply Forall_impl; [|exact Fa]. cbn beta. cbn [fst]. intros p Hp. lia.
Qed.

Lemma enumerate_from_length {A : Type} (l : list A) (i : Z) :
  length (enumerate_from i l) = length l.
Proof.
  revert i. induction l as [|a l IH]; intros i; simpl;
    [reflexivity | now rewrite IH].
Qed.

Lemma enumerate_from_snd {A : Type} (l : list A) (i : Z) :
  map snd (enumerate_from i l) = l.
Proof.
  revert i. induction l as [|a l IH]; intros i; simpl;
    [reflexivity | now rewrite IH].
Qed.

Lemma enumerate_from_map {A B : Type} (f : A -> B) (l : list A) (i : Z) :
  enumerate_from i (map f l)
  = map (fun p => (fst p, f (snd p))) (enumerate_from i l).
Proof.
  revert i. induction l as [|a l IH]; intros i; simpl; [reflexivity|].
  now rewrite IH.
Qed.

(** Looking the indices of an enumeration up gives the list back. *)
Lemma lookup_enumerate {A B : Type} (pre l : list A) (xs : list B) (d : A) :
  length xs = length l ->
  map (fun p => nth (Z.to_nat (fst p)) (pre ++ l) d)
      (enumerate_from (len pre) xs)
  = l.
Proof.
  revert pre l. induction xs as [|x xs IH]; intros pre l Hl.
  - destruct l; [reflexivity | discriminate].
  - destruct l as [|a l]; [discriminate|]. simpl in Hl. simpl. f_equal.
    + unfold len. rewrite Nat2Z.id. rewrite app_nth2, Nat.sub_diag by lia.
      reflexivity.
    + specialize (IH (pre ++ [a]) l ltac:(lia)).
      rewrite <- app_assoc, len_app in IH. simpl in IH.
      change (len [a]) with 1 in IH. exact IH.
Qed.

Lemma in_firstn {A : Type} (n : nat) (l : list A) (x : A) :
  In x (firstn n l) -> In x l.
Proof.
  intros H. rewrite <- (firstn_skipn n l). apply in_or_app. now left.
Qed.

Lemma index_in_range {A : Type} (l : list A) (i : Z) (d : A) :
  0 <= i < len l -> index l i = Ok (nth (Z.to_nat i) l d).
Proof.
  intros [H0 H1]. unfold index.
  destruct (i <? 0) eqn:Q; [apply Z.ltb_lt in Q; lia|]. rewrite Q.
  destruct (nth_error l (Z.to_nat i)) as [a|] eqn:E.
  - now rewrite (nth_error_nth _ _ d E).
  - apply nth_error_None in E. unfold len in H1. lia.
Qed.

Lemma map_result_index {A B : Type} (l : list A) (d : A) (key : B -> Z)
    (sel : list B) :
  Forall (fun s => 0 <= key s < len l) sel ->
  map_result (fun s => index l (key s)) sel
  = Ok (map (fun s => nth (Z.to_nat (key s)) l d) sel).
Proof.
  induction 1 as [|s sel Hs _ IH]; simpl; [reflexivity|].
  now rewrite (index_in_range l (key s) d Hs), IH.
Qed.

Lemma index_last {A : Type} (l : list A) (d : A) :
  l <> [] -> index l (-1) = Ok (last l d).
Proof.
  intros H. destruct (exists_last H) as (l' & a & ->).
  unfold index. cbn [Z.ltb Z.compare].
  rewrite len_app. change (len [a]) with 1.
  pose proof (len_nonneg l').
  destruct (len l' + 1 + -1 <? 0) eqn:Q; [apply Z.ltb_lt in Q; lia|].
  replace (Z.to_nat (len l' + 1 + -1)) with (length l') by (unfold len; lia).
  rewrite nth_error_app2, Nat.sub_diag by lia. simpl.
  now rewrite last_last.
Qed.

Lemma slice_to_removelast {A : Type} (l : list A) :
  slice_to l (-1) = removelast l.
Proof.
  unfold slice_to, clamp. cbn [Z.ltb Z.compare].
  destruct l as [|a l] using rev_ind; [reflexivity|].
  rewrite removelast_last, len_app. change (len [a]) with 1.
  pose proof (len_nonneg l).
  replace (Z.to_nat (Z.max 0 (len l + 1 + -1))) with (length l)
    by (unfold len; lia).
  rewrite firstn_app, Nat.sub_diag, firstn_all. simpl. apply app_nil_r.
Qed.

Lemma slice_to_firstn {A : Type} (l : list A) (k : Z) :
  0 <= k -> slice_to l k = firstn (Z.to_nat k) l.
Proof.
  intros Hk. unfold slice_to. rewrite (clamp_nonneg _ _ Hk (len_nonneg l)).
  destruct (Z.le_gt_cases k (len l)).
  - now rewrite Z.min_l.
  - rewrite Z.min_r by lia. unfold len in *. rewrite Nat2Z.id.
    rewrite firstn_all. symmetry. apply firstn_all2. lia.
Qed.

Section RankingProperties.

Context {F : Type} {float_ops : FloatOps F}.

Lemma insert_desc_perm (x : Z * F) (l : list (Z * F)) :
  Permutation (insert_desc x l) (x :: l).
Proof.
  induction l as [|y l IH]; simpl; [reflexivity|].
  destruct (fltb (snd x) (snd y)); [|reflexivity].
  rewrite IH. apply perm_swap.
Qed.

Lemma sorted_desc_perm (l : list (Z * F)) : Permutation (sorted_desc l) l.
Proof.
  induction l as [|x l IH]; simpl; [reflexivity|].
  rewrite insert_desc_perm. now constructor.
Qed.

Lemma insert_desc_descending (x : Z * F) (l : list (Z * F)) :
  comparable (map snd (x :: l)) ->
  descending l -> descending (insert_desc x l).
Proof.
  intros [Asym Ntr]. unfold descending.
  induction l as [|y l IH]; intros So; simpl.
  - constructor; constructor.
  - inversion So as [|? ? So' Fy]; subst.
    assert (Ix : In (snd x) (map snd (x :: y :: l))) by (left; reflexivity).
    assert (Iy : In (snd y) (map snd (x :: y :: l))) by (right; left; reflexivity).
    assert (Il : forall z, In z l -> In (snd z) (map snd (x :: y :: l))).
    { intros z Hz. right; right. now apply in_map. }
    destruct (fltb (snd x) (snd y)) eqn:E.
    + constructor.
      * apply IH; [| |exact So'].
        -- intros a b Ha Hb. apply Asym; simpl in *; tauto.
        -- intros a b c Ha Hb Hc. apply Ntr; simpl in *; tauto.
      * rewrite Forall_forall in *. intros z Hz.
        apply (Permutation_in _ (insert_desc_perm x l)) in Hz.
        destruct Hz as [<- | Hz]; [now apply Asym | now apply Fy].
    + constructor; [exact So|]. constructor; [exact E|].
      rewrite Forall_forall in *. intros z Hz.
      apply (Ntr _ (snd y)); auto.
Qed.

Lemma sorted_desc_descending (l : list (Z * F)) :
  comparable (map snd l) -> descending (sorted_desc l).
Proof.
  induction l as [|x l IH]; intros C; simpl.
  - constructor.
  - apply insert_desc_descending.
    + destruct C as [Asym Ntr]. split.
      * intros a b Ha Hb. apply Asym.
        -- eapply Permutation_in; [|exact Ha].
           apply Permutation_map. constructor. apply sorted_desc_perm.
        -- eapply Permutation_in; [|exact Hb].
           apply Permutation_map. constructor. apply sorted_desc_perm.
      * intros a b c Ha Hb Hc. apply Ntr;
          (eapply Permutation_in;
           [apply Permutation_map; constructor; apply sorted_desc_perm
           | assumption]).
    + apply IH. destruct C as [Asym Ntr]. split.
      * intros a b Ha Hb. apply Asym; now right.
      * intros a b c Ha Hb Hc. apply Ntr; now right.
Qed.

Lemma insert_desc_ties (x : Z * F) (l : list (Z * F)) :
  Forall (fun b => fst x < fst b) l ->
  ties_by_index l -> ties_by_index (insert_desc x l).
Proof.
  unfold ties_by_index. induction l as [|y l IH]; intros Fx So; simpl.
  - constructor; constructor.
  - inversion So as [|? ? So' Fy]; subst.
    inversion Fx as [|? ? Hxy Fx']; subst.
    destruct (fltb (snd x) (snd y)) eqn:E.
    + constructor; [now apply IH|].
      rewrite Forall_forall in *. intros z Hz.
      apply (Permutation_in _ (insert_desc_perm x l)) in Hz.
      destruct Hz as [<- | Hz]; [congruence | now apply Fy].
    + constructor; [exact So|].
      eapply Forall_impl; [|exact Fx]. auto.
Qed.

Lemma sorted_desc_ties (l : list (Z * F)) :
  StronglySorted (fun a b => fst a < fst b) l -> ties_by_index (sorted_desc l).
Proof.
  induction l as [|x l IH]; intros So; simpl.
  - constructor.
  - inversion So as [|? ? So' Fx]; subst.
    apply insert_desc_ties; [|now apply IH].
    rewrite Forall_forall in *. intros z Hz. apply Fx.
    eapply Permutation_in; [apply sorted_desc_perm | exact Hz].
Qed.

End RankingProperties.

Section RankedRetrieval.

Context {F : Type} {float_ops : FloatOps F}.

(** The value of the ranking once the vectors match the inputs. *)
Lemma rank_chunks_sorted (chunks : list str) (vectors : list (list F))
    (top_k : Z) :
  len vectors = len (chunks ++ [[]]) -> 1 <= top_k ->
  let scores :=
    map (fun v => _cosine_similarity v (last vectors [])) (removelast vectors) in
  rank_chunks chunks vectors top_k
  = Ok (map (fun s => nth (Z.to_nat (fst s)) chunks [])
          (firstn (Z.to_nat (Z.min top_k (len chunks)))
             (sorted_desc (enumerate scores)))).
Proof.
  intros Hl Hk scores. rewrite len_app in Hl. change (len [[]]) with 1 in Hl.
  pose proof (len_nonneg chunks) as Hc.
  assert (Hv : vectors <> []).
  { intros ->. rewrite len_nil in Hl. lia. }
  unfold rank_chunks. rewrite (index_last vectors [] Hv). cbn [bind_result].
  rewrite slice_to_removelast.
  assert (Lr : length (removelast vectors) = length chunks).
  { destruct (exists_last Hv) as (l' & a & ->).
    rewrite removelast_last. rewrite len_app in Hl.
    change (len [a]) with 1 in Hl. unfold len in Hl. lia. }
  assert (Es : map (fun iv : Z * list F =>
                      (fst iv, _cosine_similarity (snd iv) (last vectors [])))
                 (enumerate (removelast vectors))
               = enumerate scores).
  { unfold enumerate, scores. now rewrite enumerate_from_map. }
  rewrite Es. set (scored := sorted_desc (enumerate scores)).
  assert (Ls : length scored = length chunks).
  { unfold scored. rewrite (Permutation_length (sorted_desc_perm _)).
    unfold enumerate, scores.
    now rewrite enumerate_from_length, length_map. }
  assert (Lz : len scored = len chunks) by (unfold len; now rewrite Ls).
  rewrite Lz. rewrite slice_to_firstn by lia.
  set (k := Z.to_nat (Z.min top_k (len chunks))).
  rewrite (map_result_index chunks [] (fun s : Z * F => fst s)).
  - cbn [bind_result]. clearbody scored.
    destruct scored as [|s scored'].
    + rewrite firstn_nil. cbn [map truthy]. f_equal.
      now apply length_zero_iff_nil.
    + assert (Hk1 : k <> 0%nat).
      { unfold k, len. rewrite <- Ls. cbn [length]. lia. }
      destruct k; [congruence|]. reflexivity.
  - apply Forall_forall. intros s Hs.
    apply in_firstn in Hs as Hin.
    apply (Permutation_in _ (sorted_desc_perm _)) in Hin.
    destruct (enumerate_from_fst scores 0) as [Fa _].
    rewrite Forall_forall in Fa. apply Fa in Hin.
    unfold scores in Hin. unfold len in *. rewrite length_map, Lr in Hin. lia.
Qed.

(* ------------------------------------------------------------------ *)
(** ** C7 *)

(** C7, as the code has it.  When the embedding call returns as many vectors
    as inputs, [top_k] is at least 1 and the similarities compare like
    numbers, the retrieval returns the chunks of the first
    [min(top_k, number of chunks)] entries of [scored], the pairs of chunk
    index and cosine similarity to the query vector arranged so that no
    entry is below a later one and entries that tie keep the order of their
    indices.  When [top_k] is at least the number of chunks, all chunks are
    returned, rearranged. *)
Theorem retrieval_ranks_by_similarity (cap : capability F) (log : list event)
    (chunks : list str) (query : str) (top_k : Z) (vectors : list (list F)) :
  embed_response cap log (chunks ++ [query]) = Ok vectors ->
  len vectors = len (chunks ++ [query]) ->
  1 <= top_k ->
  let scores :=
    map (fun v => _cosine_similarity v (last vectors [])) (removelast vectors) in
  comparable scores ->
  exists scored : list (Z * F),
    Permutation scored (enumerate scores) /\
    descending scored /\
    ties_by_index scored /\
    let selected :=
      map (fun s => nth (Z.to_nat (fst s)) chunks [])
        (firstn (Z.to_nat (Z.min top_k (len chunks))) scored) in
    run cap (_vector_retrieve_relevant_chunks chunks query top_k) log
    = (Ok selected, log ++ [EmbedCall (chunks ++ [query])]) /\
    (len chunks <= top_k -> Permutation selected chunks).
Proof.
  intros E Hl Hk scores C.
  exists (sorted_desc (enumerate scores)).
  split; [apply sorted_desc_perm|].
  split.
  { apply sorted_desc_descending.
    unfold enumerate. now rewrite enumerate_from_snd. }
  split.
  { apply sorted_desc_ties. apply enumerate_from_fst. }
  intros selected. split.
  - rewrite run_retrieve, E.
    apply Z.eqb_eq in Hl as Hq. rewrite Hq. cbn [negb].
    assert (Hl' : len vectors = len (chunks ++ [[]])).
    { rewrite Hl, !len_app. reflexivity. }
    now rewrite (rank_chunks_sorted chunks vectors top_k Hl' Hk).
  - intros Hall. unfold selected.
    assert (Lsc : length scores = length chunks).
    { unfold scores. rewrite length_map.
      rewrite len_app in Hl. change (len [query]) with 1 in Hl.
      destruct vectors as [|v0 vs _] using rev_ind.
      - rewrite len_nil in Hl. pose proof (len_nonneg chunks). lia.
      - rewrite removelast_last. rewrite len_app in Hl.
        change (len [v0]) with 1 in Hl. unfold len in Hl. lia. }
    assert (Ls : length (sorted_desc (enumerate scores)) = length chunks).
    { rewrite (Permutation_length (sorted_desc_perm _)).
      unfold enumerate. now rewrite enumerate_from_length. }
    rewrite firstn_all2 by (unfold len in *; lia).
    rewrite (Permutation_map _ (sorted_desc_perm (enumerate scores))).
    pose proof (lookup_enumerate [] chunks scores [] Lsc) as L.
    cbn [app] in L. change (len []) with 0 in L.
    unfold enumerate. rewrite L. reflexivity.
Qed.

End RankedRetrieval.

(* ================================================================== *)
(** * Properties: slicing the findings *)
(* ================================================================== *)

Lemma firstn_plus {A : Type} (m k : nat) (l : list A) :
  firstn (m + k) l = firstn m l ++ firstn k (skipn m l).
Proof.
  revert l. induction m as [|m IH]; intros l; simpl; [reflexivity|].
  destruct l as [|a l]; simpl.
  - now rewrite firstn_nil.
  - now rewrite IH.
Qed.

(** Two adjoining slices make one. *)
Lemma slice_app {A : Type} (l : list A) (a b c : Z) :
  0 <= a <= b -> b <= c -> slice l a b ++ slice l b c = slice l a c.
Proof.
  intros Hab Hbc. unfold slice. pose proof (len_nonneg l) as Hn.
  rewrite !clamp_nonneg by lia.
  set (a' := Z.min a (len l)). set (b' := Z.min b (len l)).
  set (c' := Z.min c (len l)).
  assert (0 <= a' <= b' /\ b' <= c') by (unfold a', b', c'; lia).
  clearbody a' b' c'.
  replace (Z.to_nat (c' - a'))
    with (Z.to_nat (b' - a') + Z.to_nat (c' - b'))%nat by lia.
  rewrite firstn_plus, skipn_skipn.
  replace (Z.to_nat (b' - a') + Z.to_nat a')%nat with (Z.to_nat b') by lia.
  reflexivity.
Qed.

Lemma slice_min {A : Type} (l : list A) (a b : Z) :
  0 <= b -> slice l a (Z.min b (len l)) = slice l a b.
Proof.
  intros Hb. unfold slice. pose proof (len_nonneg l) as Hn.
  rewrite (clamp_nonneg _ (Z.min b (len l))) by lia.
  rewrite (clamp_nonneg _ b) by lia.
  now rewrite <- Z.min_assoc, Z.min_id.
Qed.

Lemma slice_all {A : Type} (l : list A) (c : Z) :
  len l <= c -> slice l 0 c = l.
Proof.
  intros Hc. unfold slice. pose proof (len_nonneg l) as Hn.
  rewrite !clamp_nonneg by lia.
  rewrite (Z.min_l 0), (Z.min_r c) by lia.
  simpl skipn. rewrite Z.sub_0_r. unfold len. rewrite Nat2Z.id.
  apply firstn_all.
Qed.

Lemma ceil_div_spec (n m : Z) :
  0 < m -> n <= ceil_div n m * m < n + m.
Proof.
  intros Hm. unfold ceil_div.
  pose proof (Z.div_mod (n + m - 1) m ltac:(lia)).
  pose proof (Z.mod_pos_bound (n + m - 1) m Hm). nia.
Qed.

Section SlicingProperties.

Context {F : Type}.

Lemma chunk_clauses_slice (clauses : list (json F)) (per_chunk i : Z) :
  chunk_clauses clauses per_chunk i
  = slice clauses (i * per_chunk) (Z.min ((i + 1) * per_chunk) (len clauses)).
Proof.
  unfold chunk_clauses. f_equal. f_equal. lia.
Qed.

(** The slices of consecutive chunks, put end to end. *)
Lemma chunk_clauses_concat (clauses : list (json F)) (per_chunk : Z)
    {A : Type} (items : list A) (i : Z) :
  0 <= per_chunk -> 0 <= i ->
  concat (map (fun p => chunk_clauses clauses per_chunk (fst p))
            (enumerate_from i items))
  = slice clauses (i * per_chunk) ((i + len items) * per_chunk).
Proof.
  intros Hp. revert i. induction items as [|x items IH]; intros i Hi.
  - cbn [enumerate_from map concat]. rewrite len_nil, Z.add_0_r.
    unfold slice. now rewrite Z.sub_diag.
  - cbn [enumerate_from map concat fst]. rewrite IH by lia.
    rewrite chunk_clauses_slice, slice_min by nia.
    rewrite len_cons. pose proof (len_nonneg items).
    rewrite slice_app by nia. f_equal. lia.
Qed.

End SlicingProperties.

(* ================================================================== *)
(** * Properties: the analysis pipeline *)
(* ================================================================== *)

Lemma str_eqb_refl (s : str) : str_eqb s s = true.
Proof.
  induction s as [|c s IH]; simpl; [reflexivity|].
  now rewrite ascii_eqb_refl, IH.
Qed.

Section AnalysisProperties.

Context {F : Type} {float_ops : FloatOps F}.
Variable json_loads : str -> option (json F).
Variable py_repr : json F -> str.
Variable ANALYZE_SYSTEM_PROMPT : str.
Variable SYNTHESIS_SYSTEM_PROMPT : str.
Variable SUMMARY_SYSTEM_PROMPT : str.

Local Open Scope prog_scope.

Lemma run_bind_ok {A B : Type} (cap : capability F) (p : prog F A)
    (f : A -> prog F B) (log log' : list event) (b : B) :
  run cap (bind p f) log = (Ok b, log') ->
  exists a log1,
    run cap p log = (Ok a, log1) /\ run cap (f a) log1 = (Ok b, log').
Proof.
  rewrite run_bind. destruct (run cap p log) as [[a | e |] log1];
    [| discriminate | discriminate].
  intros H. now exists a, log1.
Qed.

Lemma dict_get_set (d : list (str * json F)) (key : str) (v : json F) :
  dict_get (dict_set d key v) key = Some v.
Proof.
  induction d as [|[k w] d IH]; simpl.
  - now rewrite str_eqb_refl.
  - destruct (str_eqb k key) eqn:E; simpl; now rewrite E.
Qed.

Lemma run_summaries_loop (cap : capability F) (clauses : list (json F))
    (role : str) (per_chunk : Z) (chunks : list str) :
  forall (i : Z) (summaries : list (json F)) (log : list event)
         (out : list (json F)) (log' : list event),
    run cap (summaries_loop py_repr SUMMARY_SYSTEM_PROMPT clauses role
               per_chunk i chunks summaries) log = (Ok out, log') ->
    exists requests outputs,
      map_result (fun p => summary_request py_repr SUMMARY_SYSTEM_PROMPT role clauses per_chunk (fst p) (snd p))
        (enumerate_from i chunks) = Ok requests /\
      length outputs = length chunks /\
      out = summaries
            ++ map (fun p => chunk_summary (fst p) (snd p))
                 (enumerate_from i outputs) /\
      log' = log ++ map ChatCall requests.
Proof.
  induction chunks as [|chunk rest IH]; intros i summaries log out log' H.
  - cbn in H. injection H as <- <-. exists [], [].
    cbn. now rewrite !app_nil_r.
  - cbn [summaries_loop] in H. apply run_bind_ok in H as (lines & log1 & H1 & H).
    unfold lift in H1. cbn [run] in H1. injection H1 as E1 <-.
    apply run_bind_ok in H as (output & log2 & H2 & H).
    rewrite run_chat_complete in H2. injection H2 as E2 <-.
    apply IH in H as (requests & outputs & Hr & Hl & Ho & Hg).
    exists (mkChat (summary_messages SUMMARY_SYSTEM_PROMPT role i chunk
                      (join NL lines)) DEFAULT_MODEL DEFAULT_TEMPERATURE
            :: requests), (output :: outputs).
    cbn [enumerate_from map_result fst snd map length].
    unfold summary_request at 1. rewrite E1. cbn [bind_result]. rewrite Hr.
    repeat split.
    + now rewrite Hl.
    + rewrite Ho. now rewrite <- app_assoc.
    + rewrite Hg. now rewrite <- app_assoc.
Qed.

(* ------------------------------------------------------------------ *)
(** ** C4 *)

(** C4.  When the extraction calls of all chunks complete and the findings,
    flattened, are empty, [analyze_contract] raises the [RuntimeError] whose
    message says that no clauses were identified and that the document may
    be too short or in an unsupported format; no further call is made; and
    no capability failure is that error. *)
Theorem analyze_contract_empty_result (cap : capability F) (log : list event)
    (fuel : nat) (document_text role : str) (chunks : list str)
    (chunk_results : list (json F)) (log' : list event) :
  chunk_text fuel (convert_pdf_to_markdown document_text)
    default_chunk_size default_overlap = Ok chunks ->
  run cap
    (gather (map (fun chunk =>
                    _analyze_chunk json_loads ANALYZE_SYSTEM_PROMPT chunk role)
               chunks)) log
  = (Ok chunk_results, log') ->
  extend_all [] chunk_results = Ok [] ->
  run cap
    (analyze_contract json_loads py_repr ANALYZE_SYSTEM_PROMPT
       SYNTHESIS_SYSTEM_PROMPT SUMMARY_SYSTEM_PROMPT fuel document_text role)
    log
  = (Raise (RuntimeError EMPTY_RESULT_MESSAGE), log')
  /\ contains (lit "too short") EMPTY_RESULT_MESSAGE = true
  /\ contains (lit "unsupported format") EMPTY_RESULT_MESSAGE = true
  /\ forall e, transport_failure e -> e <> RuntimeError EMPTY_RESULT_MESSAGE.
Proof.
  intros Hc Hg He. split; [|split; [reflexivity | split; [reflexivity|]]].
  - unfold analyze_contract. rewrite Hc. unfold lift at 1.
    cbn [bind]. unfold analyze_chunks. rewrite run_bind, Hg.
    rewrite He. reflexivity.
  - intros e [(status_code & text & ->) | [-> | (name & ->)]];
      discriminate.
Qed.

Lemma map_result_Forall2 {A B : Type} (f : A -> result B) (l : list A) :
  forall bs, map_result f l = Ok bs -> Forall2 (fun a b => f a = Ok b) l bs.
Proof.
  induction l as [|a l IH]; intros bs; cbn [map_result].
  - intros H. injection H as <-. constructor.
  - destruct (f a) as [b | e |] eqn:E; try discriminate.
    destruct (map_result f l) as [bs' | e |]; try discriminate.
    intros H. injection H as <-. constructor; [exact E | now apply IH].
Qed.

(** What a line of the clause context is made of. *)
Lemma clause_line_parts (c : json F) (line : str) :
  clause_line py_repr c = Ok line ->
  exists text head risk,
    json_get c (lit "clauseText") (JStr []) = Ok text /\
    json_prefix text 100 = Ok head /\
    json_get c (lit "riskLevel") (JStr []) = Ok risk /\
    line = lit "- " ++ fmt py_repr head ++ lit "... (Risk: "
           ++ fmt py_repr risk ++ lit ")".
Proof.
  unfold clause_line.
  destruct (json_get c (lit "clauseText") (JStr [])) as [text | e |] eqn:Et;
    cbn [bind_result]; try discriminate.
  destruct (json_prefix text 100) as [head | e |] eqn:Eh; cbn [bind_result];
    try discriminate.
  destruct (json_get c (lit "riskLevel") (JStr [])) as [risk | e |] eqn:Er;
    cbn [bind_result]; try discriminate.
  intros H. injection H as <-. exists text, head, risk.
  split; [reflexivity | split; [exact Eh | split; [reflexivity | reflexivity]]].
Qed.

(** The calls of the loop of [_create_chunk_summaries], one by one: the
    lines each request is built from, and the answer each summary holds. *)
Lemma run_summaries_loop_calls (cap : capability F) (clauses : list (json F))
    (role : str) (per_chunk : Z) (chunks : list str) :
  forall (i : Z) (summaries : list (json F)) (log : list event)
         (out : list (json F)) (log' : list event),
    run cap (summaries_loop py_repr SUMMARY_SYSTEM_PROMPT clauses role
               per_chunk i chunks summaries) log = (Ok out, log') ->
    exists requests outputs,
      length requests = length chunks /\
      length outputs = length chunks /\
      out = summaries
            ++ map (fun p => chunk_summary (fst p) (snd p))
                 (enumerate_from i outputs) /\
      log' = log ++ map ChatCall requests /\
      forall (k : nat) (chunk : str),
        nth_error chunks k = Some chunk ->
        exists lines output,
          map_result (clause_line py_repr)
            (chunk_clauses clauses per_chunk (i + Z.of_nat k)) = Ok lines /\
          nth_error requests k
          = Some (mkChat (summary_messages SUMMARY_SYSTEM_PROMPT role
                            (i + Z.of_nat k) chunk (join NL lines))
                    DEFAULT_MODEL DEFAULT_TEMPERATURE) /\
          nth_error outputs k = Some output /\
          chat_response cap (log ++ map ChatCall (firstn k requests))
            (mkChat (summary_messages SUMMARY_SYSTEM_PROMPT role
                       (i + Z.of_nat k) chunk (join NL lines))
               DEFAULT_MODEL DEFAULT_TEMPERATURE)
          = Ok output.
Proof.
  induction chunks as [|chunk rest IH]; intros i summaries log out log' H.
  - cbn in H. injection H as <- <-. exists [], [].
    cbn. rewrite !app_nil_r. repeat split; try reflexivity.
    intros k chunk Hk. destruct k; discriminate.
  - cbn [summaries_loop] in H. apply run_bind_ok in H as (lines & log1 & H1 & H).
    unfold lift in H1. cbn [run] in H1. injection H1 as E1 <-.
    apply run_bind_ok in H as (output & log2 & H2 & H).
    rewrite run_chat_complete in H2. injection H2 as E2 <-.
    apply IH in H as (requests & outputs & Lr & Lo & Ho & Hg & Hk).
    exists (mkChat (summary_messages SUMMARY_SYSTEM_PROMPT role i chunk
                      (join NL lines)) DEFAULT_MODEL DEFAULT_TEMPERATURE
            :: requests), (output :: outputs).
    split; [cbn [length]; now rewrite Lr|].
    split; [cbn [length]; now rewrite Lo|].
    split; [rewrite Ho; cbn [enumerate_from map fst snd]; now rewrite <- app_assoc|].
    split; [rewrite Hg; cbn [map]; now rewrite <- app_assoc|].
    intros k c Hc. destruct k as [|k].
    + cbn [nth_error] in Hc. injection Hc as <-.
      exists lines, output. cbn [nth_error firstn map].
      rewrite Z.add_0_r, app_nil_r. auto.
    + cbn [nth_error] in Hc.
      destruct (Hk k c Hc) as (lines' & output' & M & Nr & No & Ch).
      replace (i + 1 + Z.of_nat k) with (i + Z.of_nat (S k)) in * by lia.
      exists lines', output'. cbn [nth_error firstn map].
      rewrite <- app_assoc in Ch. auto.
Qed.

(* ------------------------------------------------------------------ *)
(** ** C8 *)

(** C8.  A run of [_create_chunk_summaries] that returns gives one summary
    per chunk, the summary of chunk [k] (counted from 0) being
    [{chunkIndex: k + 1, summary: answer.strip()}] for the answer of the
    [k]-th chat call.  It makes one chat call per chunk, in order.  The call
    for chunk [k] carries the system prompt and a user message made of the
    role, the number [k + 1], the first 500 characters of the chunk and one
    line per finding of the slice
    [clauses[k * per_chunk : min((k + 1) * per_chunk, total)]], in order,
    each line holding the first 100 characters of the finding's
    [clauseText] and its [riskLevel]; here
    [per_chunk = ceil(total / number of chunks)], and these slices, end to
    end, are the findings.  The report [analyze_contract] returns holds under
    [chunkSummaries] a list as long as the list of chunks. *)
Theorem chunk_summaries_one_per_chunk (cap : capability F) (log : list event)
    (chunks : list str) (clauses : list (json F)) (role : str)
    (summaries : list (json F)) (log' : list event) :
  run cap (_create_chunk_summaries py_repr SUMMARY_SYSTEM_PROMPT
             chunks clauses role) log
  = (Ok summaries, log') ->
  let per_chunk := per_chunk_of chunks clauses in
  len summaries = len chunks
  /\ (exists requests outputs,
        length requests = length chunks /\
        length outputs = length chunks /\
        log' = log ++ map ChatCall requests /\
        summaries
        = map (fun p => JDict [ (lit "chunkIndex", JInt (fst p + 1));
                                (lit "summary", JStr (strip (snd p))) ])
            (enumerate outputs) /\
        forall (k : nat) (chunk : str),
          nth_error chunks k = Some chunk ->
          exists lines request output,
            Forall2
              (fun c line =>
                 exists text head risk,
                   json_get c (lit "clauseText") (JStr []) = Ok text /\
                   json_prefix text 100 = Ok head /\
                   json_get c (lit "riskLevel") (JStr []) = Ok risk /\
                   line = lit "- " ++ fmt py_repr head ++ lit "... (Risk: "
                          ++ fmt py_repr risk ++ lit ")")
              (slice clauses (Z.of_nat k * per_chunk)
                 (Z.min ((Z.of_nat k + 1) * per_chunk) (len clauses)))
              lines /\
            request
            = mkChat
                [ mkMessage (lit "system") SUMMARY_SYSTEM_PROMPT;
                  mkMessage (lit "user")
                    (lit "The user's role is: " ++ role
                     ++ lit ". Summarize what this chunk covers." ++ [LF; LF]
                     ++ lit "CHUNK " ++ decimal (Z.of_nat k + 1)
                     ++ lit " CONTENT:" ++ [LF]
                     ++ slice_to chunk 500 ++ lit "..." ++ [LF; LF]
                     ++ lit "CLAUSES IN THIS CHUNK:" ++ [LF]
                     ++ join [LF] lines ++ [LF; LF]
                     ++ lit "Provide a simple summary of what this chunk covers.") ]
                (lit "llama-3.3-70b-versatile") (lit "0.2") /\
            nth_error requests k = Some request /\
            nth_error outputs k = Some output /\
            chat_response cap (log ++ map ChatCall (firstn k requests)) request
            = Ok output)
  /\ (chunks <> [] ->
      len clauses <= per_chunk * len chunks < len clauses + len chunks)
  /\ (chunks <> [] ->
      concat (map (fun p =>
                     slice clauses (fst p * per_chunk)
                       (Z.min ((fst p + 1) * per_chunk) (len clauses)))
                (enumerate chunks)) = clauses)
  /\ (forall fuel document_text report log0 log1,
        run cap
          (analyze_contract json_loads py_repr ANALYZE_SYSTEM_PROMPT
             SYNTHESIS_SYSTEM_PROMPT SUMMARY_SYSTEM_PROMPT
             fuel document_text role) log0
        = (Ok report, log1) ->
        exists document_chunks chunk_summaries,
          chunk_text fuel (convert_pdf_to_markdown document_text)
            default_chunk_size default_overlap = Ok document_chunks /\
          json_get report (lit "chunkSummaries") JNull
          = Ok (JList chunk_summaries) /\
          len chunk_summaries = len document_chunks).
Proof.
  intros H per_chunk. unfold _create_chunk_summaries in H. fold per_chunk in H.
  apply run_summaries_loop_calls in H
    as (requests & outputs & Lr & Lo & Ho & Hg & Hk).
  cbn [app] in Ho.
  assert (Hper : chunks <> [] ->
                 len clauses <= per_chunk * len chunks < len clauses + len chunks).
  { intros Hne. unfold per_chunk, per_chunk_of.
    destruct chunks as [|c cs]; [congruence|]. cbn [truthy].
    apply ceil_div_spec. rewrite len_cons. pose proof (len_nonneg cs). lia. }
  split; [|split; [|split; [|split]]].
  - rewrite Ho. unfold len. rewrite length_map, enumerate_from_length.
    now rewrite Lo.
  - exists requests, outputs.
    split; [exact Lr | split; [exact Lo | split; [exact Hg | split; [exact Ho|]]]].
    intros k chunk Hc.
    destruct (Hk k chunk Hc) as (lines & output & M & Nr & No & Ch).
    rewrite Z.add_0_l in M, Nr, Ch. rewrite chunk_clauses_slice in M.
    exists lines, (mkChat (summary_messages SUMMARY_SYSTEM_PROMPT role
                             (Z.of_nat k) chunk (join NL lines))
                     DEFAULT_MODEL DEFAULT_TEMPERATURE), output.
    split; [|split; [reflexivity | split; [exact Nr | split; [exact No | exact Ch]]]].
    apply map_result_Forall2 in M.
    eapply Forall2_impl; [|exact M]. cbn beta. intros c line Hl.
    now apply clause_line_parts.
  - exact Hper.
  - intros Hne. specialize (Hper Hne). unfold enumerate.
    pose proof (len_nonneg clauses). pose proof (len_nonneg chunks).
    assert (0 < len chunks).
    { destruct chunks; [congruence|]. rewrite len_cons.
      pose proof (len_nonneg chunks). lia. }
    transitivity (concat (map (fun p => chunk_clauses clauses per_chunk (fst p))
                            (enumerate_from 0 chunks))).
    { f_equal. apply map_ext. intros p. symmetry. apply chunk_clauses_slice. }
    rewrite chunk_clauses_concat by nia.
    rewrite Z.mul_0_l. apply slice_all. nia.
  - clear. intros fuel document_text report log0 log1 H.
    unfold analyze_contract in H.
    apply run_bind_ok in H as (document_chunks & l1 & H1 & H).
    unfold lift in H1. cbn [run] in H1. injection H1 as E1 <-.
    unfold analyze_chunks in H.
    apply run_bind_ok in H as (chunk_results & l2 & _ & H).
    apply run_bind_ok in H as (all_clauses & l3 & _ & H).
    destruct (negb (truthy all_clauses)); [discriminate|].
    apply run_bind_ok in H as (chunk_summaries & l4 & H4 & H).
    apply run_bind_ok in H as (final_report & l5 & _ & H).
    unfold lift in H. cbn [run] in H. injection H as Hm <-.
    unfold _create_chunk_summaries in H4.
    apply run_summaries_loop in H4 as (requests & outputs & _ & Hl & Ho & _).
    exists document_chunks, chunk_summaries. split; [exact E1|]. split.
    + unfold merge_report in Hm. destruct final_report; try discriminate.
      injection Hm as <-. cbn [json_get]. now rewrite dict_get_set.
    + rewrite Ho. cbn [app]. unfold len.
      rewrite length_map, enumerate_from_length. now rewrite Hl.
Qed.

End AnalysisProperties.

(* ================================================================== *)
(** * Concrete runs *)
(* ================================================================== *)

Lemma Z_comparable (scores : list Z) : comparable (float_ops := Z_ops) scores.
Proof.
  split; cbn [fltb Z_ops].
  - intros x y _ _ H. apply Z.ltb_lt in H. apply Z.ltb_ge. lia.
  - intros x y z _ _ _ H1 H2. apply Z.ltb_ge in H1, H2. apply Z.ltb_ge. lia.
Qed.

Lemma retrieval_ranks_by_similarity_witness :
  embed_response (fixed_capability three_chunk_vectors []) []
    (three_chunks ++ [lit "q"]) = Ok three_chunk_vectors /\
  len three_chunk_vectors = len (three_chunks ++ [lit "q"]) /\
  1 <= 6 /\
  exists scored : list (Z * Z),
    Permutation scored [(0, 0); (1, 1); (2, 1)] /\
    descending (float_ops := Z_ops) scored /\
    ties_by_index (float_ops := Z_ops) scored /\
    run (fixed_capability three_chunk_vectors [])
      (_vector_retrieve_relevant_chunks (float_ops := Z_ops)
         three_chunks (lit "q") 6) []
    = (Ok (map (fun s => nth (Z.to_nat (fst s)) three_chunks [])
             (firstn 3 scored)),
       [EmbedCall (three_chunks ++ [lit "q"])]) /\
    (len three_chunks <= 6 ->
     Permutation
       (map (fun s => nth (Z.to_nat (fst s)) three_chunks []) (firstn 3 scored))
       three_chunks).
Proof.
  split; [reflexivity | split; [reflexivity | split; [lia|]]].
  exact (retrieval_ranks_by_similarity (float_ops := Z_ops)
           (fixed_capability three_chunk_vectors []) []
           three_chunks (lit "q") 6 three_chunk_vectors
           eq_refl eq_refl ltac:(lia) (Z_comparable _)).
Defined.

(** The three chunks come back ranked: the two that tie at the top in the
    order of their indices, the orthogonal one last. *)
Example retrieve_three_chunks_top_six :
  run (fixed_capability three_chunk_vectors [])
    (_vector_retrieve_relevant_chunks (float_ops := Z_ops)
       three_chunks (lit "q") 6) []
  = (Ok [lit "b"; lit "c"; lit "a"], [EmbedCall (three_chunks ++ [lit "q"])]).
Proof. reflexivity. Qed.

(** C7 as stated fails at [top_k = 0]: the selection of the top
    [min(0, 3) = 0] chunks is empty, and the code then returns all chunks
    in their original order, the least similar first. *)
Lemma retrieval_top_k_zero_counterexample :
  embed_response (fixed_capability three_chunk_vectors []) []
    (three_chunks ++ [lit "q"]) = Ok three_chunk_vectors /\
  len three_chunk_vectors = len (three_chunks ++ [lit "q"]) /\
  map (fun v => _cosine_similarity (float_ops := Z_ops) v
                  (last three_chunk_vectors []))
    (removelast three_chunk_vectors) = [0; 1; 1] /\
  top_ranked three_chunks [0; 1; 1] 0 = [] /\
  run (fixed_capability three_chunk_vectors [])
    (_vector_retrieve_relevant_chunks (float_ops := Z_ops)
       three_chunks (lit "q") 0) []
  = (Ok [lit "a"; lit "b"; lit "c"], [EmbedCall (three_chunks ++ [lit "q"])]).
Proof. repeat split. Qed.

(** One vector for four inputs: the chunks come back as they were. *)
Example retrieve_on_vector_count_mismatch :
  run (fixed_capability [[1; 0]] [])
    (_vector_retrieve_relevant_chunks (float_ops := Z_ops)
       three_chunks (lit "q") 6) []
  = (Ok three_chunks, [EmbedCall (three_chunks ++ [lit "q"])]).
Proof. reflexivity. Qed.

(** The embedding call fails: the chunks come back as they were. *)
Example retrieve_on_transport_failure :
  run failing_capability
    (_vector_retrieve_relevant_chunks (float_ops := Z_ops)
       three_chunks (lit "q") 6) []
  = (Ok three_chunks, [EmbedCall (three_chunks ++ [lit "q"])]).
Proof. reflexivity. Qed.

Lemma simulate_impact_blank_scenario_witness :
  forallb is_space [SP; TAB; LF] = true /\
  simulate_impact (float_ops := Z_ops) (lit "simulate") 0
    (lit "The tenant pays rent monthly.") [SP; TAB; LF]
  = Done (Ok SCENARIO_GUIDANCE) /\
  forall (cap : capability Z) (log : list event),
    run cap
      (simulate_impact (float_ops := Z_ops) (lit "simulate") 0
         (lit "The tenant pays rent monthly.") [SP; TAB; LF]) log
    = (Ok SCENARIO_GUIDANCE, log).
Proof.
  split; [reflexivity|].
  exact (simulate_impact_blank_scenario (float_ops := Z_ops) (lit "simulate") 0
           (lit "The tenant pays rent monthly.") [SP; TAB; LF] eq_refl).
Defined.

Lemma analyze_contract_empty_result_witness :
  chunk_text 0 (convert_pdf_to_markdown short_lease)
    default_chunk_size default_overlap = Ok [short_lease_markdown] /\
  run (fixed_capability [] (lit "I found nothing."))
    (gather (map (fun chunk =>
                    _analyze_chunk (float_ops := Z_ops) no_json (lit "analyze")
                      chunk (lit "tenant"))
               [short_lease_markdown])) []
  = (Ok [JList []],
     [ChatCall (mkChat (analyze_messages (lit "analyze") short_lease_markdown
                          (lit "tenant"))
                  DEFAULT_MODEL DEFAULT_TEMPERATURE)]) /\
  extend_all [] [@JList Z []] = Ok [] /\
  run (fixed_capability [] (lit "I found nothing."))
    (analyze_contract (float_ops := Z_ops) no_json (fun _ => [])
       (lit "analyze") (lit "synthesize") (lit "summarize")
       0 short_lease (lit "tenant")) []
  = (Raise (RuntimeError EMPTY_RESULT_MESSAGE),
     [ChatCall (mkChat (analyze_messages (lit "analyze") short_lease_markdown
                          (lit "tenant"))
                  DEFAULT_MODEL DEFAULT_TEMPERATURE)]).
Proof.
  split; [reflexivity | split; [reflexivity | split; [reflexivity|]]].
  exact (proj1 (analyze_contract_empty_result (float_ops := Z_ops)
                  no_json (fun _ => [])
                  (lit "analyze") (lit "synthesize") (lit "summarize")
                  (fixed_capability [] (lit "I found nothing.")) [] 0
                  short_lease (lit "tenant") [short_lease_markdown]
                  [JList []] _ eq_refl eq_refl eq_refl)).
Defined.

Lemma chunk_summaries_one_per_chunk_witness :
  run (fixed_capability [] (lit " About rent. "))
    (_create_chunk_summaries (fun _ => []) (lit "summarize")
       two_chunks three_findings (lit "tenant")) []
  = (Ok two_summaries, two_summary_calls) /\
  len two_summaries = len two_chunks /\
  per_chunk_of two_chunks three_findings = 2 /\
  concat (map (fun p =>
                 slice three_findings (fst p * 2)
                   (Z.min ((fst p + 1) * 2) (len three_findings)))
            (enumerate two_chunks)) = three_findings.
Proof.
  split; [reflexivity|].
  pose proof (chunk_summaries_one_per_chunk (float_ops := Z_ops)
                no_json (fun _ => [])
                (lit "analyze") (lit "synthesize") (lit "summarize")
                (fixed_capability [] (lit " About rent. ")) []
                two_chunks three_findings (lit "tenant")
                two_summaries two_summary_calls eq_refl) as H.
  cbv zeta in H. destruct H as (H1 & _ & _ & H4 & _).
  split; [exact H1 | split; [reflexivity|]].
  apply H4. discriminate.
Defined.

(* ================================================================== *)
(** * Further properties: stripping *)
(* ================================================================== *)

Lemma drop_while_forall {A : Type} (P : A -> Prop) (p : A -> bool) (s : list A) :
  Forall P s -> Forall P (drop_while p s).
Proof.
  induction 1 as [|c s Hc Hs IH]; simpl; [constructor|].
  destruct (p c); [exact IH | now constructor].
Qed.

Lemma drop_while_nil {A : Type} (p : A -> bool) (s : list A) :
  drop_while p s = [] -> forallb p s = true.
Proof.
  induction s as [|c s IH]; simpl; [reflexivity|].
  destruct (p c); [exact IH | discriminate].
Qed.

Lemma strip_forall (P : ascii -> Prop) (s : str) :
  Forall P s -> Forall P (strip s).
Proof.
  intros H. unfold strip, rstrip, lstrip.
  apply Forall_rev, drop_while_forall, Forall_rev, drop_while_forall, H.
Qed.

Lemma strip_no_outer_space (s : str) : no_outer_space (strip s).
Proof.
  split; [apply strip_trimmed|].
  unfold strip, rstrip. rewrite rev_involutive. unfold trimmed.
  destruct (drop_while is_space (rev (lstrip s))) as [|c r] eqn:E; [exact I|].
  eapply drop_while_head. exact E.
Qed.

Lemma trimmed_lstrip (s : str) : trimmed s -> lstrip s = s.
Proof.
  unfold lstrip. destruct s as [|c s]; simpl; [reflexivity|].
  now intros ->.
Qed.

(** Stripping leaves a string without outer white space as it is. *)
Lemma strip_fixed (s : str) : no_outer_space s -> strip s = s.
Proof.
  intros [H1 H2]. unfold strip. rewrite (trimmed_lstrip s H1).
  unfold rstrip. fold (lstrip (rev s)). rewrite (trimmed_lstrip _ H2).
  apply rev_involutive.
Qed.

(** The result of stripping is empty only on white space. *)
Lemma strip_nil (s : str) : strip s = [] -> forallb is_space s = true.
Proof.
  unfold strip. intros H.
  destruct (lstrip s) as [|c r] eqn:E.
  - now apply drop_while_nil.
  - unfold lstrip in E. pose proof (drop_while_head _ _ _ _ E) as Hc.
    destruct (rstrip_keeps_head c r Hc) as [t Et]. congruence.
Qed.

Lemma forallb_app_true {A : Type} (p : A -> bool) (a b : list A) :
  forallb p (a ++ b) = true -> forallb p a = true /\ forallb p b = true.
Proof. rewrite forallb_app. apply andb_prop. Qed.

(** A string that holds a stripped non-empty part strips to a non-empty
    string. *)
Lemma strip_around_nonempty (a x b : str) :
  x <> [] -> trimmed x -> strip (a ++ x ++ b) <> [].
Proof.
  intros Hx Ht E. apply strip_nil in E.
  apply forallb_app_true in E as [_ E]. apply forallb_app_true in E as [E _].
  destruct x as [|c x]; [congruence|]. simpl in Ht, E.
  rewrite Ht in E. discriminate.
Qed.

Lemma drop_while_app_stop {A : Type} (p : A -> bool) (a b : list A) :
  forallb p a = true ->
  match b with c :: _ => p c = false | [] => True end ->
  drop_while p (a ++ b) = b.
Proof.
  intros Ha Hb. induction a as [|x a IH]; simpl in *.
  - destruct b as [|c b]; [reflexivity|]. simpl. now rewrite Hb.
  - apply andb_prop in Ha as [Hx Ha]. rewrite Hx. now apply IH.
Qed.

(** White space around a string without outer white space is what [strip]
    removes. *)
Lemma strip_app_ws (lead x trail : str) :
  forallb is_space lead = true -> forallb is_space trail = true ->
  no_outer_space x -> strip (lead ++ x ++ trail) = x.
Proof.
  intros Hl Hr [H1 H2]. unfold strip, lstrip, rstrip.
  destruct x as [|c x].
  - simpl app. rewrite (drop_while_all is_space (lead ++ trail));
      [reflexivity|].
    rewrite forallb_app. now rewrite Hl, Hr.
  - rewrite (drop_while_app_stop is_space lead ((c :: x) ++ trail) Hl H1).
    rewrite rev_app_distr.
    rewrite (drop_while_app_stop is_space (rev trail) (rev (c :: x))).
    + apply rev_involutive.
    + rewrite forallb_forall in *. intros y Hy. apply Hr. now apply in_rev.
    + exact H2.
Qed.

(* ================================================================== *)
(** * Further properties: the section parser *)
(* ================================================================== *)

Lemma sub_cr_no_CR (s : str) : Forall (fun c => c <> CR) (sub_cr s).
Proof.
  unfold sub_cr. apply Forall_forall. intros c Hc.
  apply in_map_iff in Hc as (d & <- & _).
  destruct (Ascii.eqb d CR) eqn:E; [discriminate|].
  now apply Ascii.eqb_neq.
Qed.

Lemma repeat_forall {A : Type} (P : A -> Prop) (a : A) (n : nat) :
  P a -> Forall P (repeat a n).
Proof. intros H. induction n; simpl; constructor; auto. Qed.

Lemma collapse_newlines_forall (P : ascii -> Prop) (s : str) (pending : nat) :
  P LF -> Forall P s -> Forall P (collapse_newlines s pending).
Proof.
  intros HL H. revert pending.
  induction H as [|c s Hc Hs IH]; intros pending; simpl.
  - now apply repeat_forall.
  - destruct (Ascii.eqb c LF); [apply IH|].
    apply Forall_app. split; [now apply repeat_forall|].
    constructor; [exact Hc | apply IH].
Qed.

(** Collapsing blanks leaves no tab, and keeps out what was out. *)
Lemma collapse_blanks_plain (s : str) (in_run : bool) :
  Forall (fun c => c <> CR) s -> Forall plain_char (collapse_blanks s in_run).
Proof.
  intros H. revert in_run. induction H as [|c s Hc Hs IH]; intros in_run; simpl.
  - constructor.
  - destruct (Ascii.eqb c SP || Ascii.eqb c TAB) eqn:E.
    + destruct in_run; [apply IH|].
      constructor; [split; discriminate | apply IH].
    + constructor; [|apply IH]. split; [exact Hc|].
      apply orb_false_elim in E as [_ E]. now apply Ascii.eqb_neq.
Qed.

Lemma normalise_plain (text : str) : Forall plain_char (normalise text).
Proof.
  unfold normalise. apply strip_forall, collapse_blanks_plain.
  apply collapse_newlines_forall; [discriminate | apply sub_cr_no_CR].
Qed.

Lemma split_paragraphs_forall (P : ascii -> Prop) (s : str) :
  Forall P s ->
  forall (skip : nat) (cur : str),
    Forall P cur ->
    Forall (Forall P) (split_paragraphs s skip cur).
Proof.
  induction 1 as [|c s Hc Hs IH]; intros skip cur Hcur; simpl.
  - constructor; [|constructor]. now apply Forall_rev.
  - destruct skip as [|k]; [|now apply IH].
    destruct (Ascii.eqb c LF).
    + destruct (upto_last_LF (take_while is_space s)).
      * constructor; [now apply Forall_rev | apply IH; constructor].
      * apply IH. now constructor.
    + apply IH. now constructor.
Qed.

(** The groups counted by the numbered-outline pattern only grow. *)
Lemma numbered_tail_grows (n : nat) :
  forall (s : str) (groups g : Z),
    (length s <= n)%nat -> numbered_tail s groups = Some g -> groups <= g.
Proof.
  induction n as [|n IH]; intros s groups g Hn.
  - destruct s; [discriminate | simpl in Hn; lia].
  - destruct s as [|c s]; [discriminate|]. simpl in Hn. simpl.
    destruct (is_digit c).
    + apply IH. lia.
    + destruct (Ascii.eqb c ".").
      * destruct s as [|d s]; [discriminate|]. simpl in Hn.
        destruct (is_digit d).
        -- intros H. apply IH in H; [lia | lia].
        -- destruct (is_space d); [|discriminate].
           intros H; injection H as <-. lia.
      * destruct (is_space c); [|discriminate].
        intros H; injection H as <-. lia.
Qed.

Lemma heading_level_positive (text : str) : 1 <= _get_heading_level text.
Proof.
  unfold _get_heading_level.
  set (first_line := strip (hd [] (split_char LF text))).
  destruct (match_numbered first_line) as [g|] eqn:E.
  - unfold match_numbered in E. destruct first_line as [|c r]; [discriminate|].
    destruct (is_digit c); [|discriminate].
    eapply (numbered_tail_grows (length r)); [reflexivity | exact E].
  - destruct (match_roman first_line); [lia|].
    destruct (match_letter first_line); lia.
Qed.

Lemma classify_type (trimmed_text : str) :
  (type_ (classify trimmed_text) = heading
   <-> _is_likely_heading trimmed_text = true)
  /\ (type_ (classify trimmed_text) = list_item
      <-> _is_likely_heading trimmed_text = false
          /\ _is_likely_list trimmed_text = true)
  /\ 1 <= level (classify trimmed_text).
Proof.
  unfold classify.
  destruct (_is_likely_heading trimmed_text) eqn:H.
  - cbn [type_ level]. repeat split; try discriminate; try reflexivity.
    + intros [E _]. discriminate.
    + apply heading_level_positive.
  - destruct (_is_likely_list trimmed_text) eqn:L.
    + cbn [type_ level]. repeat split; try discriminate; try reflexivity.
    + destruct (_is_likely_table trimmed_text); cbn [type_ level];
        repeat split; try discriminate;
        intros [_ E]; discriminate.
Qed.

Lemma parsed_section_content (text : str) (section : SemanticSection) :
  In section (_parse_with_regex text) ->
  content section <> [] /\ trimmed (content section).
Proof.
  unfold _parse_with_regex. intros Hin.
  apply in_flat_map in Hin as (para & _ & Hin).
  destruct (truthy (strip para)) eqn:T; [|destruct Hin].
  destruct Hin as [<- | []]. rewrite content_classify.
  split; [now apply truthy_true | apply strip_trimmed].
Qed.

(** X1.  Every section the parser returns holds text that is not empty, has
    no white space at either end and holds neither a carriage return nor a
    tab; its level is at least 1; it is typed a heading exactly when its text
    passes the heading test, and a list only when it fails the heading test
    and passes the list test. *)
Theorem parsed_section_invariant (text : str) (section : SemanticSection) :
  In section (_parse_with_regex text) ->
  content section <> []
  /\ no_outer_space (content section)
  /\ Forall plain_char (content section)
  /\ 1 <= level section
  /\ (type_ section = heading <-> _is_likely_heading (content section) = true)
  /\ (type_ section = list_item
      <-> _is_likely_heading (content section) = false
          /\ _is_likely_list (content section) = true).
Proof.
  unfold _parse_with_regex. intros Hin.
  apply in_flat_map in Hin as (para & Hp & Hin).
  destruct (truthy (strip para)) eqn:T; [|destruct Hin].
  destruct Hin as [<- | []]. rewrite content_classify.
  destruct (classify_type (strip para)) as (Th & Tl & Lv).
  split; [now apply truthy_true|].
  split; [apply strip_no_outer_space|].
  split; [|split; [exact Lv | split; [exact Th | exact Tl]]].
  apply strip_forall.
  pose proof (split_paragraphs_forall plain_char (normalise text)
                (normalise_plain text) 0 [] ltac:(constructor)) as Fa.
  rewrite Forall_forall in Fa. now apply Fa.
Qed.

(** X2.  The heading level is at least 1 on every text, so the Markdown
    form of a heading carries at least one mark. *)
Theorem heading_level_at_least_one (text : str) :
  1 <= _get_heading_level text
  /\ repeat_char "#" (_get_heading_level text) <> [].
Proof.
  pose proof (heading_level_positive text) as H. split; [exact H|].
  unfold repeat_char.
  destruct (Z.to_nat (_get_heading_level text)) eqn:E; [lia | discriminate].
Qed.

Lemma sub_crlf_cons2 (c d : ascii) (s : str) :
  sub_crlf (c :: d :: s)
  = if Ascii.eqb c CR && Ascii.eqb d LF then LF :: sub_crlf s
    else c :: sub_crlf (d :: s).
Proof. reflexivity. Qed.

Lemma sub_crlf_forall (P : ascii -> Prop) (n : nat) :
  P LF -> forall s, (length s <= n)%nat -> Forall P s -> Forall P (sub_crlf s).
Proof.
  intros HL. induction n as [|n IH]; intros s Hn H.
  - destruct s; [constructor | simpl in Hn; lia].
  - destruct s as [|c [|d s]]; [constructor | exact H |].
    rewrite sub_crlf_cons2.
    simpl in Hn. inversion H as [|? ? Hc Hs]; subst.
    inversion Hs as [|? ? Hd Hs']; subst.
    destruct (Ascii.eqb c CR && Ascii.eqb d LF).
    + constructor; [exact HL | apply IH; [lia | exact Hs']].
    + constructor; [exact Hc | apply IH; [simpl; lia | exact Hs]].
Qed.

Lemma sub_cr_forall (P : ascii -> Prop) (s : str) :
  P LF -> Forall P s -> Forall P (sub_cr s).
Proof.
  intros HL H. unfold sub_cr. induction H as [|c s Hc Hs IH]; simpl;
    [constructor|].
  constructor; [destruct (Ascii.eqb c CR); assumption | exact IH].
Qed.

Lemma collapse_blanks_forall (P : ascii -> Prop) (s : str) (in_run : bool) :
  P SP -> Forall P s -> Forall P (collapse_blanks s in_run).
Proof.
  intros HS H. revert in_run. induction H as [|c s Hc Hs IH]; intros in_run;
    simpl; [constructor|].
  destruct (Ascii.eqb c SP || Ascii.eqb c TAB).
  - destruct in_run; [apply IH | constructor; [exact HS | apply IH]].
  - constructor; [exact Hc | apply IH].
Qed.

Lemma forallb_Forall {A : Type} (p : A -> bool) (s : list A) :
  forallb p s = true <-> Forall (fun c => p c = true) s.
Proof. rewrite forallb_forall, Forall_forall. reflexivity. Qed.

(** White space normalises to the empty string. *)
Lemma normalise_whitespace (text : str) :
  forallb is_space text = true -> normalise text = [].
Proof.
  intros H. unfold normalise. apply strip_whitespace. apply forallb_Forall.
  apply collapse_blanks_forall; [reflexivity|].
  apply collapse_newlines_forall; [reflexivity|].
  apply sub_cr_forall; [reflexivity|].
  apply (sub_crlf_forall _ (length text)); [reflexivity | lia |].
  now apply forallb_Forall.
Qed.

(* ================================================================== *)
(** * Further properties: headings of one line *)
(* ================================================================== *)

Lemma split_char_single (sep : ascii) (s : str) :
  Forall (fun c => c <> sep) s -> split_char sep s = [s].
Proof.
  induction 1 as [|c s Hc Hs IH]; simpl; [reflexivity|].
  apply Ascii.eqb_neq in Hc. now rewrite Hc, IH.
Qed.

Lemma sub_crlf_no_CR (n : nat) :
  forall s, (length s <= n)%nat -> Forall (fun c => c <> CR) s -> sub_crlf s = s.
Proof.
  induction n as [|n IH]; intros s Hn H.
  - destruct s; [reflexivity | simpl in Hn; lia].
  - destruct s as [|c [|d s]]; [reflexivity | reflexivity |].
    rewrite sub_crlf_cons2.
    simpl in Hn. inversion H as [|? ? Hc Hs]; subst.
    apply Ascii.eqb_neq in Hc. rewrite Hc. cbn [andb].
    f_equal. apply IH; [simpl; lia | exact Hs].
Qed.

Lemma sub_cr_no_CR_id (s : str) :
  Forall (fun c => c <> CR) s -> sub_cr s = s.
Proof.
  unfold sub_cr. induction 1 as [|c s Hc Hs IH]; simpl; [reflexivity|].
  apply Ascii.eqb_neq in Hc. now rewrite Hc, IH.
Qed.

Lemma collapse_newlines_no_LF (s : str) :
  Forall (fun c => c <> LF) s -> collapse_newlines s 0 = s.
Proof.
  induction 1 as [|c s Hc Hs IH]; simpl; [reflexivity|].
  apply Ascii.eqb_neq in Hc. now rewrite Hc, IH.
Qed.

(** A heading line in Markdown form has no outer white space. *)
Lemma marked_line_no_outer_space (level : Z) (line : str) :
  1 <= level -> line <> [] -> no_outer_space line ->
  no_outer_space (repeat_char "#" level ++ [SP] ++ line).
Proof.
  intros Hl Hn [_ H2]. unfold repeat_char. split.
  - destruct (Z.to_nat level) eqn:E; [lia|]. reflexivity.
  - rewrite !rev_app_distr.
    destruct (rev line) as [|c r] eqn:E.
    + apply (f_equal (@rev ascii)) in E. rewrite rev_involutive in E.
      simpl in E. congruence.
    + exact H2.
Qed.

(** X3.  A line that is not blank and, stripped, is shorter than 60
    characters passes the heading test whatever it says; so a document of
    one such line comes out of [convert_pdf_to_markdown] as its stripped
    text behind heading marks and a space. *)
Theorem short_line_is_heading (line : str) :
  Forall (fun c => c <> LF /\ c <> CR) line ->
  strip line <> [] -> len (strip line) < 60 ->
  _is_likely_heading (strip line) = true /\
  convert_pdf_to_markdown line
  = repeat_char "#" (_get_heading_level (strip line)) ++ [SP] ++ strip line.
Proof.
  intros Hc Hn Hl.
  assert (HLF : Forall (fun c => c <> LF) line)
    by (eapply Forall_impl; [|exact Hc]; cbn; tauto).
  assert (HCR : Forall (fun c => c <> CR) line)
    by (eapply Forall_impl; [|exact Hc]; cbn; tauto).
  assert (Hh : _is_likely_heading (strip line) = true).
  { unfold _is_likely_heading.
    rewrite (split_char_single LF (strip line)) by now apply strip_forall.
    cbn [hd]. change (len [strip line]) with 1. cbn [Z.ltb Z.compare].
    rewrite (strip_fixed (strip line)) by apply strip_no_outer_space.
    apply truthy_true in Hn. rewrite Hn. cbn [negb].
    apply Z.ltb_lt in Hl. rewrite Hl. cbn [Z.eqb andb].
    apply orb_true_r. }
  split; [exact Hh|].
  unfold convert_pdf_to_markdown.
  rewrite (sub_crlf_no_CR (length line)) by (auto; lia).
  rewrite sub_cr_no_CR_id by exact HCR.
  rewrite collapse_newlines_no_LF by exact HLF.
  rewrite (split_char_single LF line HLF). cbn [map join].
  apply truthy_true in Hn as Ht. rewrite Ht. cbn [negb]. rewrite Hh.
  apply strip_fixed. apply marked_line_no_outer_space.
  - apply heading_level_positive.
  - exact Hn.
  - apply strip_no_outer_space.
Qed.

(* ================================================================== *)
(** * Further properties: strides and fragments of the splitter *)
(* ================================================================== *)

(** The loop's fragments are the non-empty fragments of its strides. *)
Lemma split_loop_strides (fuel : nat) (section : str) (chunk_size overlap : Z) :
  forall (start : Z) (acc : list str),
    split_loop fuel section chunk_size overlap start acc =
    match split_strides fuel section chunk_size overlap start with
    | Ok strides =>
        Ok (acc ++ filter (fun c => truthy c)
                     (map (stride_fragment section) strides))
    | Raise e => Raise e
    | Timeout => Timeout
    end.
Proof.
  induction fuel as [|fuel IH]; intros start acc; simpl.
  - destruct (start <? len section); [reflexivity|]. now rewrite app_nil_r.
  - destruct (start <? len section); [|now rewrite app_nil_r].
    rewrite IH.
    destruct (split_strides fuel section chunk_size overlap _) as [l | e |];
      [|reflexivity|reflexivity].
    cbn [map filter]. unfold stride_fragment at 2. cbn [fst snd].
    destruct (truthy (strip (slice section start
                               (split_end section chunk_size overlap start))));
      [now rewrite <- app_assoc | reflexivity].
Qed.

Lemma split_strides_head (fuel : nat) (section : str) (chunk_size overlap : Z)
    (start : Z) (stride : Z * Z) (rest : list (Z * Z)) :
  split_strides fuel section chunk_size overlap start = Ok (stride :: rest) ->
  fst stride = start.
Proof.
  destruct fuel as [|fuel]; simpl; destruct (start <? len section);
    try discriminate.
  destruct (split_strides fuel section chunk_size overlap _); try discriminate.
  intros H; injection H as <- _. reflexivity.
Qed.

(** The strides of a run: each lies at a non-negative start and is between
    [chunk_size - overlap] and [chunk_size + max(0, overlap - 1)] long; each
    starts [overlap] before the end of the one before; together they cover
    every position from [start] on. *)
Lemma split_strides_shape (section : str) (chunk_size overlap : Z) :
  0 <= overlap -> 2 * overlap < chunk_size ->
  forall (fuel : nat) (start : Z) (strides : list (Z * Z)),
    0 <= start ->
    split_strides fuel section chunk_size overlap start = Ok strides ->
    Forall (fun st => 0 <= fst st /\
                      chunk_size - overlap <= snd st - fst st
                      <= chunk_size + Z.max 0 (overlap - 1)) strides
    /\ (forall pre a b rest,
          strides = pre ++ a :: b :: rest -> fst b = snd a - overlap)
    /\ (forall p, start <= p < len section ->
          exists st, In st strides /\ fst st <= p < snd st).
Proof.
  intros Ho Hc. induction fuel as [|fuel IH]; intros start strides Hs; simpl.
  - destruct (start <? len section) eqn:Q; [discriminate|].
    intros H; injection H as <-. apply Z.ltb_ge in Q.
    split; [constructor | split].
    + intros [|? ?] a b rest E; discriminate.
    + intros p Hp. lia.
  - destruct (start <? len section) eqn:Q.
    2:{ intros H; injection H as <-. apply Z.ltb_ge in Q.
        split; [constructor | split].
        - intros [|? ?] a b rest E; discriminate.
        - intros p Hp. lia. }
    pose proof (split_end_advance section chunk_size overlap start Ho) as Adv.
    pose proof (split_end_upper section chunk_size overlap start Ho ltac:(lia))
      as Up.
    set (end_ := split_end section chunk_size overlap start) in *.
    destruct (split_strides fuel section chunk_size overlap (end_ - overlap))
      as [l | e |] eqn:E; try discriminate.
    intros H; injection H as <-.
    destruct (IH (end_ - overlap) l ltac:(lia) E) as (Fa & Lk & Cv).
    split; [|split].
    + constructor; [cbn [fst snd]; lia | exact Fa].
    + intros [|x pre] a b rest Eq; cbn [app] in Eq.
      * injection Eq as <- El. subst l. cbn [snd].
        now apply split_strides_head in E.
      * injection Eq as _ El. now apply (Lk pre a b rest).
    + intros p Hp. destruct (Z.lt_ge_cases p end_) as [Hlt | Hge].
      * exists (start, end_). split; [now left | cbn [fst snd]; lia].
      * destruct (Cv p ltac:(lia)) as (st & Hin & Hst).
        exists st. split; [now right | exact Hst].
Qed.

(** X4.  For a non-negative overlap below half the chunk size, the strides
    of [_split_large_section] start at 0, each begins [overlap] characters
    before the end of the one before it, each is at least
    [chunk_size - overlap] characters wide, and every position of the
    section lies in one of them: the fragments, which are the non-empty
    stripped slices of the strides, leave no character of the section out
    but white space at their ends. *)
Theorem split_strides_cover (fuel : nat) (section : str)
    (chunk_size overlap : Z) (fragments : list str) :
  0 <= overlap -> 2 * overlap < chunk_size ->
  _split_large_section fuel section chunk_size overlap = Ok fragments ->
  exists strides,
    split_strides fuel section chunk_size overlap 0 = Ok strides /\
    fragments = filter (fun c => truthy c)
                  (map (stride_fragment section) strides) /\
    Forall (fun st => 0 <= fst st /\ chunk_size - overlap <= snd st - fst st)
      strides /\
    (forall pre a b rest,
       strides = pre ++ a :: b :: rest -> fst b = snd a - overlap) /\
    (forall p, 0 <= p < len section ->
       exists st, In st strides /\ fst st <= p < snd st).
Proof.
  intros Ho Hc H. unfold _split_large_section in H.
  rewrite split_loop_strides in H.
  destruct (split_strides fuel section chunk_size overlap 0) as [strides | e |]
    eqn:E; try discriminate.
  injection H as <-. exists strides.
  destruct (split_strides_shape section chunk_size overlap Ho Hc fuel 0 strides
              ltac:(lia) E) as (Fa & Lk & Cv).
  split; [reflexivity | split; [reflexivity | split; [|split]]].
  - eapply Forall_impl; [|exact Fa]. cbn beta. intros st Hst. lia.
  - exact Lk.
  - exact Cv.
Qed.

(** X5.  Under the same condition every fragment of
    [_split_large_section] is non-empty, has no white space at either end,
    and is at most [chunk_size + max(0, overlap - 1)] characters long. *)
Theorem split_fragments_shape (fuel : nat) (section : str)
    (chunk_size overlap : Z) (fragments : list str) :
  0 <= overlap -> 2 * overlap < chunk_size ->
  _split_large_section fuel section chunk_size overlap = Ok fragments ->
  Forall (fun fragment =>
            fragment <> [] /\ no_outer_space fragment /\
            len fragment <= chunk_size + Z.max 0 (overlap - 1))
    fragments.
Proof.
  intros Ho Hc H. unfold _split_large_section in H.
  rewrite split_loop_strides in H.
  destruct (split_strides fuel section chunk_size overlap 0) as [strides | e |]
    eqn:E; try discriminate.
  injection H as <-.
  destruct (split_strides_shape section chunk_size overlap Ho Hc fuel 0 strides
              ltac:(lia) E) as (Fa & _ & _).
  apply Forall_forall. intros fragment Hin.
  apply filter_In in Hin as [Hin Ht]. apply in_map_iff in Hin as (st & <- & Hst).
  rewrite Forall_forall in Fa. specialize (Fa st Hst).
  split; [now apply truthy_true|].
  split; [apply strip_no_outer_space|].
  unfold stride_fragment.
  pose proof (strip_length (slice section (fst st) (snd st))).
  pose proof (slice_length_le section (fst st) (snd st) ltac:(lia) ltac:(lia)).
  lia.
Qed.

(** X6.  For a positive overlap size the overlap tail of any text is at
    most [max(overlap, int(1.5 * overlap) - 2)] characters long. *)
Theorem overlap_tail_length (text : str) (overlap_size : Z) :
  1 <= overlap_size ->
  len (_get_overlap_text text overlap_size)
  <= Z.max overlap_size (one_and_a_half overlap_size - 2)
  /\ len (_get_overlap_text text overlap_size) <= len text.
Proof.
  intros Ho. split; [now apply overlap_text_length|].
  destruct (Z.le_gt_cases (len text) overlap_size) as [Hs | Hl].
  - unfold _get_overlap_text. apply Z.leb_le in Hs. rewrite Hs. lia.
  - rewrite overlap_text_by_window by lia. cbv zeta.
    destruct (search_boundary _).
    + etransitivity; [apply strip_length|].
      unfold len. rewrite !length_skipn. lia.
    + unfold len. rewrite length_skipn. lia.
Qed.

(* ================================================================== *)
(** * Further properties: the chunks of a long text *)
(* ================================================================== *)

Lemma split_large_section_good (fuel : nat) (section : str)
    (chunk_size overlap : Z) (fragments : list str) :
  _split_large_section fuel section chunk_size overlap = Ok fragments ->
  Forall (fun c => c <> [] /\ no_outer_space c) fragments.
Proof.
  unfold _split_large_section. rewrite split_loop_strides.
  destruct (split_strides fuel section chunk_size overlap 0); try discriminate.
  intros H; injection H as <-. apply Forall_forall. intros c Hin.
  apply filter_In in Hin as [Hin Ht]. apply in_map_iff in Hin as (st & <- & _).
  split; [now apply truthy_true | apply strip_no_outer_space].
Qed.

(** The assembler's state while it runs on parsed sections: the finished
    chunks are non-empty and stripped, and the accumulator, unless empty,
    holds something besides white space. *)
Lemma section_step_good (fuel : nat) (chunk_size overlap : Z)
    (st st' : list str * str) (section : SemanticSection) :
  content section <> [] -> trimmed (content section) ->
  section_step fuel chunk_size overlap st section = Ok st' ->
  Forall (fun c => c <> [] /\ no_outer_space c) (fst st) ->
  (snd st = [] \/ strip (snd st) <> []) ->
  Forall (fun c => c <> [] /\ no_outer_space c) (fst st')
  /\ (snd st' = [] \/ strip (snd st') <> []).
Proof.
  intros Hn Ht. destruct st as [chunks current]. unfold section_step.
  cbn [fst snd]. intros H Fa Hcur.
  destruct ((chunk_size <? len current + len (content section))
            && truthy current) eqn:Cd.
  - apply andb_prop in Cd as [_ Tc]. apply truthy_true in Tc.
    destruct Hcur as [-> | Hcur]; [congruence|].
    assert (Fa1 : Forall (fun c => c <> [] /\ no_outer_space c)
                    (chunks ++ [strip current])).
    { apply Forall_app. split; [exact Fa|].
      constructor; [|constructor].
      split; [exact Hcur | apply strip_no_outer_space]. }
    destruct (chunk_size <? len (content section)).
    + destruct (_split_large_section fuel (content section) chunk_size overlap)
        as [[|sub0 subs] | e |] eqn:Sp; try discriminate.
      injection H as <-. cbn [fst snd].
      apply split_large_section_good in Sp.
      inversion Sp as [|? ? [G1 G2] Gs]; subst. split.
      * apply Forall_app. now split.
      * right. now rewrite (strip_fixed sub0 G2).
    + injection H as <-. cbn [fst snd]. split; [exact Fa1|]. right.
      rewrite app_assoc. rewrite <- (app_nil_r (content section)).
      now apply strip_around_nonempty.
  - destruct (chunk_size <? len (content section)).
    + destruct (_split_large_section fuel (content section) chunk_size overlap)
        as [[|sub0 subs] | e |] eqn:Sp; try discriminate.
      injection H as <-. cbn [fst snd].
      apply split_large_section_good in Sp.
      inversion Sp as [|? ? [G1 G2] Gs]; subst. split.
      * apply Forall_app. now split.
      * right. now rewrite (strip_fixed sub0 G2).
    + injection H as <-. cbn [fst snd]. split; [exact Fa|]. right.
      destruct (truthy current).
      * change (LF :: LF :: content section) with (PARA ++ content section).
        rewrite app_assoc. rewrite <- (app_nil_r (content section)).
        now apply strip_around_nonempty.
      * rewrite <- (app_nil_l (content section)).
        rewrite <- (app_nil_r (content section)) at 1.
        now apply (strip_around_nonempty [] (content section) []).
Qed.

Lemma sections_loop_good (fuel : nat) (chunk_size overlap : Z)
    (sections : list SemanticSection) :
  Forall (fun section => content section <> [] /\ trimmed (content section))
    sections ->
  forall st st',
    sections_loop fuel chunk_size overlap sections st = Ok st' ->
    Forall (fun c => c <> [] /\ no_outer_space c) (fst st) ->
    (snd st = [] \/ strip (snd st) <> []) ->
    Forall (fun c => c <> [] /\ no_outer_space c) (fst st').
Proof.
  induction 1 as [|sec rest [Hn Ht] _ IH]; intros st st'; simpl.
  - intros H; injection H as <-. auto.
  - destruct (section_step fuel chunk_size overlap st sec) as [st1 | e |] eqn:E;
      try discriminate.
    intros H Fa Hc.
    destruct (section_step_good _ _ _ _ _ _ Hn Ht E Fa Hc) as [Fa1 Hc1].
    eapply IH; eassumption.
Qed.

(** X7.  Every chunk [chunk_text] returns for a text longer than
    [chunk_size] is non-empty and has no white space at either end,
    whatever the parameters. *)
Theorem chunk_text_chunks_stripped (fuel : nat) (text : str)
    (chunk_size overlap : Z) (chunks : list str) :
  chunk_size < len text ->
  chunk_text fuel text chunk_size overlap = Ok chunks ->
  Forall (fun c => c <> [] /\ no_outer_space c) chunks.
Proof.
  intros Hl. unfold chunk_text, chunk_text_with.
  destruct (len text <=? chunk_size) eqn:Q; [apply Z.leb_le in Q; lia|].
  unfold _sections_to_chunks.
  destruct (sections_loop fuel chunk_size overlap (_parse_with_regex text)
              ([], [])) as [[cs current] | e |] eqn:E; try discriminate.
  intros H; injection H as <-.
  assert (Fa : Forall (fun c => c <> [] /\ no_outer_space c) cs).
  { apply (sections_loop_good fuel chunk_size overlap (_parse_with_regex text))
      with (st := ([], [])) (st' := (cs, current)).
    - apply Forall_forall. intros section Hin.
      destruct (parsed_section_content text section Hin) as [Hn Ht].
      split; [exact Hn | exact Ht].
    - exact E.
    - constructor.
    - now left. }
  destruct (truthy (strip current)) eqn:T; [|exact Fa].
  apply Forall_app. split; [exact Fa|]. constructor; [|constructor].
  split; [now apply truthy_true | apply strip_no_outer_space].
Qed.

(* ================================================================== *)
(** * Further properties: decoding fenced output *)
(* ================================================================== *)

Lemma head_fails_app {A : Type} (p : A -> bool) (a b : list A) :
  Forall (fun c => p c = false) a -> head_fails p b -> head_fails p (a ++ b).
Proof.
  intros Ha Hb. destruct a as [|c a]; [exact Hb|].
  inversion Ha; subst. assumption.
Qed.

Lemma space_outside_fence (c : ascii) :
  is_space c = true -> in_chars (lit "`json") c = false.
Proof.
  destruct c as [[] [] [] [] [] [] [] []]; intros H;
    solve [reflexivity | discriminate H].
Qed.

Lemma in_chars_weaken (c : ascii) :
  in_chars (lit "`json") c = false ->
  in_chars (lit "`") c = false /\ in_chars (lit "json") c = false.
Proof.
  unfold in_chars. cbn [lit list_ascii_of_string existsb].
  intros H. apply orb_false_elim in H as [H1 H2]. rewrite H1, H2. auto.
Qed.

Lemma tag_char_not_backtick (c : ascii) :
  in_chars (lit "json") c = true -> in_chars (lit "`") c = false.
Proof.
  unfold in_chars. cbn [lit list_ascii_of_string existsb].
  rewrite !orb_false_r. intros H.
  repeat (apply orb_prop in H as [H | H]);
    apply Ascii.eqb_eq in H; subst c; reflexivity.
Qed.

Lemma head_fails_weaken {A : Type} (p q : A -> bool) (s : list A) :
  (forall c, p c = false -> q c = false) -> head_fails p s -> head_fails q s.
Proof. intros H. destruct s; simpl; auto. Qed.

Lemma whitespace_fails (chars : str) (ws : str) :
  (forall c, in_chars (lit "`json") c = false -> in_chars chars c = false) ->
  forallb is_space ws = true ->
  Forall (fun c => in_chars chars c = false) ws.
Proof.
  intros Hw H. apply forallb_Forall in H.
  eapply Forall_impl; [|exact H]. cbn beta.
  intros c Hc. now apply Hw, space_outside_fence.
Qed.

Section DecodingProperties.

Context {F : Type}.
Variable json_loads : str -> option (json F).

(** X8.  Output wrapped in a code fence, with or without the [json] tag and
    with white space anywhere around the fence and the payload, is decoded
    as its payload, provided the payload does not begin with a backquote or
    one of the letters j, s, o, n (which [lstrip] would take for the tag)
    and does not end with a backquote. *)
Theorem try_parse_json_fenced (lead tag ws1 payload ws2 trail : str) :
  forallb is_space lead = true -> forallb is_space ws1 = true ->
  forallb is_space ws2 = true -> forallb is_space trail = true ->
  forallb (in_chars (lit "json")) tag = true ->
  payload <> [] -> no_outer_space payload ->
  head_fails (in_chars (lit "`json")) payload ->
  head_fails (in_chars (lit "`")) (rev payload) ->
  _try_parse_json json_loads
    (lead ++ FENCE ++ tag ++ ws1 ++ payload ++ ws2 ++ FENCE ++ trail)
  = match json_loads payload with
    | Some v => v
    | None => JNull
    end.
Proof.
  intros Hlead Hws1 Hws2 Htrail Htag Hne Hout Hhead Hlast.
  unfold _try_parse_json.
  set (inner := ws1 ++ payload ++ ws2).
  assert (E1 : strip (lead ++ FENCE ++ tag ++ ws1 ++ payload ++ ws2
                      ++ FENCE ++ trail)
               = FENCE ++ tag ++ inner ++ FENCE).
  { replace (lead ++ FENCE ++ tag ++ ws1 ++ payload ++ ws2 ++ FENCE ++ trail)
      with (lead ++ (FENCE ++ tag ++ inner ++ FENCE) ++ trail)
      by (unfold inner; now rewrite <- !app_assoc).
    apply strip_app_ws; try assumption. split; [reflexivity|].
    rewrite !rev_app_distr. reflexivity. }
  rewrite E1. rewrite starts_with_app.
  assert (Hi_bt : head_fails (in_chars (lit "`")) (inner ++ FENCE)).
  { unfold inner. rewrite <- !app_assoc. apply head_fails_app.
    - apply whitespace_fails; [|exact Hws1]. intros c Hc.
      now apply in_chars_weaken in Hc.
    - destruct payload as [|c r]; [congruence|]. simpl in Hhead |- *.
      now apply in_chars_weaken in Hhead. }
  assert (Hi_tag : head_fails (in_chars (lit "json")) (inner ++ FENCE)).
  { unfold inner. rewrite <- !app_assoc. apply head_fails_app.
    - apply whitespace_fails; [|exact Hws1]. intros c Hc.
      now apply in_chars_weaken in Hc.
    - destruct payload as [|c r]; [congruence|]. simpl in Hhead |- *.
      now apply in_chars_weaken in Hhead. }
  assert (E2 : lstrip_chars (lit "`") (FENCE ++ tag ++ inner ++ FENCE)
               = tag ++ inner ++ FENCE).
  { apply (drop_while_app_stop (in_chars (lit "`")) FENCE); [reflexivity|].
    apply head_fails_app; [|exact Hi_bt].
    apply forallb_Forall in Htag. eapply Forall_impl; [|exact Htag].
    apply tag_char_not_backtick. }
  rewrite E2.
  assert (E3 : lstrip_chars (lit "json") (tag ++ inner ++ FENCE)
               = inner ++ FENCE).
  { now apply (drop_while_app_stop (in_chars (lit "json")) tag). }
  rewrite E3.
  assert (E4 : lstrip_chars (lit "`") (inner ++ FENCE) = inner ++ FENCE).
  { now apply (drop_while_app_stop (in_chars (lit "`")) []). }
  rewrite E4.
  assert (E5 : ends_with FENCE (inner ++ FENCE) = true).
  { unfold ends_with. rewrite rev_app_distr. apply starts_with_app. }
  rewrite E5.
  assert (E6 : rstrip_chars (lit "`") (inner ++ FENCE) = inner).
  { unfold rstrip_chars. rewrite rev_app_distr.
    rewrite <- (rev_involutive inner) at 2. f_equal.
    apply (drop_while_app_stop (in_chars (lit "`")) (rev FENCE));
      [reflexivity|].
    unfold inner. rewrite !rev_app_distr, <- app_assoc.
    apply head_fails_app.
    - apply Forall_rev. apply whitespace_fails; [|exact Hws2]. intros c Hc.
      now apply in_chars_weaken in Hc.
    - destruct (rev payload) as [|c r] eqn:Er; [|exact Hlast].
      apply (f_equal (@rev ascii)) in Er. rewrite rev_involutive in Er.
      simpl in Er. congruence. }
  rewrite E6. unfold inner. now rewrite (strip_app_ws ws1 payload ws2).
Qed.

End DecodingProperties.

(* ================================================================== *)
(** * Further properties: extraction and synthesis *)
(* ================================================================== *)

Lemma map_result_length {A B : Type} (f : A -> result B) (l : list A)
    (bs : list B) :
  map_result f l = Ok bs -> length bs = length l.
Proof.
  revert bs. induction l as [|a l IH]; intros bs; simpl.
  - intros H; injection H as <-. reflexivity.
  - destruct (f a); try discriminate.
    destruct (map_result f l); try discriminate.
    intros H; injection H as <-. simpl. now rewrite (IH _ eq_refl).
Qed.

Lemma map_result_all_ok {A B : Type} (f : A -> result B) (l : list A) :
  Forall (fun a => exists b, f a = Ok b) l -> exists bs, map_result f l = Ok bs.
Proof.
  induction 1 as [|a l [b Hb] _ [bs IH]]; simpl.
  - now exists [].
  - rewrite Hb, IH. now exists (b :: bs).
Qed.

(** When every element gives a value or one same exception, and some
    element gives the exception, the whole gives it. *)
Lemma map_result_raises {A B : Type} (f : A -> result B) (e : exn)
    (l : list A) :
  Forall (fun a => (exists b, f a = Ok b) \/ f a = Raise e) l ->
  Exists (fun a => f a = Raise e) l ->
  map_result f l = Raise e.
Proof.
  induction 1 as [|a l Ha Hl IH]; intros Ex; [inversion Ex|]. simpl.
  destruct Ha as [[b Hb] | Hr].
  - rewrite Hb. inversion Ex as [? ? H | ? ? H]; subst; [congruence|].
    now rewrite (IH H).
  - now rewrite Hr.
Qed.

Lemma str_eqb_eq (a b : str) : str_eqb a b = true -> a = b.
Proof.
  revert b. induction a as [|x a IH]; intros [|y b]; simpl; try discriminate.
  - reflexivity.
  - intros H. apply andb_prop in H as [H1 H2].
    apply Ascii.eqb_eq in H1. subst. f_equal. now apply IH.
Qed.

Lemma slice_head {A : Type} (x : A) (l : list A) (b : Z) :
  1 <= b -> exists tl, slice (x :: l) 0 b = x :: tl.
Proof.
  intros Hb. unfold slice, clamp. rewrite len_cons.
  pose proof (len_nonneg l) as Hl.
  replace (0 <? 0) with false by reflexivity.
  replace (b <? 0) with false by (symmetry; apply Z.ltb_ge; lia).
  rewrite (Z.min_l 0 (1 + len l)) by lia.
  change (Z.to_nat 0) with 0%nat. cbn [skipn].
  destruct (Z.to_nat (Z.min b (1 + len l) - 0)) as [|n] eqn:En; [lia|].
  cbn [firstn]. eexists. reflexivity.
Qed.

Lemma forallb_map_chat {A : Type} (f : A -> event) (l : list A) :
  (forall x, is_chat_call (f x) = true) ->
  forallb is_chat_call (map f l) = true.
Proof.
  intros H. induction l as [|x l IH]; simpl; [reflexivity|].
  now rewrite H, IH.
Qed.

Section ExtractionProperties.

Context {F : Type} {float_ops : FloatOps F}.
Variable json_loads : str -> option (json F).
Variable py_repr : json F -> str.
Variable ANALYZE_SYSTEM_PROMPT : str.
Variable SYNTHESIS_SYSTEM_PROMPT : str.
Variable SUMMARY_SYSTEM_PROMPT : str.

Lemma dict_get_set_other (d : list (str * json F)) (key key' : str)
    (v : json F) :
  str_eqb key key' = false ->
  dict_get (dict_set d key v) key' = dict_get d key'.
Proof.
  intros Hk. induction d as [|[k w] d IH]; simpl.
  - now rewrite Hk.
  - destruct (str_eqb k key) eqn:E; simpl.
    + apply str_eqb_eq in E. subst k. now rewrite Hk.
    + now rewrite IH.
Qed.

Lemma run_analyze_chunk (cap : capability F) (log : list event)
    (chunk role : str) :
  run cap (_analyze_chunk json_loads ANALYZE_SYSTEM_PROMPT chunk role) log =
  (match chat_response cap log
           (analyze_request ANALYZE_SYSTEM_PROMPT chunk role) with
   | Ok output =>
       if json_truthy (_try_parse_json json_loads output)
          && is_dict (_try_parse_json json_loads output)
       then json_get (_try_parse_json json_loads output) (lit "clauses")
              (JList [])
       else Ok (JList [])
   | Raise e => Raise e
   | Timeout => Timeout
   end,
   log ++ [ChatCall (analyze_request ANALYZE_SYSTEM_PROMPT chunk role)]).
Proof.
  unfold _analyze_chunk, analyze_request. rewrite run_bind, run_chat_complete.
  destruct (chat_response cap log _) as [output | e |]; try reflexivity.
  destruct (json_truthy _ && is_dict _); reflexivity.
Qed.

(** [_try_parse_json] by what the decoder makes of the cleaned text. *)
Lemma try_parse_json_decodes (text : str) :
  _try_parse_json json_loads text
  = match json_loads (decoder_input text) with
    | Some v => v
    | None => JNull
    end.
Proof. reflexivity. Qed.

(** X9.  The extraction of one chunk makes exactly one chat call, and when
    that call raises, the extraction raises the same.  When the call returns
    a text: if the decoder rejects the cleaned text ([JSONDecodeError]), the
    result is an empty list; if the decoder returns a value, the result is
    the value under [clauses] when that value is a non-empty object (an
    empty list when the key is missing), and an empty list for any other
    value. *)
Theorem analyze_chunk_degrades (cap : capability F) (log : list event)
    (chunk role : str) :
  let request := analyze_request ANALYZE_SYSTEM_PROMPT chunk role in
  let outcome :=
    run cap (_analyze_chunk json_loads ANALYZE_SYSTEM_PROMPT chunk role) log in
  snd outcome = log ++ [ChatCall request]
  /\ (forall e, chat_response cap log request = Raise e -> fst outcome = Raise e)
  /\ (forall output,
        chat_response cap log request = Ok output ->
        (json_loads (decoder_input output) = None ->
         fst outcome = Ok (JList []))
        /\ (forall v,
              json_loads (decoder_input output) = Some v ->
              fst outcome
              = Ok (match v with
                    | JDict (entry :: entries) =>
                        match dict_get (entry :: entries) (lit "clauses") with
                        | Some found => found
                        | None => JList []
                        end
                    | _ => JList []
                    end))).
Proof.
  intros request outcome. unfold outcome, request.
  rewrite run_analyze_chunk. cbn [fst snd].
  split; [reflexivity | split].
  - intros e ->. reflexivity.
  - intros output ->. rewrite try_parse_json_decodes. split.
    + intros ->. reflexivity.
    + intros v ->. destruct v as [| b | z | f | t | l | d];
        cbn [json_truthy is_dict andb]; rewrite ?andb_false_r;
        try reflexivity.
      destruct d; reflexivity.
Qed.

Lemma run_gather_analyze (cap : capability F) (role : str) :
  forall (chunks : list str) (log : list event) (results : list (json F))
         (log' : list event),
    run cap
      (gather (map (fun chunk =>
                      _analyze_chunk json_loads ANALYZE_SYSTEM_PROMPT chunk role)
                 chunks)) log
    = (Ok results, log') ->
    length results = length chunks /\
    log' = log ++ map (fun chunk =>
                         ChatCall (analyze_request ANALYZE_SYSTEM_PROMPT chunk role))
                    chunks.
Proof.
  induction chunks as [|chunk rest IH]; intros log results log' H.
  - cbn in H. injection H as <- <-. split; [reflexivity|].
    cbn. now rewrite app_nil_r.
  - cbn [map gather] in H.
    apply run_bind_ok in H as (a & l1 & H1 & H).
    rewrite run_analyze_chunk in H1. injection H1 as _ <-.
    apply run_bind_ok in H as (l & l2 & H2 & H).
    cbn in H. injection H as <- <-.
    apply IH in H2 as [Hl Hg]. split; [simpl; now rewrite Hl|].
    rewrite Hg. cbn [map]. now rewrite <- app_assoc.
Qed.

(** X10.  When the extraction of all chunks returns, it has returned one
    result per chunk and made one chat call per chunk, in the order of the
    chunks, each with the request of its chunk. *)
Theorem extraction_one_call_per_chunk (cap : capability F) (role : str)
    (chunks : list str) (log : list event) (results : list (json F))
    (log' : list event) :
  run cap
    (gather (map (fun chunk =>
                    _analyze_chunk json_loads ANALYZE_SYSTEM_PROMPT chunk role)
               chunks)) log
  = (Ok results, log') ->
  len results = len chunks /\
  log' = log ++ map (fun chunk =>
                       ChatCall (analyze_request ANALYZE_SYSTEM_PROMPT chunk role))
                  chunks.
Proof.
  intros H. apply run_gather_analyze in H as [Hl Hg].
  split; [unfold len; now rewrite Hl | exact Hg].
Qed.

Lemma extend_all_lists (lists : list (list (json F))) :
  forall acc, extend_all acc (map JList lists) = Ok (acc ++ concat lists).
Proof.
  induction lists as [|l lists IH]; intros acc; simpl.
  - now rewrite app_nil_r.
  - rewrite IH. now rewrite <- app_assoc.
Qed.

Lemma json_iter_raises (r : json F) (e : exn) :
  json_iter r = Raise e -> e = TypeError.
Proof. destruct r; simpl; congruence. Qed.

Lemma extend_all_raises (results : list (json F)) :
  forall acc e,
    extend_all acc results = Raise e ->
    e = TypeError /\ exists r, In r results /\ json_iter r = Raise TypeError.
Proof.
  induction results as [|r results IH]; intros acc e; simpl; [discriminate|].
  destruct (json_iter r) as [items | e0 |] eqn:E; simpl.
  - intros H. apply IH in H as (-> & r' & Hin & Hr).
    split; [reflexivity|]. exists r'. auto.
  - intros H. injection H as <-. pose proof (json_iter_raises r e0 E). subst.
    split; [reflexivity|]. exists r. auto.
  - destruct r; discriminate.
Qed.

(** X11.  Flattening keeps chunk order: when every chunk's result is a
    list, the findings are the lists put end to end in the order of the
    chunks.  The only error of flattening is [TypeError], raised when some
    chunk's result is null, a number or a boolean. *)
Theorem findings_in_chunk_order (lists : list (list (json F)))
    (results : list (json F)) (e : exn) :
  extend_all [] (map JList lists) = Ok (concat lists)
  /\ (extend_all [] results = Raise e ->
      e = TypeError /\
      exists r, In r results /\
                match r with
                | JNull | JBool _ | JInt _ | JFloat _ => True
                | _ => False
                end).
Proof.
  split; [apply (extend_all_lists lists [])|].
  intros H. apply extend_all_raises in H as (-> & r & Hin & Hr).
  split; [reflexivity|]. exists r. split; [exact Hin|].
  destruct r; simpl in Hr; try discriminate; exact I.
Qed.

Lemma clause_block_cases (i : Z) (c : json F) :
  (is_dict c = true -> exists b, clause_block py_repr (i, c) = Ok b)
  /\ (is_dict c = false -> clause_block py_repr (i, c) = Raise AttributeError).
Proof.
  destruct c; simpl; split; intros H; try discriminate; try reflexivity.
  eexists. reflexivity.
Qed.

Lemma enumerate_from_Forall {A : Type} (P : A -> Prop) (l : list A) (i : Z) :
  Forall P l -> Forall (fun p => P (snd p)) (enumerate_from i l).
Proof.
  intros H. revert i. induction H; intros i; simpl; constructor; auto.
Qed.

Lemma enumerate_from_Exists {A : Type} (P : A -> Prop) (l : list A) (i : Z) :
  Exists P l -> Exists (fun p => P (snd p)) (enumerate_from i l).
Proof.
  intros H. revert i. induction H; intros i; simpl;
    [now apply Exists_cons_hd | apply Exists_cons_tl; auto].
Qed.

Lemma run_synthesize (cap : capability F) (log : list event)
    (clauses : list (json F)) (role : str) :
  run cap (_synthesize_report json_loads py_repr SYNTHESIS_SYSTEM_PROMPT
             clauses role) log =
  match map_result (clause_block py_repr) (enumerate clauses) with
  | Ok blocks =>
      (match chat_response cap log
               (synthesis_request SYNTHESIS_SYSTEM_PROMPT clauses role
                  (join NL blocks)) with
       | Ok output =>
           if negb (json_truthy (_try_parse_json json_loads output)) then
             Raise (RuntimeError SYNTHESIS_FAILED_MESSAGE)
           else
             match json_in (lit "chunkSummaries")
                     (_try_parse_json json_loads output) with
             | Ok present =>
                 if negb present then
                   json_setitem (_try_parse_json json_loads output)
                     (lit "chunkSummaries") (JList [])
                 else Ok (_try_parse_json json_loads output)
             | Raise e => Raise e
             | Timeout => Timeout
             end
       | Raise e => Raise e
       | Timeout => Timeout
       end,
       log ++ [ChatCall (synthesis_request SYNTHESIS_SYSTEM_PROMPT clauses role
                           (join NL blocks))])
  | Raise e => (Raise e, log)
  | Timeout => (Timeout, log)
  end.
Proof.
  unfold _synthesize_report, synthesis_request. rewrite run_bind.
  unfold lift at 1. cbn [run].
  destruct (map_result (clause_block py_repr) (enumerate clauses))
    as [blocks | e |]; try reflexivity.
  rewrite run_bind, run_chat_complete.
  destruct (chat_response cap log _) as [output | e |]; try reflexivity.
  destruct (negb (json_truthy _)); [reflexivity|].
  rewrite run_bind. unfold lift. cbn [run].
  destruct (json_in _ _) as [present | e |]; try reflexivity.
  destruct (negb present); reflexivity.
Qed.

(** X12.  Report synthesis.  If some finding is not an object, it raises
    [AttributeError] before any call.  If all are objects it makes exactly
    one chat call, and when that call raises, it raises the same.  When the
    call returns a text: if the decoder rejects the cleaned text
    ([JSONDecodeError]) or returns a falsy value, it raises the
    [RuntimeError] "Failed to parse synthesis JSON"; if the decoder returns
    a non-empty object, it returns that object, with [chunkSummaries] set to
    an empty list when the key was missing.  Whatever it returns holds
    [chunkSummaries]. *)
Theorem synthesize_report_outcomes (cap : capability F) (log : list event)
    (clauses : list (json F)) (role : str) :
  let outcome :=
    run cap (_synthesize_report json_loads py_repr SYNTHESIS_SYSTEM_PROMPT
               clauses role) log in
  (Exists (fun c => is_dict c = false) clauses ->
   outcome = (Raise AttributeError, log))
  /\ (Forall (fun c => is_dict c = true) clauses ->
      exists request,
        snd outcome = log ++ [ChatCall request] /\
        (forall e, chat_response cap log request = Raise e ->
                   fst outcome = Raise e) /\
        (forall output,
           chat_response cap log request = Ok output ->
           (json_loads (decoder_input output) = None ->
            fst outcome = Raise (RuntimeError SYNTHESIS_FAILED_MESSAGE))
           /\ (forall v,
                 json_loads (decoder_input output) = Some v ->
                 json_truthy v = false ->
                 fst outcome = Raise (RuntimeError SYNTHESIS_FAILED_MESSAGE))
           /\ (forall entry entries,
                 json_loads (decoder_input output)
                 = Some (JDict (entry :: entries)) ->
                 fst outcome
                 = Ok (JDict
                         (match dict_get (entry :: entries)
                                  (lit "chunkSummaries") with
                          | Some _ => entry :: entries
                          | None =>
                              dict_set (entry :: entries)
                                (lit "chunkSummaries") (JList [])
                          end)))))
  /\ (forall report,
        fst outcome = Ok report ->
        json_in (lit "chunkSummaries") report = Ok true).
Proof.
  intros outcome. unfold outcome. rewrite run_synthesize.
  split; [|split].
  - intros Ex.
    rewrite (map_result_raises (clause_block py_repr) AttributeError).
    + reflexivity.
    + apply Forall_forall. intros [i c] _.
      destruct (clause_block_cases i c) as [Hd Hn].
      destruct (is_dict c); [left; now apply Hd | right; now apply Hn].
    + unfold enumerate.
      apply (enumerate_from_Exists (fun c => is_dict c = false)) with (i := 0)
        in Ex.
      eapply Exists_impl; [|exact Ex]. cbn beta. intros [i c] Hc.
      now apply clause_block_cases.
  - intros Fa.
    destruct (map_result_all_ok (clause_block py_repr) (enumerate clauses))
      as [blocks E].
    { unfold enumerate.
      apply (enumerate_from_Forall (fun c => is_dict c = true)) with (i := 0)
        in Fa.
      eapply Forall_impl; [|exact Fa]. cbn beta. intros [i c] Hc.
      now apply clause_block_cases. }
    rewrite E. eexists. cbn [fst snd]. split; [reflexivity | split].
    + intros e ->. reflexivity.
    + intros output ->. rewrite try_parse_json_decodes.
      split; [|split].
      * intros ->. reflexivity.
      * intros v -> Hf. now rewrite Hf.
      * intros entry entries ->. cbn [json_truthy truthy negb json_in].
        destruct (dict_get (entry :: entries) (lit "chunkSummaries"));
          reflexivity.
  - intros report.
    destruct (map_result (clause_block py_repr) (enumerate clauses))
      as [blocks | e |]; cbn [fst]; try discriminate.
    destruct (chat_response cap log _) as [output | e |]; try discriminate.
    destruct (negb (json_truthy _)); [discriminate|].
    destruct (json_in (lit "chunkSummaries") (_try_parse_json json_loads output))
      as [present | e |] eqn:Ein; try discriminate.
    destruct present; cbn [negb].
    + intros H; injection H as <-. exact Ein.
    + destruct (_try_parse_json json_loads output); cbn [json_setitem];
        try discriminate.
      intros H; injection H as <-. cbn [json_in].
      now rewrite dict_get_set.
Qed.

Lemma run_synthesize_ok (cap : capability F) (log log' : list event)
    (clauses : list (json F)) (role : str) (report : json F) :
  run cap (_synthesize_report json_loads py_repr SYNTHESIS_SYSTEM_PROMPT
             clauses role) log = (Ok report, log') ->
  exists request, log' = log ++ [ChatCall request].
Proof.
  rewrite run_synthesize.
  destruct (map_result (clause_block py_repr) (enumerate clauses));
    try discriminate.
  intros H. injection H as _ <-. eexists. reflexivity.
Qed.

(** X13.  A run of [analyze_contract] that returns a report has made
    exactly [2 n + 1] calls for a document of [n] chunks, all of them chat
    calls, the first [n] being the extraction requests of the chunks in
    order.  The report holds under [clauses] the results of these
    extractions flattened in chunk order, which are not empty, and under
    [chunkSummaries] what [_create_chunk_summaries] returned for the chunks
    and these findings, run after the extractions. *)
Theorem analyze_contract_success (cap : capability F) (log : list event)
    (fuel : nat) (document_text role : str) (report : json F)
    (log' : list event) :
  run cap
    (analyze_contract json_loads py_repr ANALYZE_SYSTEM_PROMPT
       SYNTHESIS_SYSTEM_PROMPT SUMMARY_SYSTEM_PROMPT fuel document_text role)
    log
  = (Ok report, log') ->
  exists (chunks : list str) (chunk_results all_clauses chunk_summaries
            : list (json F)) (calls : list event),
    chunk_text fuel (convert_pdf_to_markdown document_text)
      default_chunk_size default_overlap = Ok chunks /\
    log' = log ++ calls /\
    len calls = 2 * len chunks + 1 /\
    forallb is_chat_call calls = true /\
    firstn (length chunks) calls
    = map (fun chunk =>
             ChatCall (analyze_request ANALYZE_SYSTEM_PROMPT chunk role)) chunks /\
    run cap
      (gather (map (fun chunk =>
                      _analyze_chunk json_loads ANALYZE_SYSTEM_PROMPT chunk role)
                 chunks)) log
    = (Ok chunk_results, log ++ firstn (length chunks) calls) /\
    extend_all [] chunk_results = Ok all_clauses /\
    all_clauses <> [] /\
    fst (run cap
           (_create_chunk_summaries py_repr SUMMARY_SYSTEM_PROMPT
              chunks all_clauses role)
           (log ++ firstn (length chunks) calls))
    = Ok chunk_summaries /\
    json_get report (lit "clauses") JNull = Ok (JList all_clauses) /\
    json_get report (lit "chunkSummaries") JNull = Ok (JList chunk_summaries).
Proof.
  intros H. unfold analyze_contract in H.
  apply run_bind_ok in H as (chunks & l1 & H1 & H).
  unfold lift in H1. cbn [run] in H1. injection H1 as E1 <-.
  unfold analyze_chunks in H.
  apply run_bind_ok in H as (chunk_results & l2 & H2 & H).
  pose proof (run_gather_analyze _ _ _ _ _ _ H2) as [Hlen Hl2].
  apply run_bind_ok in H as (all_clauses & l3 & H3 & H).
  unfold lift in H3. cbn [run] in H3. injection H3 as E3 <-.
  destruct (negb (truthy all_clauses)) eqn:T; [discriminate|].
  apply run_bind_ok in H as (chunk_summaries & l4 & H4 & H).
  apply run_bind_ok in H as (final_report & l5 & H5 & H).
  unfold lift in H. cbn [run] in H. injection H as Hm <-.
  pose proof H4 as H4'. unfold _create_chunk_summaries in H4'.
  apply run_summaries_loop in H4' as (requests & outputs & Hr & _ & _ & Hl4).
  apply map_result_length in Hr. unfold enumerate in Hr.
  rewrite enumerate_from_length in Hr.
  apply run_synthesize_ok in H5 as [sreq Hl5].
  set (acalls := map (fun chunk =>
                        ChatCall (analyze_request ANALYZE_SYSTEM_PROMPT chunk role))
                   chunks) in *.
  exists chunks, chunk_results, all_clauses, chunk_summaries,
    (acalls ++ map ChatCall requests ++ [ChatCall sreq]).
  assert (La : length acalls = length chunks)
    by (unfold acalls; apply length_map).
  assert (Fn : firstn (length chunks)
                 (acalls ++ map ChatCall requests ++ [ChatCall sreq]) = acalls).
  { rewrite <- La. rewrite firstn_app, Nat.sub_diag, firstn_all. cbn [firstn].
    apply app_nil_r. }
  rewrite Fn.
  split; [exact E1|]. split.
  { rewrite Hl5, Hl4, Hl2. now rewrite <- !app_assoc. }
  split.
  { unfold len. rewrite !length_app, length_map, La, Hr. cbn [length]. lia. }
  split.
  { rewrite !forallb_app. unfold acalls.
    rewrite !forallb_map_chat by reflexivity. reflexivity. }
  split; [reflexivity|].
  split; [now rewrite <- Hl2|].
  split; [exact E3|].
  split.
  { apply negb_false_iff in T. now apply truthy_true. }
  split; [rewrite <- Hl2; now rewrite H4|].
  unfold merge_report in Hm. destruct final_report; try discriminate.
  injection Hm as <-. cbn [json_get]. split.
  - rewrite dict_get_set_other by reflexivity. now rewrite dict_get_set.
  - now rewrite dict_get_set.
Qed.

(** X14.  When the first finding is not an object, the chunk summaries
    raise [AttributeError] before any call; so does the pipeline once the
    extraction has returned such findings: the error is not the
    [RuntimeError] of an empty result or of a failed synthesis. *)
Theorem non_object_finding_raises (cap : capability F) (log : list event)
    (chunks : list str) (role : str) (c : json F) (rest : list (json F)) :
  chunks <> [] -> is_dict c = false ->
  run cap (_create_chunk_summaries py_repr SUMMARY_SYSTEM_PROMPT
             chunks (c :: rest) role) log
  = (Raise AttributeError, log)
  /\ (forall chunk_results log',
        run cap
          (gather (map (fun chunk =>
                          _analyze_chunk json_loads ANALYZE_SYSTEM_PROMPT
                            chunk role) chunks)) log
        = (Ok chunk_results, log') ->
        extend_all [] chunk_results = Ok (c :: rest) ->
        run cap
          (analyze_chunks json_loads py_repr ANALYZE_SYSTEM_PROMPT
             SYNTHESIS_SYSTEM_PROMPT SUMMARY_SYSTEM_PROMPT chunks role) log
        = (Raise AttributeError, log')).
Proof.
  intros Hne Hc.
  assert (G : forall l, run cap (_create_chunk_summaries py_repr
                                   SUMMARY_SYSTEM_PROMPT chunks (c :: rest) role) l
                        = (Raise AttributeError, l)).
  { intros l. unfold _create_chunk_summaries.
    destruct chunks as [|chunk chunks']; [congruence|].
    cbn [summaries_loop]. rewrite run_bind. unfold lift. cbn [run].
    assert (Hper : 1 <= per_chunk_of (chunk :: chunks') (c :: rest)).
    { unfold per_chunk_of. cbn [truthy].
      pose proof (ceil_div_spec (len (c :: rest)) (len (chunk :: chunks'))) as S.
      rewrite !len_cons in *. pose proof (len_nonneg rest).
      pose proof (len_nonneg chunks'). specialize (S ltac:(lia)). nia. }
    set (per := per_chunk_of (chunk :: chunks') (c :: rest)) in *.
    assert (Sl : exists tl, chunk_clauses (c :: rest) per 0 = c :: tl).
    { unfold chunk_clauses. rewrite Z.mul_0_l, Z.add_0_l.
      apply slice_head. rewrite len_cons. pose proof (len_nonneg rest). lia. }
    destruct Sl as [tl ->]. cbn [map_result].
    assert (El : clause_line py_repr c = Raise AttributeError)
      by (destruct c; try discriminate; reflexivity).
    now rewrite El. }
  split; [apply G|].
  intros chunk_results log' Hg He. unfold analyze_chunks.
  rewrite run_bind, Hg. rewrite run_bind. unfold lift at 1. cbn [run].
  rewrite He. cbn [truthy negb]. rewrite run_bind. now rewrite G.
Qed.

End ExtractionProperties.

(* ================================================================== *)
(** * Further properties: the text a document keeps *)
(* ================================================================== *)

Lemma visible_app (a b : str) : visible (a ++ b) = visible a ++ visible b.
Proof. apply filter_app. Qed.

Lemma visible_space (c : ascii) (s : str) :
  is_space c = true -> visible (c :: s) = visible s.
Proof. intros H. unfold visible. cbn [filter]. now rewrite H. Qed.

Lemma visible_blank (s : str) : forallb is_space s = true -> visible s = [].
Proof.
  induction s as [|c s IH]; simpl; [reflexivity|].
  intros H. apply andb_prop in H as [Hc Hs]. rewrite Hc. now apply IH.
Qed.

Lemma visible_nil (s : str) : visible s = [] -> forallb is_space s = true.
Proof.
  induction s as [|c s IH]; simpl; [reflexivity|].
  destruct (is_space c); simpl; [exact IH | discriminate].
Qed.

Lemma visible_rev (s : str) : visible (rev s) = rev (visible s).
Proof.
  induction s as [|c s IH]; [reflexivity|].
  cbn [rev]. rewrite visible_app, IH. unfold visible at 2 3. cbn [filter].
  destruct (is_space c); cbn [negb rev]; [apply app_nil_r | reflexivity].
Qed.

Lemma visible_drop_while (s : str) : visible (drop_while is_space s) = visible s.
Proof.
  induction s as [|c s IH]; [reflexivity|]. cbn [drop_while].
  destruct (is_space c) eqn:E; [|reflexivity].
  now rewrite (visible_space c s E).
Qed.

Lemma visible_strip (s : str) : visible (strip s) = visible s.
Proof.
  unfold strip, rstrip, lstrip.
  rewrite visible_rev, visible_drop_while, visible_rev, rev_involutive.
  apply visible_drop_while.
Qed.

Lemma visible_sub_crlf (n : nat) :
  forall s, (length s <= n)%nat -> visible (sub_crlf s) = visible s.
Proof.
  induction n as [|n IH]; intros s Hn.
  - destruct s; [reflexivity | simpl in Hn; lia].
  - destruct s as [|c [|d s]]; [reflexivity | reflexivity |].
    rewrite sub_crlf_cons2.
    destruct (Ascii.eqb c CR && Ascii.eqb d LF) eqn:E.
    + apply andb_prop in E as [Ec Ed].
      apply Ascii.eqb_eq in Ec. apply Ascii.eqb_eq in Ed. subst c d.
      rewrite !visible_space by reflexivity.
      apply IH. simpl in Hn. lia.
    + unfold visible. cbn [filter]. fold (visible (sub_crlf (d :: s))).
      fold (visible s). rewrite IH by (simpl in *; lia).
      unfold visible. reflexivity.
Qed.

Lemma visible_sub_cr (s : str) : visible (sub_cr s) = visible s.
Proof.
  unfold sub_cr. induction s as [|c s IH]; [reflexivity|]. cbn [map].
  destruct (Ascii.eqb c CR) eqn:E.
  - apply Ascii.eqb_eq in E. subst c.
    rewrite !visible_space by reflexivity. exact IH.
  - unfold visible in *. cbn [filter]. now rewrite IH.
Qed.

Lemma visible_flush_newlines (k : nat) : visible (flush_newlines k) = [].
Proof.
  unfold flush_newlines. apply visible_blank.
  induction (if (3 <=? k)%nat then 2%nat else k) as [|m IH];
    [reflexivity | exact IH].
Qed.

Lemma visible_collapse_newlines (s : str) :
  forall pending, visible (collapse_newlines s pending) = visible s.
Proof.
  induction s as [|c s IH]; intros pending; cbn [collapse_newlines].
  - apply visible_flush_newlines.
  - destruct (Ascii.eqb c LF) eqn:E.
    + apply Ascii.eqb_eq in E. subst c.
      rewrite (visible_space LF s) by reflexivity. apply IH.
    + rewrite visible_app, visible_flush_newlines. cbn [app].
      unfold visible. cbn [filter]. fold (visible (collapse_newlines s 0)).
      fold (visible s). now rewrite IH.
Qed.

Lemma visible_collapse_blanks (s : str) :
  forall in_run, visible (collapse_blanks s in_run) = visible s.
Proof.
  induction s as [|c s IH]; intros in_run; cbn [collapse_blanks];
    [reflexivity|].
  destruct (Ascii.eqb c SP || Ascii.eqb c TAB) eqn:E.
  - assert (Hc : is_space c = true).
    { apply orb_prop in E as [E | E]; apply Ascii.eqb_eq in E; subst c;
        reflexivity. }
    rewrite (visible_space c s Hc).
    destruct in_run; [apply IH|].
    rewrite (visible_space SP) by reflexivity. apply IH.
  - unfold visible. cbn [filter]. fold (visible (collapse_blanks s false)).
    fold (visible s). now rewrite IH.
Qed.

Lemma visible_normalise (text : str) : visible (normalise text) = visible text.
Proof.
  unfold normalise.
  rewrite visible_strip, visible_collapse_blanks, visible_collapse_newlines,
    visible_sub_cr.
  apply (visible_sub_crlf (length text)). lia.
Qed.

Lemma upto_last_LF_le (run : str) (k : nat) :
  upto_last_LF run = Some k -> (k <= length run)%nat.
Proof.
  revert k. induction run as [|c r IH]; intros k; cbn [upto_last_LF];
    [discriminate|].
  destruct (upto_last_LF r) as [j|].
  - intros H. injection H as <-. specialize (IH j eq_refl). simpl. lia.
  - destruct (Ascii.eqb c LF); [|discriminate].
    intros H. injection H as <-. simpl. lia.
Qed.

Lemma firstn_take_while_blank (s : str) (k : nat) :
  (k <= length (take_while is_space s))%nat ->
  forallb is_space (firstn k s) = true.
Proof.
  revert k. induction s as [|c s IH]; intros k Hk.
  - now rewrite firstn_nil.
  - destruct k as [|k]; [reflexivity|]. cbn [take_while] in Hk.
    destruct (is_space c) eqn:E; [|simpl in Hk; lia].
    cbn [firstn forallb]. rewrite E. apply IH. simpl in Hk. lia.
Qed.

Lemma visible_skipn_blank (s : str) (k : nat) :
  forallb is_space (firstn k s) = true -> visible (skipn k s) = visible s.
Proof.
  intros H. rewrite <- (firstn_skipn k s) at 2.
  now rewrite visible_app, (visible_blank _ H).
Qed.

(** The pieces of the paragraph split hold the visible characters of the
    text, in order. *)
Lemma visible_split_paragraphs (s : str) :
  forall (skip : nat) (cur : str),
    forallb is_space (firstn skip s) = true ->
    visible (concat (split_paragraphs s skip cur))
    = rev (visible cur) ++ visible s.
Proof.
  induction s as [|c s IH]; intros skip cur Hs; cbn [split_paragraphs].
  - cbn [concat]. now rewrite !app_nil_r, visible_rev.
  - destruct skip as [|k].
    + assert (Keep : visible (concat (split_paragraphs s 0 (c :: cur)))
                     = rev (visible cur) ++ visible (c :: s)).
      { rewrite IH by reflexivity. unfold visible. cbn [filter].
        destruct (is_space c); cbn [negb rev]; [reflexivity|].
        now rewrite <- app_assoc. }
      destruct (Ascii.eqb c LF) eqn:E; [|exact Keep].
      destruct (upto_last_LF (take_while is_space s)) as [k|] eqn:U;
        [|exact Keep].
      apply Ascii.eqb_eq in E. subst c.
      apply upto_last_LF_le in U.
      pose proof (firstn_take_while_blank s k U) as B.
      cbn [concat]. rewrite visible_app, visible_rev, (IH k [] B).
      rewrite (visible_space LF s) by reflexivity. reflexivity.
    + cbn [firstn forallb] in Hs. apply andb_prop in Hs as [Hc Hs].
      rewrite (IH k cur Hs). now rewrite (visible_space c s Hc).
Qed.

Lemma classify_content (trimmed_text : str) :
  content (classify trimmed_text) = trimmed_text.
Proof.
  unfold classify.
  destruct (_is_likely_heading trimmed_text); [reflexivity|].
  destruct (_is_likely_list trimmed_text); [reflexivity|].
  destruct (_is_likely_table trimmed_text); reflexivity.
Qed.

Lemma visible_parsed (text : str) :
  visible (concat (map content (_parse_with_regex text))) = visible text.
Proof.
  unfold _parse_with_regex.
  rewrite <- (visible_normalise text).
  transitivity (visible (concat (split_paragraphs (normalise text) 0 [])));
    [|apply (visible_split_paragraphs (normalise text) 0 []); reflexivity].
  induction (split_paragraphs (normalise text) 0 []) as [|para rest IH];
    [reflexivity|].
  cbn [flat_map concat]. rewrite map_app, concat_app, !visible_app, IH.
  f_equal. rewrite <- (visible_strip para).
  destruct (strip para) as [|c t] eqn:E; [reflexivity|].
  cbn [truthy map concat]. now rewrite classify_content, app_nil_r.
Qed.

(** X15.  Parsing loses no visible character: the contents of the parsed
    sections, put end to end, hold the characters of the text that are not
    white space, all of them and in the same order. *)
Theorem parse_keeps_visible_text (text : str) :
  visible (concat (map content (_parse_with_regex text))) = visible text
  /\ (_parse_with_regex text = [] <-> forallb is_space text = true).
Proof.
  split; [apply visible_parsed|]. split.
  - intros E. apply visible_nil. rewrite <- visible_parsed. now rewrite E.
  - intros H. unfold _parse_with_regex. now rewrite (normalise_whitespace text H).
Qed.

Lemma section_step_current (fuel : nat) (chunk_size overlap : Z)
    (st st' : list str * str) (section : SemanticSection) :
  content section <> [] -> trimmed (content section) ->
  section_step fuel chunk_size overlap st section = Ok st' ->
  strip (snd st') <> [].
Proof.
  intros Hn Ht. destruct st as [chunks current]. unfold section_step.
  intros H.
  destruct ((chunk_size <? len current + len (content section))
            && truthy current).
  - destruct (chunk_size <? len (content section)).
    + destruct (_split_large_section fuel (content section) chunk_size overlap)
        as [[|sub0 subs] | e |] eqn:Sp; try discriminate.
      injection H as <-. cbn [snd].
      apply split_large_section_good in Sp.
      inversion Sp as [|? ? [G1 G2] Gs]; subst.
      now rewrite (strip_fixed sub0 G2).
    + injection H as <-. cbn [snd].
      rewrite app_assoc. rewrite <- (app_nil_r (content section)).
      now apply strip_around_nonempty.
  - destruct (chunk_size <? len (content section)).
    + destruct (_split_large_section fuel (content section) chunk_size overlap)
        as [[|sub0 subs] | e |] eqn:Sp; try discriminate.
      injection H as <-. cbn [snd].
      apply split_large_section_good in Sp.
      inversion Sp as [|? ? [G1 G2] Gs]; subst.
      now rewrite (strip_fixed sub0 G2).
    + injection H as <-. cbn [snd].
      destruct (truthy current).
      * change (LF :: LF :: content section) with (PARA ++ content section).
        rewrite app_assoc. rewrite <- (app_nil_r (content section)).
        now apply strip_around_nonempty.
      * rewrite <- (app_nil_l (content section)).
        rewrite <- (app_nil_r (content section)) at 1.
        now apply (strip_around_nonempty [] (content section) []).
Qed.

Lemma sections_loop_current (fuel : nat) (chunk_size overlap : Z)
    (sections : list SemanticSection) :
  Forall (fun section => content section <> [] /\ trimmed (content section))
    sections ->
  forall st st',
    sections_loop fuel chunk_size overlap sections st = Ok st' ->
    sections <> [] \/ strip (snd st) <> [] ->
    strip (snd st') <> [].
Proof.
  induction 1 as [|sec rest [Hn Ht] _ IH]; intros st st'; cbn [sections_loop].
  - intros H [C | C]; [congruence|]. injection H as <-. exact C.
  - destruct (section_step fuel chunk_size overlap st sec) as [st1 | e |] eqn:S;
      try discriminate.
    intros H _. apply (IH st1 st' H). right.
    exact (section_step_current _ _ _ _ _ _ Hn Ht S).
Qed.

Lemma chunk_text_empty (fuel : nat) (text : str) (chunk_size overlap : Z)
    (chunks : list str) :
  chunk_text fuel text chunk_size overlap = Ok chunks ->
  (chunks = [] <-> chunk_size < len text /\ forallb is_space text = true).
Proof.
  unfold chunk_text, chunk_text_with.
  destruct (len text <=? chunk_size) eqn:Q.
  - apply Z.leb_le in Q. intros H. injection H as <-.
    split; [discriminate | lia].
  - apply Z.leb_gt in Q. unfold _sections_to_chunks.
    destruct (sections_loop fuel chunk_size overlap (_parse_with_regex text)
                ([], [])) as [[done current] | e |] eqn:L; try discriminate.
    intros H. injection H as <-. split.
    + intros E. split; [exact Q|].
      destruct (_parse_with_regex text) as [|sec rest] eqn:P.
      * apply visible_nil. rewrite <- visible_parsed. now rewrite P.
      * exfalso.
        assert (G : strip (snd (done, current)) <> []).
        { apply (sections_loop_current fuel chunk_size overlap (sec :: rest))
            with (st := ([], [])); [| exact L | left; discriminate].
          rewrite <- P. apply Forall_forall. intros section Hin.
          now apply (parsed_section_content text). }
        cbn [snd] in G. apply truthy_true in G. rewrite G in E.
        now destruct done.
    + intros [_ Hw]. unfold _parse_with_regex in L.
      rewrite (normalise_whitespace text Hw) in L.
      cbn in L. injection L as <- <-. reflexivity.
Qed.

(** X16.  [chunk_text], when it returns, returns no chunk at all exactly
    for a text of white space only that is longer than [chunk_size]; a text
    with a visible character always yields at least one chunk. *)
Theorem chunk_text_empty_iff_blank (fuel : nat) (text : str)
    (chunk_size overlap : Z) (chunks : list str) :
  chunk_text fuel text chunk_size overlap = Ok chunks ->
  (chunks = [] <-> chunk_size < len text /\ forallb is_space text = true).
Proof. apply chunk_text_empty. Qed.

Lemma split_char_forall (P : ascii -> Prop) (sep : ascii) (s : str) :
  Forall P s -> Forall (Forall P) (split_char sep s).
Proof.
  induction 1 as [|c s Hc Hs IH]; cbn [split_char].
  - constructor; constructor.
  - destruct (Ascii.eqb c sep); [constructor; [constructor | exact IH]|].
    destruct (split_char sep s) as [|l ls].
    + constructor; [|constructor]. constructor; [exact Hc | constructor].
    + inversion IH; subst. constructor; [|assumption]. now constructor.
Qed.

Lemma join_blank (sep : str) (parts : list str) :
  forallb is_space sep = true ->
  Forall (fun p => forallb is_space p = true) parts ->
  forallb is_space (join sep parts) = true.
Proof.
  intros Hsep. induction 1 as [|p ps Hp Hps IH]; [reflexivity|].
  cbn [join]. destruct ps as [|q ps]; [exact Hp|].
  rewrite !forallb_app, Hp, Hsep. exact IH.
Qed.

Lemma convert_blank (pdf_text : str) :
  forallb is_space pdf_text = true -> convert_pdf_to_markdown pdf_text = [].
Proof.
  intros H. unfold convert_pdf_to_markdown. apply strip_whitespace.
  apply join_blank; [reflexivity|].
  apply Forall_map.
  assert (L : Forall (Forall (fun c => is_space c = true))
                (split_char LF
                   (collapse_newlines (sub_cr (sub_crlf pdf_text)) 0))).
  { apply split_char_forall.
    apply collapse_newlines_forall; [reflexivity|].
    apply sub_cr_forall; [reflexivity|].
    apply (sub_crlf_forall _ (length pdf_text)); [reflexivity | lia |].
    now apply forallb_Forall. }
  eapply Forall_impl; [|exact L]. cbn beta. intros line Hl.
  apply forallb_Forall in Hl. now rewrite (strip_whitespace line Hl).
Qed.

(* ================================================================== *)
(** * Further properties: retrieval and simulation *)
(* ================================================================== *)

Lemma index_In {A : Type} (l : list A) (i : Z) (a : A) :
  index l i = Ok a -> In a l.
Proof.
  unfold index. destruct (_ <? 0); [discriminate|].
  destruct (nth_error l _) as [b|] eqn:E; [|discriminate].
  intros H. injection H as <-. now apply nth_error_In in E.
Qed.

Lemma map_result_index_In {A B : Type} (l : list A) (key : B -> Z) :
  forall (sel : list B) (out : list A),
    map_result (fun s => index l (key s)) sel = Ok out ->
    Forall (fun a => In a l) out.
Proof.
  induction sel as [|s sel IH]; intros out; cbn [map_result].
  - intros H. injection H as <-. constructor.
  - destruct (index l (key s)) as [a | e |] eqn:E; try discriminate.
    destruct (map_result _ sel) as [bs | e |]; try discriminate.
    cbn. intros H. injection H as <-.
    constructor; [now apply index_In in E | now apply IH].
Qed.

Section SimulationProperties.

Context {F : Type} {float_ops : FloatOps F}.
Variable SIMULATE_SYSTEM_PROMPT : str.

Lemma rank_chunks_selection (chunks : list str) (vectors : list (list F))
    (top_k : Z) (selected : list str) :
  len vectors = len chunks + 1 ->
  rank_chunks chunks vectors top_k = Ok selected ->
  Forall (fun text => In text chunks) selected
  /\ len selected <= len chunks
  /\ (selected = [] -> chunks = []).
Proof.
  intros Hl. unfold rank_chunks.
  destruct (index vectors (-1)) as [q | e |]; cbn [bind_result];
    try discriminate.
  match goal with
  | |- context [map_result ?f ?sel] =>
      pose proof (map_result_index_In chunks (fun s : Z * F => fst s) sel) as I;
      pose proof (map_result_length f sel) as L;
      assert (B : (length sel <= length chunks)%nat);
      [| destruct (map_result f sel) as [out | e |]; cbn [bind_result];
         try discriminate ]
  end.
  - rewrite slice_to_removelast.
    unfold slice_to. rewrite length_firstn.
    rewrite (Permutation_length (sorted_desc_perm _)).
    rewrite length_map. unfold enumerate. rewrite enumerate_from_length.
    assert (length (removelast vectors) = length chunks).
    { destruct vectors as [|v vs] using rev_ind.
      - rewrite len_nil in Hl. pose proof (len_nonneg chunks). lia.
      - rewrite removelast_last. rewrite len_app in Hl.
        change (len [v]) with 1 in Hl. unfold len in Hl. lia. }
    lia.
  - intros H. injection H as <-.
    specialize (I out eq_refl). specialize (L out eq_refl).
    destruct out as [|o out']; cbn [truthy].
    + split; [|split; [lia | auto]].
      apply Forall_forall. auto.
    + split; [exact I | split; [|discriminate]].
      unfold len. lia.
Qed.

Lemma fst_run_retrieve (cap : capability F) (log : list event)
    (chunks : list str) (query : str) (top_k : Z) (selected : list str) :
  fst (run cap (_vector_retrieve_relevant_chunks chunks query top_k) log)
  = Ok selected ->
  Forall (fun text => In text chunks) selected
  /\ len selected <= len chunks
  /\ (selected = [] -> chunks = []).
Proof.
  rewrite run_retrieve. cbn [fst].
  assert (Same : Forall (fun text => In text chunks) chunks
                 /\ len chunks <= len chunks
                 /\ (chunks = [] -> chunks = [])).
  { split; [apply Forall_forall; auto | split; [lia | auto]]. }
  destruct (embed_response cap log (chunks ++ [query])) as [vectors | e |];
    [| destruct (is_Exception e); [|discriminate] | discriminate].
  - destruct (negb (len vectors =? len (chunks ++ [query]))) eqn:Q.
    + intros H. injection H as <-. exact Same.
    + apply negb_false_iff, Z.eqb_eq in Q. rewrite len_app in Q.
      change (len [query]) with 1 in Q.
      destruct (rank_chunks chunks vectors top_k) as [sel | e |] eqn:R.
      * intros H. injection H as <-.
        exact (rank_chunks_selection chunks vectors top_k sel Q R).
      * intros H. injection H as <-. exact Same.
      * intros H. injection H as <-. exact Same.
  - intros H. injection H as <-. exact Same.
Qed.

(** X17.  The retrieval makes exactly one embedding call, with the chunks
    followed by the query, and no chat call.  What it returns is drawn from
    the chunks: every returned text is one of them, there are no more of
    them than chunks, and the result is empty only when there is no chunk
    at all. *)
Theorem retrieval_selects_from_chunks (cap : capability F) (log : list event)
    (chunks : list str) (query : str) (top_k : Z) :
  let outcome :=
    run cap (_vector_retrieve_relevant_chunks chunks query top_k) log in
  snd outcome = log ++ [EmbedCall (chunks ++ [query])]
  /\ forall selected,
       fst outcome = Ok selected ->
       Forall (fun text => In text chunks) selected
       /\ len selected <= len chunks
       /\ (selected = [] -> chunks = []).
Proof.
  intros outcome. split.
  - unfold outcome. now rewrite run_retrieve.
  - intros selected H. exact (fst_run_retrieve _ _ _ _ _ _ H).
Qed.

(** X18.  [simulate_impact] on a scenario that is not blank, when the
    document splits into [chunks] and the retrieval returns [relevant]:
    after the one embedding call it answers with the fixed not-found
    message, without any chat call, exactly when the document is white
    space only and longer than 1500 characters; otherwise it makes one chat
    call on the excerpts and its outcome is that call's outcome. *)
Theorem simulate_impact_outcomes (cap : capability F) (log : list event)
    (fuel : nat) (document_text scenario : str) (chunks relevant : list str) :
  strip scenario <> [] ->
  chunk_text fuel document_text 1500 200 = Ok chunks ->
  fst (run cap (_vector_retrieve_relevant_chunks chunks scenario 6) log)
  = Ok relevant ->
  let embedded := log ++ [EmbedCall (chunks ++ [scenario])] in
  let request := simulate_request SIMULATE_SYSTEM_PROMPT scenario relevant in
  run cap (simulate_impact SIMULATE_SYSTEM_PROMPT fuel document_text scenario)
    log
  = if (1500 <? len document_text) && forallb is_space document_text
    then (Ok NOT_FOUND_MESSAGE, embedded)
    else (chat_response cap embedded request, embedded ++ [ChatCall request]).
Proof.
  intros Hs Hc Hr embedded request. unfold simulate_impact.
  apply truthy_true in Hs. rewrite Hs. cbn [negb].
  rewrite run_bind. unfold lift at 1. cbn [run]. rewrite Hc.
  rewrite run_bind.
  pose proof (fst_run_retrieve _ _ _ _ _ _ Hr) as (Fa & _ & Hnil).
  assert (Hlog : snd (run cap (_vector_retrieve_relevant_chunks chunks
                                 scenario 6) log) = embedded)
    by now rewrite run_retrieve.
  destruct (run cap (_vector_retrieve_relevant_chunks chunks scenario 6) log)
    as [r l1]. cbn [fst snd] in Hr, Hlog. subst r l1.
  pose proof (chunk_text_empty fuel document_text 1500 200 chunks Hc) as [E1 E2].
  destruct ((1500 <? len document_text) && forallb is_space document_text)
    eqn:B.
  - apply andb_prop in B as [B1 B2]. apply Z.ltb_lt in B1.
    specialize (E2 (conj B1 B2)). subst chunks.
    assert (relevant = []).
    { destruct relevant as [|x rest]; [reflexivity|].
      inversion Fa; subst. contradiction. }
    subst relevant. reflexivity.
  - destruct relevant as [|x rest].
    + specialize (Hnil eq_refl). subst chunks.
      destruct (E1 eq_refl) as [B1 B2]. apply Z.ltb_lt in B1.
      rewrite B1, B2 in B. discriminate.
    + cbn [truthy negb]. unfold request, simulate_request.
      now rewrite run_chat_complete.
Qed.

End SimulationProperties.

(* ================================================================== *)
(** * Further properties: blank documents and the final report *)
(* ================================================================== *)

Lemma str_eqb_neq (a b : str) : a <> b -> str_eqb a b = false.
Proof.
  intros H. destruct (str_eqb a b) eqn:E; [|reflexivity].
  now apply str_eqb_eq in E.
Qed.

Section ReportProperties.

Context {F : Type} {float_ops : FloatOps F}.
Variable json_loads : str -> option (json F).
Variable py_repr : json F -> str.
Variable ANALYZE_SYSTEM_PROMPT : str.
Variable SYNTHESIS_SYSTEM_PROMPT : str.
Variable SUMMARY_SYSTEM_PROMPT : str.

Lemma run_bind_log {A B : Type} (cap : capability F) (p : prog F A)
    (f : A -> prog F B) (log : list event) :
  exists later,
    snd (run cap (bind p f) log) = snd (run cap p log) ++ later.
Proof.
  rewrite run_bind. destruct (run cap p log) as [[a | e |] l1]; cbn [snd].
  - apply run_log_extends.
  - exists []. now rewrite app_nil_r.
  - exists []. now rewrite app_nil_r.
Qed.

(** X19.  A document of white space only is not turned away: its Markdown
    is the empty string, which [chunk_text] returns as one empty chunk, and
    the pipeline starts by sending the extraction request for that empty
    chunk. *)
Theorem analyze_contract_blank_document (cap : capability F)
    (log : list event) (fuel : nat) (document_text role : str) :
  forallb is_space document_text = true ->
  convert_pdf_to_markdown document_text = []
  /\ chunk_text fuel (convert_pdf_to_markdown document_text)
       default_chunk_size default_overlap = Ok [[]]
  /\ exists later,
       snd (run cap
              (analyze_contract json_loads py_repr ANALYZE_SYSTEM_PROMPT
                 SYNTHESIS_SYSTEM_PROMPT SUMMARY_SYSTEM_PROMPT fuel
                 document_text role) log)
       = log ++ ChatCall (analyze_request ANALYZE_SYSTEM_PROMPT [] role)
                :: later.
Proof.
  intros H. pose proof (convert_blank document_text H) as E.
  split; [exact E|]. rewrite E. split; [reflexivity|].
  unfold analyze_contract. rewrite E, run_bind. unfold lift. cbn [run].
  change (chunk_text fuel [] default_chunk_size default_overlap)
    with (@Ok (list str) [[]]).
  cbv iota beta. unfold analyze_chunks. cbn [map gather].
  match goal with
  | |- context [run cap (bind (bind ?t ?k) ?f) log] =>
      destruct (run_bind_log cap (bind t k) f log) as [l1 E1];
      destruct (run_bind_log cap t k log) as [l2 E2];
      rewrite E1, E2
  end.
  rewrite run_analyze_chunk. cbn [snd].
  exists (l2 ++ l1). now rewrite <- !app_assoc.
Qed.

(** X20.  The report [analyze_contract] builds from the synthesis output:
    its [clauses] and [chunkSummaries] are the pipeline's own, whatever the
    output held under these keys; every other key of the output passes
    through unchanged; and an output that is not an object gives
    [TypeError]. *)
Theorem merged_report_fields (final_report : json F)
    (all_clauses chunk_summaries : list (json F)) (key : str)
    (default : json F) :
  key <> lit "clauses" -> key <> lit "chunkSummaries" ->
  match merge_report final_report all_clauses chunk_summaries with
  | Ok report =>
      is_dict final_report = true
      /\ json_get report (lit "clauses") default = Ok (JList all_clauses)
      /\ json_get report (lit "chunkSummaries") default
         = Ok (JList chunk_summaries)
      /\ json_get report key default = json_get final_report key default
  | Raise e => is_dict final_report = false /\ e = TypeError
  | Timeout => False
  end.
Proof.
  intros H1 H2. destruct final_report; cbn [merge_report is_dict];
    try (split; reflexivity).
  cbn [json_get]. split; [reflexivity|]. split; [|split].
  - rewrite dict_get_set_other by reflexivity. now rewrite dict_get_set.
  - now rewrite dict_get_set.
  - rewrite !dict_get_set_other; [reflexivity | |];
      apply str_eqb_neq; congruence.
Qed.

End ReportProperties.

(* ================================================================== *)
(** * Concrete runs of the further properties *)
(* ================================================================== *)

Lemma parsed_section_invariant_witness :
  In first_section (_parse_with_regex two_paragraphs) /\
  (content first_section <> []
   /\ no_outer_space (content first_section)
   /\ Forall plain_char (content first_section)
   /\ 1 <= level first_section
   /\ (type_ first_section = heading
       <-> _is_likely_heading (content first_section) = true)
   /\ (type_ first_section = list_item
       <-> _is_likely_heading (content first_section) = false
           /\ _is_likely_list (content first_section) = true)).
Proof.
  assert (H : In first_section (_parse_with_regex two_paragraphs))
    by (left; reflexivity).
  split; [exact H|].
  exact (parsed_section_invariant two_paragraphs first_section H).
Defined.

Lemma short_line_is_heading_witness :
  strip short_lease <> [] /\ len (strip short_lease) < 60 /\
  _is_likely_heading (strip short_lease) = true /\
  convert_pdf_to_markdown short_lease
  = repeat_char "#" (_get_heading_level (strip short_lease)) ++ [SP]
    ++ strip short_lease.
Proof.
  assert (Hn : strip short_lease <> []) by (vm_compute; discriminate).
  assert (Hl : len (strip short_lease) < 60) by reflexivity.
  split; [exact Hn | split; [exact Hl|]].
  apply (short_line_is_heading short_lease); [| exact Hn | exact Hl].
  unfold short_lease, lit. cbn [list_ascii_of_string].
  repeat (constructor; [split; discriminate|]). constructor.
Defined.

Lemma split_strides_cover_witness :
  _split_large_section 30 section_with_two_breaks 10 4 = Ok two_break_fragments /\
  exists strides,
    split_strides 30 section_with_two_breaks 10 4 0 = Ok strides /\
    two_break_fragments
    = filter (fun c => truthy c)
        (map (stride_fragment section_with_two_breaks) strides) /\
    Forall (fun st => 0 <= fst st /\ 10 - 4 <= snd st - fst st) strides /\
    (forall pre a b rest,
       strides = pre ++ a :: b :: rest -> fst b = snd a - 4) /\
    (forall p, 0 <= p < len section_with_two_breaks ->
       exists st, In st strides /\ fst st <= p < snd st).
Proof.
  split; [reflexivity|].
  apply (split_strides_cover 30 section_with_two_breaks 10 4 two_break_fragments);
    [lia | lia | reflexivity].
Defined.

Lemma split_fragments_shape_witness :
  _split_large_section 30 section_with_two_breaks 10 4 = Ok two_break_fragments /\
  Forall (fun fragment =>
            fragment <> [] /\ no_outer_space fragment /\
            len fragment <= 10 + Z.max 0 (4 - 1))
    two_break_fragments.
Proof.
  split; [reflexivity|].
  apply (split_fragments_shape 30 section_with_two_breaks 10 4);
    [lia | lia | reflexivity].
Defined.

Lemma overlap_tail_length_witness :
  len (_get_overlap_text chunk_ending_in_sentences 6)
  <= Z.max 6 (one_and_a_half 6 - 2)
  /\ len (_get_overlap_text chunk_ending_in_sentences 6)
     <= len chunk_ending_in_sentences.
Proof. apply (overlap_tail_length chunk_ending_in_sentences 6). lia. Defined.

Lemma chunk_text_chunks_stripped_witness :
  10 < len two_paragraphs /\
  chunk_text 0 two_paragraphs 10 4
  = Ok [lit "aaaaa. Bbb"; lit "Bbb" ++ PARA ++ lit "cccccccccc"] /\
  Forall (fun c => c <> [] /\ no_outer_space c)
    [lit "aaaaa. Bbb"; lit "Bbb" ++ PARA ++ lit "cccccccccc"].
Proof.
  split; [reflexivity | split; [reflexivity|]].
  apply (chunk_text_chunks_stripped 0 two_paragraphs 10 4);
    [reflexivity | reflexivity].
Defined.

Lemma try_parse_json_fenced_witness :
  _try_parse_json echo_json
    ([LF] ++ FENCE ++ lit "json" ++ [LF] ++ lit "{}" ++ [LF] ++ FENCE ++ [SP])
  = match echo_json (lit "{}") with
    | Some v => v
    | None => JNull
    end.
Proof.
  apply (try_parse_json_fenced echo_json [LF] (lit "json") [LF] (lit "{}")
           [LF] [SP]);
    try reflexivity; [discriminate | split; reflexivity].
Defined.

Lemma extraction_one_call_per_chunk_witness :
  run (fixed_capability [] (lit "I found nothing."))
    (gather (map (fun chunk =>
                    _analyze_chunk (float_ops := Z_ops) no_json (lit "analyze")
                      chunk (lit "tenant"))
               two_chunks)) []
  = (Ok [JList []; JList []],
     map (fun chunk =>
            ChatCall (analyze_request (lit "analyze") chunk (lit "tenant")))
       two_chunks) /\
  len [@JList Z []; @JList Z []] = len two_chunks /\
  map (fun chunk =>
         ChatCall (analyze_request (lit "analyze") chunk (lit "tenant")))
    two_chunks
  = [] ++ map (fun chunk =>
                 ChatCall (analyze_request (lit "analyze") chunk (lit "tenant")))
            two_chunks.
Proof.
  split; [reflexivity|].
  exact (extraction_one_call_per_chunk (float_ops := Z_ops) no_json
           (lit "analyze") (fixed_capability [] (lit "I found nothing."))
           (lit "tenant") two_chunks [] [JList []; JList []] _ eq_refl).
Defined.

Lemma analyze_contract_success_witness :
  run (fixed_capability [] (lit "{}"))
    (analyze_contract (float_ops := Z_ops) one_clause_json (fun _ => [])
       (lit "analyze") (lit "synthesize") (lit "summarize")
       0 short_lease (lit "tenant")) []
  = (Ok lease_report, lease_calls) /\
  exists (chunks : list str) (chunk_results all_clauses chunk_summaries
            : list (json Z)) (calls : list event),
    chunk_text 0 (convert_pdf_to_markdown short_lease)
      default_chunk_size default_overlap = Ok chunks /\
    lease_calls = [] ++ calls /\
    len calls = 2 * len chunks + 1 /\
    forallb is_chat_call calls = true /\
    firstn (length chunks) calls
    = map (fun chunk =>
             ChatCall (analyze_request (lit "analyze") chunk (lit "tenant")))
        chunks /\
    run (fixed_capability [] (lit "{}"))
      (gather (map (fun chunk =>
                      _analyze_chunk (float_ops := Z_ops) one_clause_json
                        (lit "analyze") chunk (lit "tenant"))
                 chunks)) []
    = (Ok chunk_results, [] ++ firstn (length chunks) calls) /\
    extend_all [] chunk_results = Ok all_clauses /\
    all_clauses <> [] /\
    fst (run (fixed_capability [] (lit "{}"))
           (_create_chunk_summaries (fun _ => []) (lit "summarize")
              chunks all_clauses (lit "tenant"))
           ([] ++ firstn (length chunks) calls))
    = Ok chunk_summaries /\
    json_get lease_report (lit "clauses") JNull = Ok (JList all_clauses) /\
    json_get lease_report (lit "chunkSummaries") JNull
    = Ok (JList chunk_summaries).
Proof.
  split; [reflexivity|].
  exact (analyze_contract_success (float_ops := Z_ops) one_clause_json
           (fun _ => []) (lit "analyze") (lit "synthesize") (lit "summarize")
           (fixed_capability [] (lit "{}")) [] 0 short_lease (lit "tenant")
           lease_report lease_calls eq_refl).
Defined.

Lemma non_object_finding_raises_witness :
  run (fixed_capability [] (lit "{}"))
    (_create_chunk_summaries (fun _ => [])
       (lit "summarize") two_chunks [@JStr Z (lit "x")] (lit "tenant")) []
  = (Raise AttributeError, []).
Proof.
  refine (proj1 (non_object_finding_raises (float_ops := Z_ops) no_json
                   (fun _ => []) (lit "analyze") (lit "synthesize")
                   (lit "summarize") (fixed_capability [] (lit "{}")) []
                   two_chunks (lit "tenant") (JStr (lit "x")) [] _ _));
    [discriminate | reflexivity].
Defined.

Lemma chunk_text_empty_iff_blank_witness :
  chunk_text 0 two_paragraphs 10 4
  = Ok [lit "aaaaa. Bbb"; lit "Bbb" ++ PARA ++ lit "cccccccccc"] /\
  ([lit "aaaaa. Bbb"; lit "Bbb" ++ PARA ++ lit "cccccccccc"] = []
   <-> 10 < len two_paragraphs /\ forallb is_space two_paragraphs = true).
Proof.
  split; [reflexivity|].
  apply (chunk_text_empty_iff_blank 0 two_paragraphs 10 4). reflexivity.
Defined.

Lemma simulate_impact_outcomes_witness :
  strip late_payment <> [] /\
  chunk_text 0 short_lease 1500 200 = Ok [short_lease] /\
  run (fixed_capability [] (lit "You pay interest."))
    (simulate_impact (float_ops := Z_ops) (lit "simulate") 0 short_lease
       late_payment) []
  = if (1500 <? len short_lease) && forallb is_space short_lease
    then (Ok NOT_FOUND_MESSAGE, [] ++ [EmbedCall ([short_lease] ++ [late_payment])])
    else (chat_response (fixed_capability [] (lit "You pay interest."))
            ([] ++ [EmbedCall ([short_lease] ++ [late_payment])])
            (simulate_request (lit "simulate") late_payment [short_lease]),
          ([] ++ [EmbedCall ([short_lease] ++ [late_payment])])
          ++ [ChatCall (simulate_request (lit "simulate") late_payment
                          [short_lease])]).
Proof.
  assert (Hs : strip late_payment <> []) by (vm_compute; discriminate).
  split; [exact Hs | split; [reflexivity|]].
  exact (simulate_impact_outcomes (float_ops := Z_ops) (lit "simulate")
           (fixed_capability [] (lit "You pay interest.")) [] 0 short_lease
           late_payment [short_lease] [short_lease] Hs eq_refl eq_refl).
Defined.

Lemma analyze_contract_blank_document_witness :
  convert_pdf_to_markdown [SP; LF] = []
  /\ chunk_text 0 (convert_pdf_to_markdown [SP; LF])
       default_chunk_size default_overlap = Ok [[]]
  /\ exists later,
       snd (run (fixed_capability [] (lit "{}"))
              (analyze_contract (float_ops := Z_ops) no_json (fun _ => [])
                 (lit "analyze") (lit "synthesize") (lit "summarize") 0
                 [SP; LF] (lit "tenant")) [])
       = [] ++ ChatCall (analyze_request (lit "analyze") [] (lit "tenant"))
               :: later.
Proof.
  apply (analyze_contract_blank_document (float_ops := Z_ops) no_json
           (fun _ => []) (lit "analyze") (lit "synthesize") (lit "summarize")
           (fixed_capability [] (lit "{}")) [] 0 [SP; LF] (lit "tenant")).
  reflexivity.
Defined.

Lemma merged_report_fields_witness :
  match merge_report (JDict [ (lit "summary", @JStr Z (lit "A lease.")) ])
          three_findings two_summaries with
  | Ok report =>
      is_dict (JDict [ (lit "summary", @JStr Z (lit "A lease.")) ]) = true
      /\ json_get report (lit "clauses") JNull = Ok (JList three_findings)
      /\ json_get report (lit "chunkSummaries") JNull = Ok (JList two_summaries)
      /\ json_get report (lit "summary") JNull
         = json_get (JDict [ (lit "summary", @JStr Z (lit "A lease.")) ])
             (lit "summary") JNull
  | Raise e =>
      is_dict (JDict [ (lit "summary", @JStr Z (lit "A lease.")) ]) = false
      /\ e = TypeError
  | Timeout => False
  end.
Proof.
  apply (merged_report_fields
           (JDict [ (lit "summary", @JStr Z (lit "A lease.")) ])
           three_findings two_summaries (lit "summary") JNull);
    discriminate.
Defined.
